(** * Circuitous decoder compiler: a shallow embedding and its properties

    The development follows the layout of the repository:

    - [Memory]     include/circuitous/IR/Memory.hpp   (memory-hint layout)
    - [DecodeAST]  lib/Decoder/DecodeAST.cpp          (emission AST, printer)
    - [SEG]        lib/SEG/SEGMultiGraph.cpp          (shared-expression graph)
    - [IR]         the operations of the Circuit IR that the passes call
    - [Passes]     include/circuitous/Transforms/Passes.hpp
    - [Driver]     bin/decoder/Decoder.cpp
    - [SEGGraph]   lib/SEG/SEGMultiGraph.cpp          (editing, printing, specialisation)
    - [Builder]    lib/Decoder/DecodeAST.cpp          (function builder)
    - [Accessors]  include/circuitous/IR/Memory.hpp   (accessors of a parsed hint)
    - [Cost]       include/circuitous/IR/Cost.hpp     (node counts and their difference)
    - [WithHistory] include/circuitous/Transforms/Passes.hpp (pipeline with snapshots)
    - [CmdParser]  include/circuitous/Util/CmdParser.hpp (command line)

    Heap-allocated objects ([std::shared_ptr<SEGNode>], [Operation *]) are
    modelled by an explicit store from addresses to records, so that sharing,
    copies and in-place updates are visible.  Recursion over the store takes a
    fuel argument; a failed [check], a dangling pointer or exhausted fuel is
    [None]. *)

From stdpp Require Import gmap strings pretty list sorting.
From Stdlib Require Import ZArith Lia Ascii.

Set Warnings "-clear-no-such-hyp".
Local Open Scope Z_scope.

(** [uint32_t] arithmetic wraps around. *)
Definition u32 (x : Z) : Z := x mod 2 ^ 32.

(* ===================================================================== *)
(** * Memory-hint layout (include/circuitous/IR/Memory.hpp)               *)
(* ===================================================================== *)
Module Memory.

Definition e_num : nat := 8.

(** [struct Layout]: [defs] holds the width of each of the eight chunks. *)
Record Layout := mkLayout { defs : list Z }.

Definition Layout_of (ptr_size : Z) : Layout :=
  mkLayout [1; 1; 6; 4; 4; ptr_size; ptr_size; 64].

Definition Layout_size (l : Layout) : Z :=
  fold_left (fun out s => u32 (out + s)) (defs l) 0.

Definition size (ptr_size : Z) : Z := Layout_size (Layout_of ptr_size).

(** [struct Parsed< V > : Layout] *)
Record Parsed (V : Type) := mkParsed { layout : Layout; vals : list V }.
Arguments mkParsed {V} _ _.
Arguments layout {V} _.
Arguments vals {V} _.

(** [make< T >( ptr_size_ )]: the cast to [uint32_t], then the [check]. *)
Definition make {V : Type} (ptr_size_ : Z) : option (Parsed V) :=
  let ptr_size := u32 ptr_size_ in
  if bool_decide (ptr_size = 32 \/ ptr_size = 64)
  then Some (mkParsed (Layout_of ptr_size) [])
  else None.

(** [Parsed::apply]: [f( defs[ i ], vals[ i ] )] for [i] below [e_num],
    after the [check] on the number of values.  The callable [f] works by
    side effect on what it captured; that state is [St] here. *)
Definition apply {V St : Type} (parsed : Parsed V) (f : Z -> V -> St -> St)
           (s : St) : option St :=
  if bool_decide (e_num = length (vals parsed))
  then Some (fold_left (fun s dv => f (fst dv) (snd dv) s)
                       (zip (defs (layout parsed)) (vals parsed)) s)
  else None.

(** [construct( parsed, insert )]: [insert( val, current, def )] chunk by
    chunk, [current] advancing by the width of the chunk. *)
Definition construct {V St : Type} (parsed : Parsed V)
           (insert : V -> Z -> Z -> St -> St) (s : St) : option St :=
  snd <$> apply parsed
                (fun def val (cs : Z * St) =>
                   (u32 (fst cs + def), insert val (fst cs) def (snd cs)))
                (0, s).

(** [parse( call, extract, size )] *)
Definition parse {V : Type} (call : V) (extract : V -> Z -> Z -> V)
           (size : Z) : option (Parsed V) :=
  out ← make (V := V) size;
  let do_extract (cv : Z * list V) (e_size : Z) :=
      (u32 (fst cv + e_size), snd cv ++ [extract call (fst cv) e_size]) in
  Some (mkParsed (layout out)
                 (snd (fold_left do_extract (defs (layout out)) (0, vals out)))).

(** Modelled from the spec: the extractor that the callers of [parse] pass
    (the interpreter's [Memory::deconstruct], which is not in the sources at
    hand).  The spec describes it as "successive bit-range extraction" from a
    bit-string; a bit-string is a non-negative [Z], bit [0] the first
    position, and the extractor returns the [size] bits from [from] on. *)
Definition extractBits (thing : Z) (from size : Z) : Z :=
  Z.land (Z.shiftr thing from) (Z.ones size).

(** Modelled from the spec: the inserter that the callers of [construct]
    pass ([Memory::construct] of the interpreter, not at hand), "successive
    insertion": the [size] bits of [out] from [from] on are replaced by
    [thing]. *)
Definition insertBits (thing : Z) (from size : Z) (out : Z) : Z :=
  Z.lor (Z.land out (Z.lnot (Z.shiftl (Z.ones size) from)))
        (Z.shiftl (Z.land thing (Z.ones size)) from).

(** Modelled from the spec: unpacking a bit-string, [parse] with the
    extractor above. *)
Definition deconstruct (ptr_size : Z) (value : Z) : option (Parsed Z) :=
  parse value extractBits ptr_size.

(** Modelled from the spec: packing a record, [construct] with the inserter
    above, starting from the bit-string of zeroes. *)
Definition construct_bits (parsed : Parsed Z) : option Z :=
  construct parsed insertBits 0.

(** A record is well formed for pointer size [P] when it has the layout of
    [P] and each of its eight values fits the width of its chunk. *)
Definition well_formed (P : Z) (parsed : Parsed Z) : Prop :=
  layout parsed = Layout_of P /\
  Forall2 (fun d v => 0 <= v < 2 ^ d) (defs (Layout_of P)) (vals parsed).

(** The chunk ranges visited by [parse] and by [construct], recorded by an
    extractor (inserter) that returns (logs) the range it is asked for. *)
Definition layout_ranges (P : Z) : list (Z * Z) :=
  [(0, 1); (1, 1); (2, 6); (8, 4); (12, 4); (16, P); (16 + P, P); (16 + 2 * P, 64)].

(** The memory-layout scenario of the spec, at [P = 64]. *)
Definition hint_example : Parsed Z :=
  mkParsed (Layout_of 64) [1; 0; 0; 3; 4; 0xDEAD; 0xBEEF; 7].

End Memory.

(** Loops whose body may fail ([check], dangling pointer). *)
Fixpoint foldlM {A B : Type} (f : B -> A -> option B) (l : list A) (b : B)
  : option B :=
  match l with
  | [] => Some b
  | x :: l' => b' ← f b x; foldlM f l' b'
  end.

(** [std::endl] *)
Definition endl : string := String (Ascii.ascii_of_nat 10) "".

(* ===================================================================== *)
(** * Emission AST (lib/Decoder/DecodeAST.cpp)                            *)
(* ===================================================================== *)
Module DecodeAST.

(** The alternatives of the variant [Expr] that the emission code below
    builds.  [Id] is a string; [Type_] carries the three flags the printer
    looks at, its name and its template parameters; [Var] has a name, a type
    and the flags [is_struct], [is_pointer]; [VarDecl] wraps a [Var]; a
    [StatementBlock] is a vector of [Expr]. *)
#[warnings="-register-all"]
Inductive Expr : Type :=
| Id (name : string)
| Type_ (is_constexpr is_const is_static : bool) (name : string)
        (template_parameters : list Expr)
| Int (value : Z)
| Var (name : string) (type : Expr) (is_struct is_pointer : bool)
| VarDecl (value : Expr)
| IndexVar (lhs rhs : Expr)
| Dereference (value : Expr)
| Statement (value : Expr)
| Return (value : Expr)
| Plus (lhs rhs : Expr)
| And (lhs rhs : Expr)
| Equal (lhs rhs : Expr)
| Assign (lhs rhs : Expr)
| StatementBlock (body : list Expr)
| If (cond ifBody : Expr)
| FunctionCall (function_name : string) (args : list Expr).

(** [Type::Type( Id name )]: no flag set, no template parameter. *)
Definition Type_of (name : string) : Expr := Type_ false false false name [].

(** [Var::Var( Id s )] has type ["auto"]. *)
Definition Var_of (s : string) : Expr := Var s (Type_of "auto") false false.

(** [Var::Var( Id s, Type t, bool is_struct, bool is_pointer )], the two
    flags left at their default. *)
Definition Var_typed (s t : string) : Expr := Var s (Type_of t) false false.

Definition Var_name (v : Expr) : string :=
  match v with Var name _ _ _ => name | _ => "" end.

(** [struct FunctionDeclaration], as [FunctionDeclarationBuilder::make]
    returns it. *)
Record FunctionDeclaration := mkFunctionDeclaration {
  retType : Expr;
  function_name : string;
  args : list Expr;
  body : list Expr
}.

(** [ExpressionPrinter::expr], on the alternatives whose text does not
    depend on a [Guard] with a non-empty bracket ([Guard] is declared in a
    header that is not at hand; [GuardStyle::None] is the pair of empty
    strings).  A [StatementBlock] is printed element after element.  The
    other alternatives are [None]. *)
Fixpoint print (e : Expr) : option string :=
  match e with
  | Id name => Some name
  | Type_ is_constexpr is_const is_static name template_parameters =>
    match template_parameters with
    | [] => Some ((if is_constexpr then "constexpr " else "")
                  +:+ (if is_const then "const " else "")
                  +:+ (if is_static then "static " else "")
                  +:+ name)
    | _ :: _ => None
    end
  | Int value => Some (pretty value)
  | Var name _ _ _ => Some name
  | VarDecl (Var name type _ _) =>
    t ← print type; Some (t +:+ " " +:+ name)
  | VarDecl _ => None
  | Dereference value => v ← print value; Some ("(*" +:+ v +:+ ")")
  | Statement value => v ← print value; Some (v +:+ ";" +:+ endl)
  | Return value => v ← print value; Some ("return " +:+ v +:+ ";")
  | Assign lhs rhs =>
    l ← print lhs; r ← print rhs; Some (l +:+ " " +:+ "=" +:+ " " +:+ r +:+ ";")
  | StatementBlock body =>
    (fix block (es : list Expr) : option string :=
       match es with
       | [] => Some ""
       | e :: es => s ← print e; r ← block es; Some (s +:+ r)
       end) body
  | _ => None
  end.

End DecodeAST.

(* ===================================================================== *)
(** * Shared-expression graph (lib/SEG/SEGMultiGraph.cpp)                 *)
(* ===================================================================== *)
Module SEG.
Import DecodeAST.

(** Address of a heap-allocated [SEGNode]. *)
Abbreviation ptr := positive.

(** A Circuit operation as the SEG code sees it through an [Operation *]:
    its address (pointers are compared and ordered by it), [id()], [name()],
    and [bits] when it is a [Select]. *)
Record Operation := mkOperation {
  addr : Z;
  op_id : Z;
  op_name : string;
  bits : Z
}.

Record SelectChoice := mkSelectChoice { sel : Operation; chosen_idx : Z }.

Record InstructionProjection := mkInstructionProjection {
  vi : Operation;
  root_in_vi : Operation;
  select_choices : list SelectChoice
}.

(** [struct SEGNode].  [_nodes] are the children, [_parents] the parents. *)
Record SEGNode := mkSEGNode {
  id : string;
  _nodes : list ptr;
  _parents : list ptr;
  isRoot : bool;
  fd : bool;
  specializeble : bool;
  inline_cost : Z;
  subtree_count : Z;
  valid_for_contexts : list InstructionProjection
}.

Abbreviation heap := (gmap positive SEGNode).

Definition set_nodes (l : list ptr) (n : SEGNode) : SEGNode :=
  mkSEGNode (id n) l (_parents n) (isRoot n) (fd n) (specializeble n)
            (inline_cost n) (subtree_count n) (valid_for_contexts n).
Definition set_parents (l : list ptr) (n : SEGNode) : SEGNode :=
  mkSEGNode (id n) (_nodes n) l (isRoot n) (fd n) (specializeble n)
            (inline_cost n) (subtree_count n) (valid_for_contexts n).
Definition set_fd (b : bool) (n : SEGNode) : SEGNode :=
  mkSEGNode (id n) (_nodes n) (_parents n) (isRoot n) b (specializeble n)
            (inline_cost n) (subtree_count n) (valid_for_contexts n).
Definition set_inline_cost (c : Z) (n : SEGNode) : SEGNode :=
  mkSEGNode (id n) (_nodes n) (_parents n) (isRoot n) (fd n) (specializeble n)
            c (subtree_count n) (valid_for_contexts n).
Definition set_subtree_count (c : Z) (n : SEGNode) : SEGNode :=
  mkSEGNode (id n) (_nodes n) (_parents n) (isRoot n) (fd n) (specializeble n)
            (inline_cost n) c (valid_for_contexts n).

(** [SEGNode::get_hash]: the number of children, a bar, then the hashes of
    the children in order. *)
Fixpoint get_hash (fuel : nat) (h : heap) (node : ptr) : option string :=
  match fuel with
  | O => None
  | S fuel =>
    n ← h !! node;
    ss ← foldlM (fun ss c => s ← get_hash fuel h c; Some (ss +:+ s))
                (_nodes n) (pretty (length (_nodes n)) +:+ "|");
    Some ss
  end.

(** [std::make_shared< SEGNode >( n )]: a new cell holding a copy. *)
Definition make_shared (n : SEGNode) (h : heap) : ptr * heap :=
  let q := fresh (dom h) in (q, <[q := n]> h).

(** [SEGNode::add_parent], with [this] the receiver.  The argument is a
    [shared_ptr], so it points to a live cell when the call starts. *)
Definition add_parent (this parent : ptr) (h : heap) : option heap :=
  n ← h !! this;
  _ ← h !! parent;
  let h := <[this := set_parents (_parents n ++ [parent]) n]> h in
  self ← h !! this;
  let (q, h) := make_shared self h in
  p ← h !! parent;
  Some (<[parent := set_nodes (_nodes p ++ [q]) p]> h).

(** [SEGNode::add_child] *)
Definition add_child (this child : ptr) (h : heap) : option heap :=
  n ← h !! this;
  _ ← h !! child;
  let h := <[this := set_nodes (_nodes n ++ [child]) n]> h in
  self ← h !! this;
  let (q, h) := make_shared self h in
  c ← h !! child;
  Some (<[child := set_parents (_parents c ++ [q]) c]> h).

(** ** Traversal

    [gap::graph::dfs< yield_node::on_close >] comes from the gap library: a
    depth-first walk that keeps a set of seen nodes, marks a node when it
    opens it, skips the children already seen and yields a node once all its
    children are closed.  The state is the seen set and the nodes yielded so
    far.  The loops below never change [_nodes], so the sequence the
    generator yields is the one of the graph at loop entry. *)
Fixpoint dfs_visit (fuel : nat) (h : heap) (st : gset positive * list ptr)
         (root : ptr) : option (gset positive * list ptr) :=
  match fuel with
  | O => None
  | S fuel =>
    n ← h !! root;
    st' ← foldlM (fun st child =>
                    if decide (child ∈ st.1) then Some st
                    else dfs_visit fuel h st child)
                 (_nodes n) ({[root]} ∪ st.1, st.2);
    Some (st'.1, st'.2 ++ [root])
  end.

(** The walk over a whole graph starts from each of [nodes()] in turn. *)
Definition dfs_on_close (fuel : nat) (h : heap) (nodes : list ptr)
  : option (list ptr) :=
  snd <$> foldlM (fun st root =>
                    if decide (root ∈ st.1) then Some st
                    else dfs_visit fuel h st root)
                 nodes (∅, []).

(** ** Costs ([SEGGraph::calculate_costs]) *)

(** The two lambdas handed to [std::accumulate].  The source adds in
    [int]; the sums are taken in [Z] here, which is the same as long as no
    sum passes [INT_MAX]: [tree_size] below is the bound that keeps every
    sum in that range. *)
Definition inline_cost_acc (h : heap) (current : Z) (n : ptr) : option Z :=
  c ← h !! n;
  Some (if fd c then current + 1 else current + inline_cost c).

Definition subtree_count_acc (h : heap) (current : Z) (n : ptr) : option Z :=
  c ← h !! n; Some (current + subtree_count c).

(** Body of the first loop. *)
Definition cost_step (h : heap) (node : ptr) : option heap :=
  n ← h !! node;
  cost ← foldlM (inline_cost_acc h) (_nodes n) 1;
  let n := set_inline_cost cost n in
  let n := if (2 <=? inline_cost n) || isRoot n then set_fd true n else n in
  Some (<[node := n]> h).

(** Body of the second loop. *)
Definition count_step (h : heap) (node : ptr) : option heap :=
  n ← h !! node;
  count ← foldlM (subtree_count_acc h) (_nodes n) 1;
  Some (<[node := set_subtree_count count n]> h).

Definition calculate_costs (fuel : nat) (nodes : list ptr) (h : heap)
  : option heap :=
  order ← dfs_on_close fuel h nodes;
  h ← foldlM cost_step order h;
  order ← dfs_on_close fuel h nodes;
  foldlM count_step order h.

(** ** Roots of a verify-instruction *)

(** [SEGGraph::get_nodes_by_vi]; the final [check] fails on an empty
    result. *)
Definition get_nodes_by_vi (h : heap) (nodes : list ptr) (v : Operation)
  : option (list (InstructionProjection * ptr)) :=
  m ← foldlM (fun m n =>
                node ← h !! n;
                Some (m ++ omap (fun root =>
                                   if bool_decide (addr (vi root) = addr v)
                                      && isRoot node
                                   then Some (root, n) else None)
                                (valid_for_contexts node)))
             nodes [];
  if bool_decide (length m ≠ 0%nat) then Some m else None.

(** [std::max_element]: the first largest element; there is none in an
    empty range. *)
Definition max_element (vals : list Z) : option Z :=
  match vals with
  | [] => None
  | v :: vals => Some (fold_left (fun m x => if m <? x then x else m) vals v)
  end.

(** [SEGGraph::get_maximum_vi_size]; [vis] is
    [circuit->attr< VerifyInstruction >()].  The sums are [int] in the source
    and in [Z] here, as for the costs. *)
Definition get_maximum_vi_size (h : heap) (nodes : list ptr)
           (vis : list Operation) : option Z :=
  vals ← foldlM (fun vals v =>
                   root_nodes_for_vi ← get_nodes_by_vi h nodes v;
                   a ← foldlM (fun left p =>
                                 n ← h !! p.2; Some (left + subtree_count n))
                              root_nodes_for_vi 0;
                   Some (vals ++ [a]))
                vis [];
  max_element vals.


(** ** Well-formed stores

    Every child pointer points to a cell, and the child relation has no
    cycle: some rank decreases from a node to each of its children. *)
Definition closed (h : heap) : Prop :=
  forall p n c, h !! p = Some n -> c ∈ _nodes n -> is_Some (h !! c).

Definition ranked (rank : ptr -> nat) (h : heap) : Prop :=
  forall p n c, h !! p = Some n -> c ∈ _nodes n -> (rank c < rank p)%nat.

(** The nodes of a graph: [nodes()] and what they reach through
    [children()]. *)
Inductive reachable (h : heap) (nodes : list ptr) : ptr -> Prop :=
| reach_root r : r ∈ nodes -> reachable h nodes r
| reach_child p n c :
    reachable h nodes p -> h !! p = Some n -> c ∈ _nodes n ->
    reachable h nodes c.

(** A sequence of cells in which the children of a node come before it. *)
Inductive ordered (h : heap) : list ptr -> Prop :=
| ordered_nil : ordered h []
| ordered_snoc out q n :
    ordered h out -> h !! q = Some n ->
    (forall c, c ∈ _nodes n -> c ∈ out) ->
    ordered h (out ++ [q]).

(** The cost formulas of the spec, read off a store. *)
Definition child_inline_cost (h : heap) (c : ptr) : Z :=
  match h !! c with
  | Some n => if fd n then 1 else inline_cost n
  | None => 0
  end.

Definition child_subtree_count (h : heap) (c : ptr) : Z :=
  match h !! c with
  | Some n => subtree_count n
  | None => 0
  end.

Definition sum_over (f : ptr -> Z) (l : list ptr) : Z :=
  foldr (fun c acc => f c + acc) 0 l.

(** The largest value of an [int]. *)
Definition INT_MAX : Z := 2 ^ 31 - 1.

(** The number of nodes of the tree below a node, a node that is shared
    counting once for every way that leads to it.  It is read off the child
    lists alone, and bounds what [calculate_costs] and its callers add up. *)
Fixpoint tree_size (fuel : nat) (h : heap) (p : ptr) : Z :=
  match fuel with
  | O => 0
  | S fuel =>
    match h !! p with
    | Some n => 1 + sum_over (tree_size fuel h) (_nodes n)
    | None => 0
    end
  end.

(** Two stores with the same cells and the same child lists. *)
Definition same_graph (h h' : heap) : Prop :=
  forall p, _nodes <$> h !! p = _nodes <$> h' !! p.


(** State of the traversal when it enters a node of rank below [R]: what was
    yielded has been seen, nothing is yielded twice, children are yielded
    before their parents, and the nodes seen but not yet yielded (the ones
    still open) have rank [R] or more. *)
Definition dfs_inv (h : heap) (rank : ptr -> nat) (R : nat)
           (st : gset positive * list ptr) : Prop :=
  (forall q, q ∈ st.2 -> q ∈ st.1) /\ NoDup st.2 /\ ordered h st.2 /\
  (forall s, s ∈ st.1 -> (rank s < R)%nat -> s ∈ st.2).

(** What a walk from the nodes [from] adds to the state. *)
Definition dfs_post (h : heap) (rank : ptr -> nat) (R : nat)
           (st st' : gset positive * list ptr) (from : list ptr) : Prop :=
  exists new, st' = (st.1 ∪ list_to_set new, st.2 ++ new) /\
    (forall q, q ∈ new -> q ∉ st.1) /\
    (forall q, q ∈ new -> exists r, r ∈ from /\ reachable h [r] q) /\
    dfs_inv h rank R st'.

(** The common shape of the two loop bodies of [calculate_costs]: fold over
    the children, then store the result in the node. *)
Definition step (F : heap -> list ptr -> option Z)
           (upd : Z -> SEGNode -> SEGNode) (h : heap) (q : ptr) : option heap :=
  n ← h !! q; v ← F h (_nodes n); Some (<[q := upd v n]> h).

Definition cost_upd (cost : Z) (n : SEGNode) : SEGNode :=
  let n := set_inline_cost cost n in
  if (2 <=? inline_cost n) || isRoot n then set_fd true n else n.



(** ** Emitter synthesis ([expr_for_node])

    What the calls share: the function table, the name counter of
    [UniqueNameStorage], and the [int] behind [initial_stack_offset].  The
    table is an [unordered_map] whose hash and equality both go through
    [get_hash], so it is keyed by the hash string; it holds the copy of the
    node used as key next to the declaration.  [inserted] is a ghost log of
    the keys in the order [func_decls.insert] was called. *)
Record EmitState := mkEmitState {
  func_decls : gmap string (SEGNode * FunctionDeclaration);
  inserted : list string;
  counter : Z;
  stack_offset : Z
}.

Definition empty_state : EmitState := mkEmitState ∅ [] 0 0.

(** [UniqueNameStorage::get_unique_var_name] *)
Definition get_unique_var_name (st : EmitState) : Expr * EmitState :=
  let c := counter st + 1 in
  (Var_of ("generated_name_" +:+ pretty c),
   mkEmitState (func_decls st) (inserted st) c (stack_offset st)).

(** The increment of the stack offset: an [int] in the source, in [Z]
    here; the offset counts the nodes of the trees walked, so it stays in the
    range of [int] when these trees have no more than [INT_MAX] nodes. *)
Definition incr_stack_offset (st : EmitState) : EmitState :=
  mkEmitState (func_decls st) (inserted st) (counter st) (stack_offset st + 1).

Definition reset_stack_offset (st : EmitState) : EmitState :=
  mkEmitState (func_decls st) (inserted st) (counter st) 0.

(** [func_decls.insert( { node, decl } )] *)
Definition insert_decl (key : string) (n : SEGNode) (decl : FunctionDeclaration)
           (st : EmitState) : EmitState :=
  mkEmitState (<[key := (n, decl)]> (func_decls st)) (inserted st ++ [key])
              (counter st) (stack_offset st).

Definition stack_offset_var : Expr := Var_typed "stack_offset" "int*".

(** The call of an emitter function, as the last lines of [expr_for_node]
    build it. *)
Definition emitter_call (f : string) (stack : Expr) : Expr :=
  FunctionCall f [Id "visitor"; stack; stack_offset_var].

Fixpoint expr_for_node (fuel : nat) (h : heap) (node : ptr) (stack : Expr)
         (max_size_stack : Expr) (st : EmitState)
  : option ((Expr * list Expr) * EmitState) :=
  match fuel with
  | O => None
  | S fuel' =>
    n ← h !! node;
    let (pop_var, st) := get_unique_var_name st in
    r ← foldlM (fun (acc : list Expr * list Expr * EmitState) c =>
                  r ← expr_for_node fuel' h c stack max_size_stack acc.2;
                  Some (acc.1.1 ++ [r.1.1],
                        acc.1.2 ++ [StatementBlock r.1.2], r.2))
               (_nodes n) ([pop_var], [], st);
    let local_vars := r.1.1 in
    let setup := r.1.2 in
    let st := r.2 in
    let stack_offset_deref := Dereference stack_offset_var in
    let st := incr_stack_offset st in
    let pop_call := IndexVar stack stack_offset_deref in
    let pop_assign := Statement (Assign (VarDecl pop_var) pop_call) in
    let setup := setup ++ [pop_assign] in
    let setup :=
        setup ++ [Statement (Assign stack_offset_deref
                                    (Plus stack_offset_deref (Int 1)))] in
    let (visitor_call_var, st) := get_unique_var_name st in
    let visitor_call := FunctionCall "visitor.call" local_vars in
    let visitor_assign :=
        Statement (Assign (VarDecl visitor_call_var) visitor_call) in
    let setup := setup ++ [visitor_assign] in
    if negb (fd n) then Some ((visitor_call_var, setup), st)
    else
      key ← get_hash fuel h node;
      let st :=
          match func_decls st !! key with
          | Some _ => st
          | None =>
            let (name, st) := get_unique_var_name st in
            let fdb :=
                mkFunctionDeclaration
                  (Type_of "VisRetType") (Var_name name)
                  [VarDecl (Var_typed "visitor" "const VisitorType& ");
                   VarDecl (Var_typed "stack"
                                      ("const std::array<"
                                         +:+ Var_name max_size_stack +:+ "> &"));
                   VarDecl stack_offset_var]
                  [StatementBlock setup; Return visitor_call_var] in
            insert_decl key n fdb st
          end in
      prev_declared_func ← func_decls st !! key;
      let (prev_func_call_var, st) := get_unique_var_name st in
      let prev_func_call :=
          emitter_call (function_name prev_declared_func.2) stack in
      let prev_func_assign :=
          Statement (Assign (VarDecl prev_func_call_var) prev_func_call) in
      Some ((prev_func_call_var, [prev_func_assign]), st)
  end.

(** The loop of [SEGGraph::prepare] after [calculate_costs]; [stack] is the
    member of that name. *)
Definition register_emitters (fuel : nat) (h : heap) (nodes : list ptr)
           (vis : list Operation) (stack : Expr) (st : EmitState)
  : option EmitState :=
  foldlM (fun st v =>
            roots ← get_nodes_by_vi h nodes v;
            foldlM (fun st (p : InstructionProjection * ptr) =>
                      r ← expr_for_node fuel h p.2 stack
                                        (Var_of "MAX_SIZE_INSTR") st;
                      Some r.2)
                   roots (reset_stack_offset st))
         vis st.

Definition prepare (fuel : nat) (h : heap) (nodes : list ptr)
           (vis : list Operation) (stack : Expr) (st : EmitState)
  : option (heap * EmitState) :=
  h ← calculate_costs fuel nodes h;
  st ← register_emitters fuel h nodes vis stack st;
  Some (h, st).




(** ** Decoder synthesis ([print_decoder])

    [walk instr_proj node] stands for the pairs that
    [tuple_generators( op_gen, node_gen )] yields: the Circuit operations
    under [instr_proj.root_in_vi] (selects resolved by the choices of the
    projection) next to the nodes under [node], both in preorder.  The two
    generators are declared in headers that are not at hand. *)
Definition push_statement (stack_counter : string) (op : Operation) : Expr :=
  Statement (Assign (Id ("stack[" +:+ stack_counter +:+ "++]"))
                    (Id (op_name op))).

(** The conjunction [select_id_<id> == chosen_idx && ...], kept as the one
    element of a block. *)
Definition guard_of (choices : list SelectChoice) : list Expr :=
  fold_left (fun b c =>
               let indx := Var_of ("select_id_" +:+ pretty (op_id (sel c))) in
               let eq := Equal indx (Int (chosen_idx c)) in
               match last b with
               | Some first => removelast b ++ [And first eq]
               | None => [eq]
               end)
            choices [].

Definition get_expression_for_projection
           (fuel : nat) (h : heap)
           (fds : gmap string (SEGNode * FunctionDeclaration))
           (walk : InstructionProjection -> ptr -> list (Operation * ptr))
           (stack_counter : string) (instr_proj : InstructionProjection)
           (node : ptr) : option Expr :=
  let block :=
      (fun on : Operation * ptr => push_statement stack_counter on.1)
        <$> walk instr_proj node in
  if bool_decide (0 < length (select_choices instr_proj))%nat then
    let b := guard_of (select_choices instr_proj) in
    key ← get_hash fuel h node;
    sem_entry ← fds !! key;
    let funcCall := FunctionCall (function_name sem_entry.2)
                                 [Id "stack"; Id stack_counter] in
    Some (If (StatementBlock b) (StatementBlock (block ++ [Statement funcCall])))
  else
    key ← get_hash fuel h node;
    sem_entry ← fds !! key;
    let funcCall := FunctionCall (function_name sem_entry.2)
                                 [Id "stack"; Id stack_counter] in
    Some (StatementBlock (block ++ [Statement funcCall])).

(** [proj_keys] is a [std::set< Operation * >]: it is walked in the order
    of the addresses.  [equal_range] gives the projections of a key in the
    order they were inserted in the multimap. *)
Definition proj_keys (paths : list (InstructionProjection * ptr)) : list Z :=
  merge_sort Z.le
             (remove_dups ((fun p : InstructionProjection * ptr =>
                              addr (root_in_vi p.1)) <$> paths)).

Definition equal_range (key : Z) (paths : list (InstructionProjection * ptr))
  : list (InstructionProjection * ptr) :=
  filter (fun p : InstructionProjection * ptr => addr (root_in_vi p.1) = key)
         paths.

(** What the body of the loop over the keys inserts in the decoder.  In the
    branch for several projections the source also counts the selects to see
    whether the choices are independent; the count only goes to a log
    line. *)
Definition decoder_for_key
           (fuel : nat) (h : heap)
           (fds : gmap string (SEGNode * FunctionDeclaration))
           (walk : InstructionProjection -> ptr -> list (Operation * ptr))
           (paths : list (InstructionProjection * ptr)) (key : Z)
  : option (list Expr) :=
  let start_counter := "stack_counter" in
  let group := equal_range key paths in
  if bool_decide (length group = 1%nat) then
    p ← head group;
    expr ← get_expression_for_projection fuel h fds walk start_counter p.1 p.2;
    Some [expr]
  else
    foldlM (fun body (p : InstructionProjection * ptr) =>
              expr ← get_expression_for_projection fuel h fds walk
                                                   start_counter p.1 p.2;
              Some (body ++ [expr]))
           group [].

(** The declaration [print_decoder] builds for one verify-instruction. *)
Definition decoder_for_vi
           (fuel : nat) (h : heap) (nodes : list ptr)
           (fds : gmap string (SEGNode * FunctionDeclaration))
           (walk : InstructionProjection -> ptr -> list (Operation * ptr))
           (v : Operation) : option FunctionDeclaration :=
  paths ← get_nodes_by_vi h nodes v;
  body ← foldlM (fun body key =>
                   es ← decoder_for_key fuel h fds walk paths key;
                   Some (body ++ es))
                (proj_keys paths)
                [Assign (VarDecl (Var_of "stack_counter")) (Int 0)];
  Some (mkFunctionDeclaration (Type_of "void")
                              ("decoder_for_vi" +:+ pretty (op_id v)) [] body).

Definition print_decoder
           (fuel : nat) (h : heap) (nodes : list ptr) (vis : list Operation)
           (fds : gmap string (SEGNode * FunctionDeclaration))
           (walk : InstructionProjection -> ptr -> list (Operation * ptr))
  : option (list FunctionDeclaration) :=
  mapM (decoder_for_vi fuel h nodes fds walk) vis.

(** ** Shape of a node *)

(** Concatenation of the hashes of the children. *)
Definition cat (hs : list string) : string := foldr String.app "" hs.

(** A string without the separator of [get_hash]. *)
Fixpoint no_bar (s : string) : Prop :=
  match s with
  | EmptyString => True
  | String a s => a <> "|"%char /\ no_bar s
  end.

(** Two nodes have the same shape when they have the same number of
    children and the children have the same shape, position by position. *)
#[warnings="-register-all"]
Inductive shape_iso (h1 h2 : heap) : ptr -> ptr -> Prop :=
| shape_iso_node p1 p2 n1 n2 :
    h1 !! p1 = Some n1 -> h2 !! p2 = Some n2 ->
    Forall2 (shape_iso h1 h2) (_nodes n1) (_nodes n2) ->
    shape_iso h1 h2 p1 p2.

(** ** A small graph

    [SEGNode::SEGNode( id )]; the flags start unset and the counts at zero.
    Node 1 is a root over nodes 2 and 3, node 2 is over node 3, node 4 is a
    second root with the shape of node 2. *)
Definition new_node (name : string) : SEGNode :=
  mkSEGNode name [] [] false false true 0 0 [].

Definition example_vi : Operation := mkOperation 100 7 "VerifyInstruction" 0.
Definition example_op (a : Z) : Operation := mkOperation a a "RegConstraint" 0.

Definition example_root (name : string) (cs : list ptr) (root : Operation)
  : SEGNode :=
  mkSEGNode name cs [] true false true 0 0
            [mkInstructionProjection example_vi root []].

Definition example_heap : heap :=
  <[1%positive := example_root "a" [2; 3]%positive (example_op 201)]>
  (<[2%positive := set_nodes [3%positive] (new_node "b")]>
  (<[3%positive := new_node "c"]>
  (<[4%positive := example_root "d" [3%positive] (example_op 202)]> ∅))).

Definition example_nodes : list ptr := [1; 2; 3; 4]%positive.

Definition example_rank (p : ptr) : nat :=
  match p with 3%positive => 0 | 1%positive => 2 | _ => 1 end%nat.

(** The small graph after [calculate_costs], and a call of [expr_for_node]
    on one of its nodes. *)
Definition example_costed : heap :=
  default ∅ (calculate_costs 5 example_nodes example_heap).










(** The emitters and the roots of the small graph, and a walk that pairs
    the root operation with the root node. *)
Definition example_table : gmap string (SEGNode * FunctionDeclaration) :=
  func_decls
    (default empty_state
             (register_emitters 5 example_costed example_nodes [example_vi]
                                (Var_of "stack") empty_state)).

Definition example_paths : list (InstructionProjection * ptr) :=
  default [] (get_nodes_by_vi example_costed example_nodes example_vi).

Definition example_walk (instr_proj : InstructionProjection) (n : ptr)
  : list (Operation * ptr) := [(root_in_vi instr_proj, n)].

Definition example_entry : SEGNode * FunctionDeclaration :=
  default (new_node "", mkFunctionDeclaration (Id "") "" [] [])
          (example_table !! "2|1|0|0|").

End SEG.


(* ===================================================================== *)
(** * Circuit IR, as far as the passes use it                             *)
(* ===================================================================== *)
Module IR.

(** Modelled from the spec: the opcode tag of an operation.  The headers of
    the IR are not at hand; the passes below only tell [Advice] and
    [AdviceConstraint] from the rest. *)
Inductive Kind : Type := Advice | AdviceConstraint | Other (tag : string).

#[global] Instance Kind_eq_dec : EqDecision Kind.
Proof. solve_decision. Defined.

(** Modelled from the spec: "each Operation has an opcode tag, an ordered
    list of operand references, and a reverse user set".  Nodes live in an
    arena addressed by their id; the user set of a node is the reverse of the
    operand lists, so it is computed from them ([users]). *)
Record Operation := mkOperation { kind : Kind; operands : list N }.

Abbreviation circuit := (gmap N Operation).









End IR.

(* ===================================================================== *)
(** * Passes (include/circuitous/Transforms/Passes.hpp)                   *)
(* ===================================================================== *)
Module Passes.
Import IR.

(** The pass objects the registry hands out. *)
Inductive Pass : Type :=
| EqualitySaturationPass
| MergeAdvicesPass
| DummyPass
| TrivialConcatRemovalPass
| TrivialOrRemoval
| RemoveIdentityPass
| RemillOFPatch
| MergeAdviceConstraints.

(** [PassesBase::known_passes] *)
Definition known_passes : gmap string Pass :=
  list_to_map
    [ ("eqsat", EqualitySaturationPass);
      ("merge-advices", MergeAdvicesPass);
      ("dummy-pass", DummyPass);
      ("trivial-concat-removal", TrivialConcatRemovalPass);
      ("remove-trivial-or", TrivialOrRemoval);
      ("remove-identity", RemoveIdentityPass);
      ("overflow-flag-fix", RemillOFPatch);
      ("merge-transitive-advices", MergeAdviceConstraints) ].

(** [std::map::at] throws [std::out_of_range] on a missing key. *)
Inductive Exception : Type := out_of_range.

Definition NamedPass : Type := string * Pass.

(** [PassesBase::add_pass]: the new list of passes, or the exception. *)
Definition add_pass (name : string) (passes : list NamedPass)
  : Exception + list NamedPass :=
  match known_passes !! name with
  | Some pass => inr (passes ++ [(name, pass)])
  | None => inl out_of_range
  end.

(** [Passes< Next >::run], over the [run_pass] of the layers below. *)
Definition run {Circuit : Type} (run_pass : NamedPass -> Circuit -> Circuit)
           (passes : list NamedPass) (circuit : Circuit) : Circuit :=
  match passes with
  | [] => circuit
  | front :: tail =>
    fold_left (fun result pass => run_pass pass result) tail
              (run_pass front circuit)
  end.

(** ** [MergeAdviceConstraints] *)









End Passes.

(* ===================================================================== *)
(** * Driver (bin/decoder/Decoder.cpp)                                    *)
(* ===================================================================== *)
Module Driver.
Import DecodeAST SEG Passes.

(** What [main] looks at in the parsed command line. *)
Record ParsedCmd := mkParsedCmd { Help : bool; Version : bool }.

(** How a run of [main] ends: it returns a code, it is left by an exception
    nobody catches, or a fatal diagnostic stops the process. *)
Inductive Outcome : Type :=
| Returned (code : Z)
| Uncaught (e : Exception)
| Killed.

Record Run := mkRun { cout : list string; cerr : list string; outcome : Outcome }.

(** The three [add_pass] calls of [main]. *)
Definition build_pipeline : Exception + list NamedPass :=
  match add_pass "remove-transitive-advice" [] with
  | inl e => inl e
  | inr passes =>
    match add_pass "remove-identity" passes with
    | inl e => inl e
    | inr passes => add_pass "remove-trivial-or" passes
    end
  end.

(** [main].  Its collaborators are arguments: [help_str] is the help text,
    [maybe_parsed_cli] the result of [parse_and_validate_cli], [circuit] the
    result of [get_input_circuit], [verify] is [VerifyCircuit], [run_pass]
    the pass runner and [emit] the emission that follows the optimizer and
    writes to [std::cout], the statement of [emit_max_size] first.  [circ::unreachable()] writes its diagnostic and
    stops the process, here as everywhere in the sources, where functions
    that return a value end on it; the [return 3] behind it is never
    reached. *)
Definition main {Circuit : Type} (help_str : string)
           (maybe_parsed_cli : option ParsedCmd) (circuit : option Circuit)
           (verify : Circuit -> bool)
           (run_pass : NamedPass -> Circuit -> Circuit)
           (emit : Circuit -> option (list string)) : Run :=
  match maybe_parsed_cli with
  | None => mkRun [] [help_str] (Returned 1)
  | Some parsed_cli =>
    if Help parsed_cli then mkRun [help_str] [] (Returned 0)
    else if Version parsed_cli
    then mkRun [] ["TODO: Implement proper version message"] (Returned 1)
    else
      match circuit with
      | None => mkRun [] ["Not able to load circuit."] Killed
      | Some circuit =>
        if verify circuit then
          match build_pipeline with
          | inl e => mkRun [] [] (Uncaught e)
          | inr passes =>
            match emit (run run_pass passes circuit) with
            | Some text => mkRun text [] (Returned 0)
            | None => mkRun [] [] Killed
            end
          end
        else mkRun [] [] Killed
      end
  end.

(** The statement [main] prints for [MAX_SIZE_INSTR]: an assignment to the
    variable of that name of the value of [get_maximum_vi_size]. *)
Definition emit_max_size (h : heap) (nodes : list ptr) (vis : list Operation)
  : option Expr :=
  m ← get_maximum_vi_size h nodes vis;
  Some (Statement (Assign (Var_of "MAX_SIZE_INSTR") (Int m))).

(** A declaration of a [constexpr] variable of the given name. *)
Definition constexpr_decl (name : string) (e : Expr) : Prop :=
  exists const static type_name params is_struct is_pointer value,
    e = Statement (Assign (VarDecl (Var name
                                        (Type_ true const static type_name params)
                                        is_struct is_pointer))
                          value).

End Driver.

(* ===================================================================== *)
(** * The graph, further (lib/SEG/SEGMultiGraph.cpp)                    *)
(* ===================================================================== *)
Module SEGGraph.
Import DecodeAST SEG.

(** The fields [calculate_costs] never writes. *)
Definition frame (n : SEGNode)
  : string * list ptr * list ptr * bool * bool * list InstructionProjection :=
  (id n, _nodes n, _parents n, isRoot n, specializeble n, valid_for_contexts n).

(** The pairs [get_nodes_by_vi] is after: a root node of the graph and one of
    its projections for the verify-instruction. *)
Definition root_for (h : heap) (nodes : list ptr) (v : Operation)
           (proj : InstructionProjection) (n : ptr) : Prop :=
  n ∈ nodes /\
  exists node, h !! n = Some node /\ isRoot node = true /\
               proj ∈ valid_for_contexts node /\ addr (vi proj) = addr v.

(** The names [get_unique_var_name] hands out. *)
Definition name_of (c : Z) : string := "generated_name_" +:+ pretty c.

(** Every function of the table carries a name handed out so far, and no
    two keys share a name. *)
Definition names_inv (st : EmitState) : Prop :=
  (forall k e, func_decls st !! k = Some e ->
     exists c, 0 < c <= counter st /\ function_name e.2 = name_of c) /\
  (forall k1 k2 e1 e2,
     func_decls st !! k1 = Some e1 -> func_decls st !! k2 = Some e2 ->
     function_name e1.2 = function_name e2.2 -> k1 = k2).

(** [SEGNode::replace_all_nodes_by_id]: every child whose [id] is
    [target_id] is replaced by [new_target]; a null child (a pointer without
    a cell) is kept. *)
Definition replace_all_nodes_by_id (this new_target : ptr) (target_id : string)
           (h : heap) : option heap :=
  n ← h !! this;
  Some (<[this :=
            set_nodes ((fun node_ptr =>
                          match h !! node_ptr with
                          | Some c => if bool_decide (id c = target_id)
                                      then new_target else node_ptr
                          | None => node_ptr
                          end) <$> _nodes n) n]> h).

(** [SEGGraph::remove_node]: [std::erase_if] over [_nodes] with the
    predicate "has the [id] of [node]"; the predicate reads through every
    pointer of the vector. *)
Definition remove_node (node : ptr) (h : heap) (nodes : list ptr)
  : option (list ptr) :=
  target ← h !! node;
  foldlM (fun kept p =>
            n ← h !! p;
            Some (if bool_decide (id n = id target) then kept else kept ++ [p]))
         nodes [].

(** The equality [select_id_<id> == chosen_idx] of one choice. *)
Definition choice_eq (c : SelectChoice) : Expr :=
  Equal (Var_of ("select_id_" +:+ pretty (op_id (sel c)))) (Int (chosen_idx c)).

(** The expression of one projection, as [print_decoder] asks for it. *)
Definition projection_expr (fuel : nat) (h : heap)
           (fds : gmap string (SEGNode * FunctionDeclaration))
           (walk : InstructionProjection -> ptr -> list (Operation * ptr))
           (p : InstructionProjection * ptr) : option Expr :=
  get_expression_for_projection fuel h fds walk "stack_counter" p.1 p.2.

(** [SEGGraph::print_semantics_emitter]: the entries of the function table
    for which a comment line and the declaration are printed, in the order
    of the printing.  [func_decls.find( *node )] looks the node up by its
    hash. *)
Definition print_semantics_emitter (fuel : nat) (h : heap) (nodes : list ptr)
           (fds : gmap string (SEGNode * FunctionDeclaration))
  : option (list (SEGNode * FunctionDeclaration)) :=
  order ← dfs_on_close fuel h nodes;
  foldlM (fun out node =>
            key ← get_hash fuel h node;
            match fds !! key with
            | Some fd => Some (out ++ [fd])
            | None => Some out
            end)
         order [].

(** The entry a node finds in the function table. *)
Definition emitter_of (fuel : nat) (h : heap)
           (fds : gmap string (SEGNode * FunctionDeclaration)) (p : ptr)
  : option (SEGNode * FunctionDeclaration) :=
  key ← get_hash fuel h p; fds !! key.

(** An [Operation *] with what [operands()] gives, as far as a walk goes
    down the operands. *)
#[warnings="-register-all"]
Inductive OpTree : Type :=
| OpNode (op : Operation) (operands : list OpTree).

Definition op_of (t : OpTree) : Operation := match t with OpNode op _ => op end.
Definition operands_of (t : OpTree) : list OpTree :=
  match t with OpNode _ operands => operands end.

Definition set_specializeble (b : bool) (n : SEGNode) : SEGNode :=
  mkSEGNode (id n) (_nodes n) (_parents n) (isRoot n) (fd n) b
            (inline_cost n) (subtree_count n) (valid_for_contexts n).

(** [specialize]: the map [specs], the heap and what was written to
    [std::cerr] are passed along.  A child is looked up in the heap when the
    loop comes to it. *)
Fixpoint specialize (st : gmap string Operation * heap * list string)
         (node : ptr) (op : OpTree) : option (gmap string Operation * heap * list string) :=
  n ← st.1.2 !! node;
  let st :=
      match st.1.1 !! id n with
      | None => (<[id n := op_of op]> st.1.1, st.1.2, st.2)
      | Some _ => (st.1.1, <[node := set_specializeble false n]> st.1.2, st.2)
      end in
  (fix loop (operands : list OpTree) (c : nat)
       (st : gmap string Operation * heap * list string) {struct operands} :=
     match operands with
     | [] => Some st
     | child :: operands =>
       n ← st.1.2 !! node;
       if bool_decide (c = length (_nodes n))
       then Some (st.1, st.2 ++ ["not isomorphic" +:+ endl])
       else
         chi ← _nodes n !! c;
         st ← specialize st chi child;
         loop operands (S c) st
     end) (operands_of op) 0%nat st.

(** [print_SEGNode_tree]; [unreachable()] ends the program, and so does, in
    this model, the access to [children()[ c ]] past the end. *)
Fixpoint print_SEGNode_tree (h : heap) (node : ptr) (stack_name : string)
         (op : OpTree) : option Expr :=
  n ← h !! node;
  fcs ← (fix loop (operands : list OpTree) (c : nat) {struct operands} :=
           match operands with
           | [] => Some []
           | child :: operands =>
             if (c <? length (_nodes n))%nat then None
             else
               chi ← _nodes n !! c;
               fc ← print_SEGNode_tree h chi stack_name child;
               fcs ← loop operands (S c);
               Some (fc :: fcs)
           end) (operands_of op) 0%nat;
  Some (FunctionCall "apply_operation" (Var_of stack_name :: fcs)).

(** The loop of [specialize] over the operands, from the position [c] on. *)
Fixpoint specialize_loop (node : ptr) (operands : list OpTree) (c : nat)
         (st : gmap string Operation * heap * list string)
  : option (gmap string Operation * heap * list string) :=
  match operands with
  | [] => Some st
  | child :: operands =>
    n ← st.1.2 !! node;
    if bool_decide (c = length (_nodes n))
    then Some (st.1, st.2 ++ ["not isomorphic" +:+ endl])
    else
      chi ← _nodes n !! c;
      st ← specialize st chi child;
      specialize_loop node operands (S c) st
  end.

(** What [specialize] may do to the state. *)
Definition spec_post (st st' : gmap string Operation * heap * list string) : Prop :=
  st.1.1 ⊆ st'.1.1 /\
  (forall k o, st'.1.1 !! k = Some o ->
     st.1.1 !! k = Some o \/ exists p n, st.1.2 !! p = Some n /\ id n = k) /\
  (forall p, st'.1.2 !! p = st.1.2 !! p \/
     (exists n, st.1.2 !! p = Some n /\
                st'.1.2 !! p = Some (set_specializeble false n) /\
                is_Some (st'.1.1 !! id n))) /\
  exists k, st'.2 = st.2 ++ replicate k ("not isomorphic" +:+ endl).

End SEGGraph.

(* ===================================================================== *)
(** * Function builder (lib/Decoder/DecodeAST.cpp)                      *)
(* ===================================================================== *)
Module Builder.
Import DecodeAST.

(** The members of [FunctionDeclarationBuilder] that [get_new_arg] reads and
    writes.  [arg_prefix] and [arg_suffix_counter] are declared in a header
    that is not at hand: the prefix is a parameter of the functions below,
    and the counter is a number without a bound. *)
Record FunctionDeclarationBuilder := mkFunctionDeclarationBuilder {
  _args : list Expr;
  arg_suffix_counter : Z
}.

(** The lambda [candidate_name_is_taken]. *)
Definition candidate_name_is_taken (args : list Expr) (candidate : string) : bool :=
  existsb (fun arg => match arg with
                      | VarDecl (Var name _ _ _) => bool_decide (name = candidate)
                      | _ => false
                      end) args.

(** The [while] loop of [get_new_arg]: the counter it stops at. *)
Fixpoint next_free (fuel : nat) (arg_prefix : string) (args : list Expr)
         (counter : Z) : option Z :=
  match fuel with
  | O => None
  | S fuel =>
    if candidate_name_is_taken args (arg_prefix +:+ pretty counter)
    then next_free fuel arg_prefix args (counter + 1)
    else Some counter
  end.

(** [FunctionDeclarationBuilder::get_new_arg]; [Var( candidate, t )] leaves
    the flags [is_struct] and [is_pointer] at their default. *)
Definition get_new_arg (fuel : nat) (arg_prefix : string) (t : Expr)
           (b : FunctionDeclarationBuilder)
  : option (Expr * FunctionDeclarationBuilder) :=
  counter ← next_free fuel arg_prefix (_args b) (arg_suffix_counter b);
  let new_arg := Var (arg_prefix +:+ pretty counter) t false false in
  Some (new_arg, mkFunctionDeclarationBuilder (_args b ++ [VarDecl new_arg]) counter).

(** The names of the arguments. *)
Definition arg_names (args : list Expr) : list string :=
  omap (fun arg => match arg with
                   | VarDecl (Var name _ _ _) => Some name
                   | _ => None
                   end) args.

End Builder.

(* ===================================================================== *)
(** * Accessors of a parsed hint (include/circuitous/IR/Memory.hpp)     *)
(* ===================================================================== *)
Module Accessors.
Import Memory.

(** [Parsed::validate]: the [check] on the number of values. *)
Definition validate {V : Type} (parsed : Parsed V) : bool :=
  bool_decide (length (vals parsed) = e_num).

(** The accessors [used()], [mode()], ...: [validate()], then [vals[ i ]]. *)
Definition field {V : Type} (i : nat) (parsed : Parsed V) : option V :=
  if validate parsed then vals parsed !! i else None.

Definition used {V : Type} : Parsed V -> option V := field 0.
Definition mode {V : Type} : Parsed V -> option V := field 1.
Definition reserved {V : Type} : Parsed V -> option V := field 2.
Definition id {V : Type} : Parsed V -> option V := field 3.
Definition size {V : Type} : Parsed V -> option V := field 4.
Definition addr {V : Type} : Parsed V -> option V := field 5.
Definition value {V : Type} : Parsed V -> option V := field 6.
Definition timestamp {V : Type} : Parsed V -> option V := field 7.

(** What [vals[ I ]] reads.  The unchecked [operator[]] of [std::vector]
    gives the element at an index of the vector; at an index past the end
    the behaviour is undefined, and whatever the program then reads is not a
    value of the record: the model records which index was read. *)
Inductive Read (V : Type) : Type :=
| InRange (v : V)
| PastEnd (index : nat).
Arguments InRange {V} v.
Arguments PastEnd {V} index.

Definition read_at {V : Type} (parsed : Parsed V) (I : nat) : Read V :=
  match vals parsed !! I with
  | Some v => InRange v
  | None => PastEnd I
  end.

(** [Parsed::as_tuple< I >()]: the tuple of [vals[ I ]], ..., [vals[ 0 ]];
    all components are read the same way, so the tuple is a list here. *)
Fixpoint as_tuple_from {V : Type} (I : nat) (parsed : Parsed V) : list (Read V) :=
  let current := read_at parsed I in
  match I with
  | O => [current]
  | S I' => current :: as_tuple_from I' parsed
  end.

(** [Parsed::as_tuple()]: the [check], then [as_tuple< e_num >()]; [None]
    when the [check] fails. *)
Definition as_tuple {V : Type} (parsed : Parsed V) : option (list (Read V)) :=
  if bool_decide (e_num = length (vals parsed))
  then Some (as_tuple_from e_num parsed) else None.

End Accessors.

(* ===================================================================== *)
(** * Node counts (include/circuitous/IR/Cost.hpp)                      *)
(* ===================================================================== *)
Module Cost.

(** [uint64_t] arithmetic wraps around. *)
Definition u64 (x : N) : N := (x mod 2 ^ 64)%N.

(** [static_cast< int64_t >] of a [uint64_t]. *)
Definition int64 (x : N) : Z :=
  if (Z.of_N x <? 2 ^ 63) then Z.of_N x else Z.of_N x - 2 ^ 64.

(** A [std::map< uint64_t, uint64_t >] is a finite map that is walked in
    the order of its keys. *)
Definition key_le (a b : N * N) : Prop := (a.1 <= b.1)%N.

#[global] Instance key_le_dec : RelDecision key_le.
Proof. intros a b. unfold key_le. apply _. Defined.

Definition entries (m : gmap N N) : list (N * N) :=
  merge_sort key_le (map_to_list m).

(** The value of a key in the difference: [0ull] when the key is absent. *)
Definition count_of (m : gmap N N) (k : N) : N := default 0%N (m !! k).

(** [struct RawNodesCounter_] *)
Record RawNodesCounter := mkRawNodesCounter {
  nodes : gmap N N;
  llvm_ops : gmap N N
}.

(** [try_emplace( key, 0 )] followed by [++it->second]. *)
Definition bump (key : N) (m : gmap N N) : gmap N N :=
  <[key := u64 (count_of m key + 1)]> m.

(** [RawNodesCounter_::Process] *)
Definition Process (op_code : N) (c : RawNodesCounter) : RawNodesCounter :=
  mkRawNodesCounter (bump op_code (nodes c)) (llvm_ops c).

(** The work [VisitOperation( LLVMOperation * )] does on the counter before
    it goes on to the operands. *)
Definition Process_llvm (op_code llvm_op_code : N) (c : RawNodesCounter)
  : RawNodesCounter :=
  let c := Process op_code c in
  mkRawNodesCounter (nodes c) (bump llvm_op_code (llvm_ops c)).

(** The lambda [diff] of [RawNodesCounter_::Diff]: the two maps are walked
    side by side; the result lists the arguments of the calls of [cb]. *)
Fixpoint diff (self_ other_ : list (N * N)) : list (N * N * N) :=
  match self_ with
  | [] => (fun o : N * N => (o.1, 0%N, o.2)) <$> other_
  | s :: self' =>
    (fix walk (other_ : list (N * N)) : list (N * N * N) :=
       match other_ with
       | [] => (fun s : N * N => (s.1, s.2, 0%N)) <$> self_
       | o :: other' =>
         if (s.1 =? o.1)%N then (s.1, s.2, o.2) :: diff self' other'
         else if (s.1 <? o.1)%N then (s.1, s.2, 0%N) :: diff self' other_
         else (o.1, 0%N, o.2) :: walk other'
       end) other_
  end.

(** [RawNodesCounter_::Diff]: the calls of [cb] for the node counts, then
    for the LLVM opcodes. *)
Definition Diff (self o : RawNodesCounter)
  : list (N * N * N) * list (N * N * N) :=
  (diff (entries (nodes self)) (entries (nodes o)),
   diff (entries (llvm_ops self)) (entries (llvm_ops o))).

(** The escape sequences of [red] and [green]. *)
Definition esc : string := String (Ascii.ascii_of_nat 27) "".
Definition red (what : Z) : string := esc +:+ "[91m" +:+ pretty what +:+ esc +:+ "[0m".
Definition green (what : Z) : string := esc +:+ "[92m" +:+ pretty what +:+ esc +:+ "[0m".

(** The lambda [log] of [Printer::Diff]; [_to_string] names the key.  The
    difference is the one of [int64_t] as long as that does not overflow. *)
Definition log (_to_string : N -> string) (what orig updated : N) : string :=
  if (orig =? updated)%N then ""
  else
    let changed_by := int64 updated - int64 orig in
    " " +:+ _to_string what +:+ "( "
        +:+ (if 0 <? changed_by then red changed_by
             else if changed_by <? 0 then green changed_by else "")
        +:+ " )" +:+ endl.

(** [Printer::Diff]: [self.Diff( other, log )]. *)
Definition Printer_Diff (node_name llvm_name : N -> string)
           (self other : RawNodesCounter) : string :=
  let d := Diff self other in
  fold_left (fun os t => os +:+ log node_name t.1.1 t.1.2 t.2) d.1 ""
  +:+ fold_left (fun os t => os +:+ log llvm_name t.1.1 t.1.2 t.2) d.2 "".

(** A list of entries with strictly increasing keys. *)
Definition sorted_keys (l : list (N * N)) : Prop :=
  StronglySorted (fun a b : N * N => (a.1 < b.1)%N) l.

(** What the walk gives for two such lists: the keys of its calls increase,
    they are the keys of either list, and each call carries the two counts of
    its key, zero for a list that has not got the key. *)
Definition diff_ok (s o : list (N * N)) : Prop :=
  StronglySorted N.lt ((diff s o).*1.*1) /\
  (forall k, k ∈ (diff s o).*1.*1 <-> k ∈ s.*1 \/ k ∈ o.*1) /\
  (forall k a b, (k, a, b) ∈ diff s o ->
     ((k, a) ∈ s \/ (a = 0%N /\ k ∉ s.*1)) /\
     ((k, b) ∈ o \/ (b = 0%N /\ k ∉ o.*1))).

End Cost.

(* ===================================================================== *)
(** * Pipeline with history (include/circuitous/Transforms/Passes.hpp)  *)
(* ===================================================================== *)
Module WithHistory.
Import Passes.

Section Layer.
Context {Circuit Counter : Type}.

(** [this->Next::run_pass] of the layer below; [RawNodesCounter]'s
    [collector.Run( circuit->root )] followed by the move of the collector
    into the snapshot; and the texts that [Printer::Print] and
    [Printer::Diff] write. *)
Variable next_run_pass : NamedPass -> Circuit -> Circuit.
Variable collect : Circuit -> Counter.
Variable Print : Counter -> string.
Variable Diff : Counter -> Counter -> string.

(** [WithHistory::Snapshot] *)
Definition Snapshot : Type := string * Counter.

(** [WithHistory::make_snapshot]; [after] defaults to [std::nullopt]. *)
Definition make_snapshot (circuit : Circuit) (after : option string)
           (history : list Snapshot) : list Snapshot :=
  let name := match after with Some a => a | None => "start" end in
  history ++ [(name, collect circuit)].

(** [WithHistory::run_pass]; the layer keeps [history] between the calls. *)
Definition run_pass (npass : NamedPass)
           (st : list Snapshot * Circuit) : list Snapshot * Circuit :=
  let history := st.1 in
  let circuit := st.2 in
  let history :=
      if bool_decide (length history = 0%nat)
      then make_snapshot circuit None history else history in
  let result := next_run_pass npass circuit in
  (make_snapshot result (Some npass.1) history, result).

(** The loop of [WithHistory::report] over [history[ 1 ]], ...; [prev] is
    [history[ i - 1 ].second]. *)
Fixpoint report_diffs (prev : Counter) (l : list Snapshot) (ss : string)
  : string :=
  match l with
  | [] => ss
  | (name, def) :: l =>
    report_diffs def l (ss +:+ name +:+ ":" +:+ endl +:+ Diff prev def)
  end.

(** [WithHistory::report] *)
Definition report (history : list Snapshot) : string :=
  match history with
  | [] => "empty history"
  | (name, def) :: rest =>
    let ss := name +:+ ":" +:+ endl +:+ Print def in
    let ss := report_diffs def rest ss in
    ss +:+ endl +:+ "In the end:" +:+ endl
       +:+ Print (default def (snd <$> last history)) +:+ endl
  end.

(** The circuits a pipeline goes through, the input first. *)
Fixpoint stages (passes : list NamedPass) (circuit : Circuit) : list Circuit :=
  circuit :: match passes with
             | [] => []
             | pass :: passes => stages passes (next_run_pass pass circuit)
             end.

End Layer.

End WithHistory.

(* ===================================================================== *)
(** * Command line (include/circuitous/Util/CmdParser.hpp)              *)
(* ===================================================================== *)
Module CmdParser.

(** [struct CmdOpt] *)
Record CmdOpt := mkCmdOpt {
  primary : string;
  aliases : gset string;
  required : bool
}.

(** [CmdOpt::matches] *)
Definition matches (o : CmdOpt) (what : string) : bool :=
  bool_decide (what = primary o) || bool_decide (what ∈ aliases o).

(** What the parser uses of a command type [Cmd]: [Cmd::opt], [Cmd::arity]
    and, when [Cmd] satisfies [Validates], [Cmd::validate]. *)
Record Cmd := mkCmd {
  opt : CmdOpt;
  arity : Z;
  validate : option (list string -> option string)
}.

(** The character ['\n']. *)
Definition nl : string := String (Ascii.ascii_of_nat 10) "".

(** [HasAllowed< S >::validate], [allowed] being [S::allowed]. *)
Definition HasAllowed_validate (allowed : gset string) (tokens : list string)
  : option string :=
  let str :=
      fold_left (fun ss token =>
                   if bool_decide (token ∈ allowed) then ss
                   else ss +:+ token +:+ " is not allowed." +:+ nl)
                tokens "" in
  if bool_decide (str = "") then None else Some str.

(** [to_string< Cmd >()] *)
Definition to_string (c : Cmd) : string := "[ " +:+ primary (opt c) +:+ " ]".

(** A function either returns or leaves through [fail], which writes its
    message to [std::cerr] and calls [std::exit( 1 )]. *)
Inductive outcome (A : Type) : Type :=
| Ok (a : A)
| Exit (cerr : string).
Arguments Ok {A} _.
Arguments Exit {A} _.

Definition obind {A B : Type} (x : outcome A) (k : A -> outcome B) : outcome B :=
  match x with Ok a => k a | Exit m => Exit m end.

(** The state of [struct CmdParser]: the map [parsed], and [rest], the
    tokens from [current] on. *)
Record Parser := mkParser {
  parsed : gmap string (list string);
  rest : list string
}.

Definition fail {A : Type} (msg : string) : outcome A := Exit msg.

Definition eof (p : Parser) : bool := bool_decide (rest p = []).

(** [peek()] *)
Definition peek (p : Parser) : outcome string :=
  match rest p with
  | [] => fail "Out of bonds read"
  | t :: _ => Ok t
  end.

(** The state after [next()]: [current] has moved on. *)
Definition advance (p : Parser) : Parser := mkParser (parsed p) (tail (rest p)).

(** [present< Cmd >()], [matched< Cmd >()] *)
Definition present (c : Cmd) (m : gmap string (list string)) : bool :=
  bool_decide (is_Some (m !! primary (opt c))).

(** [account< Cmd >()]: [parsed[ primary ] = {}] *)
Definition account_none (c : Cmd) (p : Parser) : Parser :=
  mkParser (<[primary (opt c) := []]> (parsed p)) (rest p).

(** [account< Cmd >( t )]: [parsed[ primary ].push_back( t )] *)
Definition account (c : Cmd) (t : string) (p : Parser) : Parser :=
  mkParser (<[primary (opt c) :=
                default [] (parsed p !! primary (opt c)) ++ [t]]> (parsed p))
           (rest p).

(** [matches_any< Cmds ... >] *)
Fixpoint matches_any (cmds : list Cmd) (token : string) : bool :=
  match cmds with
  | [] => false
  | H :: Tail => if matches (opt H) token then true else matches_any Tail token
  end.

(** [take_while< Cmd >] with the predicate [parse_vals] passes: the token
    matches no option. *)
Fixpoint take_while_loop (cmds : list Cmd) (c : Cmd) (toks : list string)
         (m : gmap string (list string)) : Parser :=
  match toks with
  | [] => mkParser m []
  | t :: toks' =>
    if negb (negb (matches_any cmds t)) then mkParser m toks
    else take_while_loop cmds c toks' (parsed (account c t (mkParser m toks)))
  end.

Definition take_while (cmds : list Cmd) (c : Cmd) (p : Parser) : Parser :=
  take_while_loop cmds c (rest p) (parsed p).

(** The conversion of the arity to the [int8_t] parameter of [take_n]. *)
Definition int8 (x : Z) : Z := (x + 128) mod 256 - 128.

(** [take_n< Cmd >( count )]; [n] is the number of rounds a positive [count]
    stands for. *)
Fixpoint take_n_loop (cmds : list Cmd) (c : Cmd) (n : nat) (p : Parser)
  : outcome Parser :=
  match n with
  | O => Ok p
  | S n' =>
    obind (peek p) (fun t =>
    if matches_any cmds t
    then fail (to_string c +:+ " expected " +:+ pretty (Z.of_nat n)
                 +:+ " more args, instead matched" +:+ t)
    else take_n_loop cmds c n' (account c t (advance p)))
  end.

Definition take_n (cmds : list Cmd) (c : Cmd) (count : Z) (p : Parser)
  : outcome Parser :=
  take_n_loop cmds c (Z.to_nat count) p.

(** [parse_vals< Cmd >] *)
Definition parse_vals (cmds : list Cmd) (c : Cmd) (p : Parser) : outcome Parser :=
  if present c (parsed p)
  then fail (to_string c +:+ " is present more than once")
  else
    let p := advance p in
    if arity c =? 0 then Ok (account_none c p)
    else if arity c <? 0 then Ok (take_while cmds c p)
    else take_n cmds c (int8 (arity c)) p.

(** The option [match_on] hands a token to: the first one of the list
    whose [opt] matches. *)
Fixpoint first_match (cmds : list Cmd) (t : string) : option Cmd :=
  match cmds with
  | [] => None
  | H :: Ts => if matches (opt H) t then Some H else first_match Ts t
  end.

(** [match_on< H, Ts ... >] with the comparison of [compare_opt]; [cmds]
    are all the options, [hs] those still to be tried. *)
Fixpoint match_on (cmds hs : list Cmd) (p : Parser) : outcome Parser :=
  match hs with
  | [] => obind (peek p) (fun t => fail ("Unrecognized option " +:+ t))
  | H :: Ts =>
    obind (peek p) (fun t =>
    if matches (opt H) t then parse_vals cmds H p else match_on cmds Ts p)
  end.

(** [peek()[0] == '-'] *)
Definition starts_with_dash (t : string) : bool :=
  match t with
  | String c _ => bool_decide (c = "-"%char)
  | EmptyString => false
  end.

(** [match_opt]; every round takes at least one token, [fuel] bounds the
    rounds. *)
Fixpoint match_opt (fuel : nat) (cmds : list Cmd) (p : Parser)
  : option (outcome Parser) :=
  match fuel with
  | O => None
  | S fuel =>
    match obind (peek p) (fun t =>
            if starts_with_dash t then match_on cmds cmds p
            else fail ("Could not match opt " +:+ t)) with
    | Exit m => Some (Exit m)
    | Ok p => if eof p then Some (Ok p) else match_opt fuel cmds p
    end
  end.

(** [parse_argv]: the tokens are [argv[ 1 ]], ..., [argv[ argc - 1 ]]. *)
Definition parse_argv (cmds : list Cmd) (argv : list string)
  : option (outcome Parser) :=
  match_opt (S (length (tail argv))) cmds (mkParser ∅ (tail argv)).

(** [is_one_valid< Yield, Cmd >]: the verdict and the calls of [yield]. *)
Definition is_one_valid (c : Cmd) (m : gmap string (list string))
  : bool * list (string * string) :=
  if negb (present c m) && required (opt c)
  then (false, [(primary (opt c), "Required but not present.")])
  else if negb (present c m) then (true, [])
  else
    match validate c with
    | Some v =>
      match v (default [] (m !! primary (opt c))) with
      | Some msg => (false, [(primary (opt c), "Validate failed: " +:+ msg)])
      | None => (true, [])
      end
    | None => (true, [])
    end.

(** [is_valid< Yield, H, Ts ... >]; [&&] does not evaluate its right side
    when the left one is false. *)
Fixpoint is_valid (cmds : list Cmd) (m : gmap string (list string))
  : bool * list (string * string) :=
  match cmds with
  | [] => (true, [])
  | H :: Ts =>
    let current := is_one_valid H m in
    match Ts with
    | [] => current
    | _ :: _ =>
      if current.1
      then let r := is_valid Ts m in (r.1, current.2 ++ r.2)
      else (false, current.2)
    end
  end.

(** [struct ParsedCmd] *)
Record ParsedCmd := mkParsedCmd {
  pc_parsed : gmap string (list string);
  pc_is_valid : bool
}.

(** [CmdParser::validate( yield )] *)
Definition validate_all (cmds : list Cmd) (p : Parser)
  : ParsedCmd * list (string * string) :=
  let r := is_valid cmds (parsed p) in
  (mkParsedCmd (parsed p) r.1, r.2).

(** [ParsedCmd::count_matched< Ts ... >] *)
Fixpoint count_matched (ts : list Cmd) (pc : ParsedCmd) : Z :=
  match ts with
  | [] => 0
  | H :: Ts =>
    let self := if present H (pc_parsed pc) then 1 else 0 in
    match Ts with [] => self | _ :: _ => self + count_matched Ts pc end
  end.

(** [ParsedCmd::exactly_one_present] *)
Definition exactly_one_present (ts : list Cmd) (pc : ParsedCmd) : ParsedCmd :=
  mkParsedCmd (pc_parsed pc)
              (pc_is_valid pc && bool_decide (count_matched ts pc = 1)).

(** [ParsedCmd::get_raw< Cmd >] *)
Definition get_raw (c : Cmd) (pc : ParsedCmd) : option (list string) :=
  pc_parsed pc !! primary (opt c).

(** [tokenize]: [std::getline] with the delimiter [' '] cuts the string at
    the spaces; [token] is the piece being read, empty pieces are
    skipped. *)
Fixpoint tokenize_go (str : string) (token : string) (out : list string)
  : list string :=
  match str with
  | EmptyString => if bool_decide (token = "") then out else out ++ [token]
  | String ch str' =>
    if bool_decide (ch = " "%char)
    then tokenize_go str' "" (if bool_decide (token = "") then out
                              else out ++ [token])
    else tokenize_go str' (token +:+ String ch "") out
  end.

Definition tokenize (str : string) : list string := tokenize_go str "" [].

(** One option on the command line: the option that matched, the token
    that named it and the values taken for it. *)
Definition segment : Type := Cmd * string * list string.

(** A segment leaves an entry in [parsed] unless the option takes any number
    of values and got none. *)
Definition recorded (s : segment) : bool :=
  bool_decide (arity s.1.1 = 0) || negb (bool_decide (s.2 = [])).

(** What [parse_vals] accepts as the values of an option. *)
Definition values_ok (cmds : list Cmd) (s : segment) : Prop :=
  Forall (fun v => matches_any cmds v = false) s.2 /\
  (arity s.1.1 = 0 -> s.2 = []) /\
  (0 < arity s.1.1 -> Z.of_nat (length s.2) = Z.max 0 (int8 (arity s.1.1))).

(** The tokens of a sequence of segments. *)
Definition flat (segs : list segment) : list string :=
  flat_map (fun s : segment => s.1.2 :: s.2) segs.

(** A segment as [match_opt] reads it: an option of the parser, named by a
    token that starts with a dash and matches it, with values that
    [parse_vals] accepts. *)
Definition seg_ok (cmds : list Cmd) (s : segment) : Prop :=
  s.1.1 ∈ cmds /\ starts_with_dash s.1.2 = true /\
  matches (opt s.1.1) s.1.2 = true /\ values_ok cmds s.

(** The map [parsed] holds the values of the recorded segments, under the
    primary names of their options, and nothing else. *)
Definition table_of (segs : list segment) (m : gmap string (list string)) : Prop :=
  forall k vals, m !! k = Some vals <->
                 exists s, s ∈ segs /\ recorded s = true /\
                           primary (opt s.1.1) = k /\ s.2 = vals.

(** What [is_one_valid] checks of one option: a required option is there,
    and the values of an option that is there pass its [validate]. *)
Definition opt_fine (m : gmap string (list string)) (c : Cmd) : Prop :=
  (required (opt c) = true -> is_Some (m !! primary (opt c))) /\
  (forall v vals, validate c = Some v -> m !! primary (opt c) = Some vals ->
                  v vals = None).

(** The text [HasAllowed::validate] writes for one token. *)
Definition not_allowed (token : string) : string :=
  token +:+ " is not allowed." +:+ nl.

(** A string has a space in it. *)
Fixpoint has_space (s : string) : bool :=
  match s with
  | EmptyString => false
  | String ch s => bool_decide (ch = " "%char) || has_space s
  end.

(** What [tokenize] returns as a token. *)
Definition is_token (t : string) : Prop := t <> "" /\ has_space t = false.

(** The tokens written one after the other with one space in between. *)
Fixpoint unwords (toks : list string) : string :=
  match toks with
  | [] => ""
  | t :: toks => match toks with [] => t | _ :: _ => t +:+ " " +:+ unwords toks end
  end.

(** Three commands to run the parser on: a flag with an alias, an option
    that takes two values, and an option that takes any number of them. *)
Definition flag_cmd : Cmd := mkCmd (mkCmdOpt "--help" {["-h"]} false) 0 None.
Definition pair_cmd : Cmd := mkCmd (mkCmdOpt "--pair" ∅ false) 2 None.
Definition many_cmd : Cmd := mkCmd (mkCmdOpt "--many" ∅ false) (-1) None.
Definition example_cmds : list Cmd := [flag_cmd; pair_cmd; many_cmd].

End CmdParser.

(* ===================================================================== *)
(** * Properties                                                          *)
(* ===================================================================== *)

Module MemoryFacts.
Import Memory.

Lemma testbit_extractBits thing from size i :
  0 <= from -> 0 <= size -> 0 <= i ->
  Z.testbit (extractBits thing from size) i
  = (i <? size) && Z.testbit thing (i + from).
Proof.
  intros Hf Hs Hi. unfold extractBits.
  rewrite Z.land_spec, Z.shiftr_spec, Z.testbit_ones_nonneg by lia.
  apply andb_comm.
Qed.

Lemma testbit_insertBits thing from size out i :
  0 <= from -> 0 <= size -> 0 <= i ->
  Z.testbit (insertBits thing from size out) i
  = if (from <=? i) && (i <? from + size)
    then Z.testbit thing (i - from) else Z.testbit out i.
Proof.
  intros Hf Hs Hi. unfold insertBits.
  rewrite Z.lor_spec, Z.land_spec, Z.lnot_spec by lia.
  destruct (Z.leb_spec from i) as [Hle|Hlt]; simpl.
  - rewrite !Z.shiftl_spec, Z.land_spec, Z.testbit_ones_nonneg by lia.
    replace (i - from <? size) with (i <? from + size)
      by (destruct (Z.ltb_spec i (from + size)), (Z.ltb_spec (i - from) size); lia).
    destruct (i <? from + size); simpl.
    + rewrite andb_false_r, andb_true_r. reflexivity.
    + rewrite andb_true_r, andb_false_r, orb_false_r. reflexivity.
  - rewrite !(Z.shiftl_spec_low _ from i) by lia.
    simpl. rewrite andb_true_r, orb_false_r. reflexivity.
Qed.

Lemma testbit_above_width bits w i :
  0 <= bits < 2 ^ w -> w <= i -> Z.testbit bits i = false.
Proof.
  intros Hb Hi.
  destruct (Z.eq_dec bits 0) as [->|Hne]; [apply Z.bits_0|].
  assert (0 <= w) by (destruct (Z.le_gt_cases 0 w); [lia|];
                      rewrite Z.pow_neg_r in Hb; lia).
  apply Z.bits_above_log2; [lia|].
  apply Z.lt_le_trans with w; [|lia].
  apply Z.log2_lt_pow2; lia.
Qed.

Lemma extract_insert_same thing from size out :
  0 <= from -> 0 <= size -> 0 <= thing < 2 ^ size ->
  extractBits (insertBits thing from size out) from size = thing.
Proof.
  intros Hf Hs Ht. apply Z.bits_inj'. intros i Hi.
  rewrite testbit_extractBits, testbit_insertBits by lia.
  destruct (Z.ltb_spec i size) as [Hlt|Hge]; simpl.
  - replace (from <=? i + from) with true by (symmetry; apply Z.leb_le; lia).
    replace (i + from <? from + size) with true by (symmetry; apply Z.ltb_lt; lia).
    simpl. f_equal. lia.
  - symmetry. apply (testbit_above_width thing size); lia.
Qed.

Lemma extract_insert_disjoint thing from size out from' size' :
  0 <= from -> 0 <= size -> 0 <= from' -> 0 <= size' ->
  from' + size' <= from \/ from + size <= from' ->
  extractBits (insertBits thing from size out) from' size'
  = extractBits out from' size'.
Proof.
  intros Hf Hs Hf' Hs' Hd. apply Z.bits_inj'. intros i Hi.
  rewrite !testbit_extractBits, testbit_insertBits by lia.
  destruct (Z.ltb_spec i size') as [Hlt|Hge]; simpl; [|reflexivity].
  destruct (Z.leb_spec from (i + from')), (Z.ltb_spec (i + from') (from + size));
    simpl; try reflexivity; lia.
Qed.

Lemma testbit_insert_extract bits from size out i :
  0 <= from -> 0 <= size -> 0 <= i ->
  Z.testbit (insertBits (extractBits bits from size) from size out) i
  = if (from <=? i) && (i <? from + size)
    then Z.testbit bits i else Z.testbit out i.
Proof.
  intros Hf Hs Hi. rewrite testbit_insertBits by lia.
  destruct (Z.leb_spec from i), (Z.ltb_spec i (from + size)); simpl; try reflexivity.
  rewrite testbit_extractBits by lia.
  replace (i - from <? size) with true by (symmetry; apply Z.ltb_lt; lia).
  simpl. f_equal. lia.
Qed.

Lemma well_formed_inv P parsed :
  well_formed P parsed ->
  exists used mode reserved id sz addr value timestamp,
    parsed = mkParsed (Layout_of P)
                      [used; mode; reserved; id; sz; addr; value; timestamp] /\
    0 <= used < 2 ^ 1 /\ 0 <= mode < 2 ^ 1 /\ 0 <= reserved < 2 ^ 6 /\
    0 <= id < 2 ^ 4 /\ 0 <= sz < 2 ^ 4 /\ 0 <= addr < 2 ^ P /\
    0 <= value < 2 ^ P /\ 0 <= timestamp < 2 ^ 64.
Proof.
  destruct parsed as [l vs]. intros [Hl Hv]. simpl in *. subst l.
  repeat match goal with
         | H : Forall2 _ (_ :: _) _ |- _ =>
           apply Forall2_cons_inv_l in H as (? & ? & ? & H & ->)
         | H : Forall2 _ [] _ |- _ => apply Forall2_nil_inv_l in H as ->
         end.
  do 8 eexists. split; [reflexivity|]. repeat split; lia.
Qed.

Ltac eval_u32 :=
  repeat match goal with
         | |- context [u32 ?x] =>
           let v := eval vm_compute in (u32 x) in change (u32 x) with v
         end.

Ltac eval_checks :=
  repeat match goal with
         | |- context [bool_decide ?P] =>
           rewrite (bool_decide_eq_true_2 P) by (vm_compute; auto)
         end.

Ltac run_layout :=
  unfold construct_bits, construct, apply, deconstruct, parse, make;
  do 3 (cbn -[insertBits extractBits Z.pow]; eval_u32; eval_checks).

Lemma construct_then_parse P parsed :
  P = 32 \/ P = 64 -> well_formed P parsed ->
  construct_bits parsed ≫= deconstruct P = Some parsed.
Proof.
  intros HP Hwf.
  destruct (well_formed_inv _ _ Hwf)
    as (v0 & v1 & v2 & v3 & v4 & v5 & v6 & v7 & -> & ?).
  destruct HP as [-> | ->]; run_layout; repeat f_equal;
    repeat (rewrite extract_insert_disjoint by lia);
    rewrite extract_insert_same by lia; reflexivity.
Qed.

Lemma parse_then_construct P bits :
  P = 32 \/ P = 64 -> 0 <= bits < 2 ^ size P ->
  deconstruct P bits ≫= construct_bits = Some bits.
Proof.
  intros HP Hb.
  destruct HP as [-> | ->]; run_layout; f_equal;
    apply Z.bits_inj'; intros i Hi;
    repeat (rewrite testbit_insert_extract by lia);
    rewrite Z.bits_0;
    repeat match goal with
           | |- context [if ?c then _ else _] => destruct c eqn:?
           end; try reflexivity;
    symmetry; apply (testbit_above_width bits _ i Hb);
    repeat match goal with
           | H : _ && _ = false |- _ => apply andb_false_iff in H
           end;
    vm_compute size; lia.
Qed.

(** C3. For a pointer size [P] of 32 or 64 and a well-formed record,
    [construct] followed by [parse] gives back the eight fields, and [parse]
    followed by [construct] gives back the bit-string (of [size P] bits).
    Both functions walk the chunks in the fixed order used(1), mode(1),
    reserved(6), id(4), size(4), addr(P), value(P), timestamp(64); each chunk
    starts where the previous one ends, so the ranges do not overlap, and they
    add up to [16 + 2P + 64] bits. *)
Theorem memory_layout_roundtrip (P : Z) (parsed : Parsed Z) (bits : Z) :
  P = 32 \/ P = 64 ->
  well_formed P parsed ->
  0 <= bits < 2 ^ size P ->
  construct_bits parsed ≫= deconstruct P = Some parsed /\
  deconstruct P bits ≫= construct_bits = Some bits /\
  vals <$> parse (0, 0) (fun _ from sz => (from, sz)) P
    = Some (layout_ranges P) /\
  construct parsed (fun _ from sz log => log ++ [(from, sz)]) []
    = Some (layout_ranges P) /\
  size P = 16 + 2 * P + 64.
Proof.
  intros HP Hwf Hb.
  split; [apply construct_then_parse; assumption|].
  split; [apply parse_then_construct; assumption|].
  destruct (well_formed_inv _ _ Hwf)
    as (v0 & v1 & v2 & v3 & v4 & v5 & v6 & v7 & -> & _).
  destruct HP as [-> | ->]; repeat split; reflexivity.
Qed.

Lemma memory_layout_roundtrip_witness :
  construct_bits hint_example ≫= deconstruct 64 = Some hint_example /\
  deconstruct 64 0x1234567 ≫= construct_bits = Some 0x1234567.
Proof.
  assert (Hwf : well_formed 64 hint_example).
  { split; [reflexivity|]. repeat constructor; lia. }
  assert (Hb : 0 <= 0x1234567 < 2 ^ size 64).
  { split; [lia|reflexivity]. }
  destruct (memory_layout_roundtrip 64 hint_example 0x1234567
              (or_intror eq_refl) Hwf Hb) as (H1 & H2 & _).
  exact (conj H1 H2).
Defined.

End MemoryFacts.

Module SEGFacts.
Import DecodeAST SEG.

Lemma foldlM_app {A B} (f : B -> A -> option B) l1 l2 b :
  foldlM f (l1 ++ l2) b = foldlM f l1 b ≫= foldlM f l2.
Proof.
  revert b. induction l1 as [|x l1 IH]; intros b; simpl; [reflexivity|].
  destruct (f b x) as [b'|]; simpl; [apply IH|reflexivity].
Qed.

Lemma ordered_is_Some h out q : ordered h out -> q ∈ out -> is_Some (h !! q).
Proof.
  induction 1 as [|out q' n Hord IH Hq' Hc]; intros Hin.
  - inversion Hin.
  - apply elem_of_app in Hin as [Hin|Hin]; [auto|].
    apply list_elem_of_singleton in Hin as ->. eauto.
Qed.

Lemma ordered_children h out q n c :
  ordered h out -> q ∈ out -> h !! q = Some n -> c ∈ _nodes n -> c ∈ out.
Proof.
  induction 1 as [|out q' n' Hord IH Hq' Hc]; intros Hin Hq Hcn.
  - inversion Hin.
  - apply elem_of_app. apply elem_of_app in Hin as [Hin|Hin].
    + left. auto.
    + apply list_elem_of_singleton in Hin as ->. left.
      rewrite Hq in Hq'. injection Hq' as <-. auto.
Qed.

Section Dfs.
Variable h : heap.
Variable rank : ptr -> nat.
Hypothesis Hclosed : closed h.
Hypothesis Hranked : ranked rank h.

Lemma dfs_post_refl R st from :
  dfs_inv h rank R st -> dfs_post h rank R st st from.
Proof.
  intros Hinv. exists []. destruct st as [seen out]. simpl.
  split; [rewrite app_nil_r; f_equal; set_solver|]. split; [intros q Hq; inversion Hq|].
  split; [intros q Hq; inversion Hq|]. exact Hinv.
Qed.

Lemma dfs_post_trans R st1 st2 st3 from1 from2 :
  dfs_post h rank R st1 st2 from1 -> dfs_post h rank R st2 st3 from2 ->
  dfs_post h rank R st1 st3 (from1 ++ from2).
Proof.
  intros (new1 & -> & Hn1 & Hr1 & Hi1) (new2 & -> & Hn2 & Hr2 & Hi2).
  simpl in *. exists (new1 ++ new2).
  split.
  { f_equal; [rewrite list_to_set_app_L; set_solver|].
    first [apply app_assoc | symmetry; apply app_assoc]. }
  split.
  - intros q Hq. apply elem_of_app in Hq as [Hq|Hq]; [auto|].
    specialize (Hn2 q Hq). set_solver.
  - split; [|exact Hi2]. intros q Hq. apply elem_of_app in Hq as [Hq|Hq].
    + destruct (Hr1 q Hq) as (r & Hr & Hreach). exists r. split; [set_solver|done].
    + destruct (Hr2 q Hq) as (r & Hr & Hreach). exists r. split; [set_solver|done].
Qed.

Lemma dfs_visit_spec fuel : forall p st R,
  dfs_inv h rank R st -> p ∉ st.1 -> is_Some (h !! p) ->
  (rank p < R)%nat -> (rank p < fuel)%nat ->
  exists st', dfs_visit fuel h st p = Some st' /\
              dfs_post h rank R st st' [p] /\ p ∈ st'.2.
Proof.
  induction fuel as [|fuel IH]; intros p st R Hinv Hp [n Hn] HR Hfuel; [lia|].
  simpl. rewrite Hn. simpl.
  assert (Hloop : forall cs st0,
             dfs_inv h rank (rank p) st0 ->
             (forall c, c ∈ cs -> c ∈ _nodes n) ->
             exists st', foldlM (fun st child => if decide (child ∈ st.1) then Some st
                                      else dfs_visit fuel h st child) cs st0 = Some st' /\
                         dfs_post h rank (rank p) st0 st' cs /\
                         (forall c, c ∈ cs -> c ∈ st'.2)).
  { induction cs as [|c cs IHcs]; intros st0 Hinv0 Hcs.
    - exists st0. split; [reflexivity|]. split; [apply dfs_post_refl; done|].
      intros c Hc. inversion Hc.
    - simpl.
      assert (Hcn : c ∈ _nodes n) by (apply Hcs; left).
      assert (Hrc : (rank c < rank p)%nat) by (eapply Hranked; eauto).
      destruct (decide (c ∈ st0.1)) as [Hseen|Hnew].
      + simpl. destruct (IHcs st0 Hinv0) as (st' & Hrun & Hpost & Hall).
        { intros c' Hc'. apply Hcs. right. done. }
        exists st'. split; [done|]. split.
        * destruct Hpost as (new & -> & H1 & H2 & H3). exists new.
          split; [done|]. split; [done|]. split; [|done].
          intros q Hq. destruct (H2 q Hq) as (r & Hr & Hreach).
          exists r. split; [right; done|done].
        * intros c' Hc'. apply elem_of_cons in Hc' as [->|Hc']; [|auto].
          destruct Hpost as (new & -> & _). simpl. apply elem_of_app. left.
          destruct Hinv0 as (_ & _ & _ & H4). auto.
      + destruct (IH c st0 (rank p) Hinv0 Hnew) as (st1 & Hrun1 & Hpost1 & Hc1);
          [eapply Hclosed; eauto|lia|lia|].
        rewrite Hrun1. simpl.
        assert (Hinv1 : dfs_inv h rank (rank p) st1).
        { destruct Hpost1 as (new & _ & _ & _ & Hi). exact Hi. }
        destruct (IHcs st1 Hinv1) as (st' & Hrun & Hpost & Hall).
        { intros c' Hc'. apply Hcs. right. done. }
        exists st'. split; [done|]. split.
        * change (c :: cs) with ([c] ++ cs). eapply dfs_post_trans; eauto.
        * intros c' Hc'. apply elem_of_cons in Hc' as [->|Hc']; [|auto].
          destruct Hpost as (new & -> & _). simpl. apply elem_of_app. left. done. }
  destruct st as [seen out]. simpl in *.
  destruct Hinv as (Hi1 & Hi2 & Hi3 & Hi4).
  destruct (Hloop (_nodes n) ({[p]} ∪ seen, out)) as (st' & Hrun & Hpost & Hall).
  { repeat split; simpl.
    - intros q Hq. set_solver.
    - done.
    - done.
    - intros s Hs Hrs. apply Hi4; [|lia].
      apply elem_of_union in Hs as [Hs|Hs]; [|done].
      apply elem_of_singleton in Hs as ->. lia. }
  { auto. }
  rewrite Hrun. simpl. eexists. split; [reflexivity|].
  destruct Hpost as (new & -> & Hn1 & Hn2 & (Hj1 & Hj2 & Hj3 & Hj4)). simpl in *.
  split; [|set_solver].
  exists (new ++ [p]). simpl. split.
  { f_equal; [rewrite list_to_set_app_L; set_solver|].
    first [apply app_assoc | symmetry; apply app_assoc]. }
  split.
  { intros q Hq. apply elem_of_app in Hq as [Hq|Hq].
    - specialize (Hn1 q Hq). set_solver.
    - apply list_elem_of_singleton in Hq as ->. done. }
  split.
  { intros q Hq. exists p. split; [left|].
    apply elem_of_app in Hq as [Hq|Hq].
    - destruct (Hn2 q Hq) as (r & Hr & Hreach).
      clear -Hreach Hr Hn. induction Hreach as [r' Hr'|].
      + apply list_elem_of_singleton in Hr' as ->.
        eapply reach_child; [apply reach_root; left|exact Hn|exact Hr].
      + eapply reach_child; eauto.
    - apply list_elem_of_singleton in Hq as ->. apply reach_root. left. }
  repeat split; simpl.
  - intros q Hq. apply elem_of_app in Hq as [Hq|Hq]; [auto|].
    apply list_elem_of_singleton in Hq as ->. set_solver.
  - apply NoDup_app. split; [done|]. split; [|apply NoDup_singleton].
    intros q Hq Hq2. apply list_elem_of_singleton in Hq2 as ->.
    apply elem_of_app in Hq as [Hq|Hq].
    + apply Hp. auto.
    + apply (Hn1 p Hq). set_solver.
  - eapply ordered_snoc; eauto.
  - intros s Hs Hrs.
    destruct (decide (s = p)) as [->|Hne]; [set_solver|].
    apply elem_of_app. left.
    apply elem_of_union in Hs as [Hs|Hs].
    + apply elem_of_union in Hs as [Hs|Hs]; [set_solver|].
      apply elem_of_app. left. auto.
    + apply elem_of_app. right. apply elem_of_list_to_set in Hs. done.
Qed.
End Dfs.

Lemma reachable_mono h nodes nodes' p :
  (forall r, r ∈ nodes -> r ∈ nodes') -> reachable h nodes p -> reachable h nodes' p.
Proof.
  intros Hsub. induction 1; [apply reach_root; auto|eapply reach_child; eauto].
Qed.

Lemma dfs_on_close_spec h rank fuel nodes :
  closed h -> ranked rank h ->
  (forall r, r ∈ nodes -> is_Some (h !! r) /\ (rank r < fuel)%nat) ->
  exists out, dfs_on_close fuel h nodes = Some out /\
    NoDup out /\ ordered h out /\ (forall p, p ∈ out <-> reachable h nodes p).
Proof.
  intros Hclosed Hranked Hroots. unfold dfs_on_close.
  assert (Hloop : forall rs st0,
             dfs_inv h rank fuel st0 ->
             (forall r, r ∈ rs -> r ∈ nodes) ->
             exists st', foldlM (fun st root => if decide (root ∈ st.1) then Some st
                                      else dfs_visit fuel h st root) rs st0 = Some st' /\
                         dfs_post h rank fuel st0 st' rs /\
                         (forall r, r ∈ rs -> r ∈ st'.2)).
  { induction rs as [|c cs IHcs]; intros st0 Hinv0 Hcs.
    - exists st0. split; [reflexivity|]. split; [apply dfs_post_refl; done|].
      intros c Hc. inversion Hc.
    - simpl.
      destruct (Hroots c) as [Hc Hrc]; [apply Hcs; left|].
      destruct (decide (c ∈ st0.1)) as [Hseen|Hnew].
      + simpl. destruct (IHcs st0 Hinv0) as (st' & Hrun & Hpost & Hall).
        { intros c' Hc'. apply Hcs. right. done. }
        exists st'. split; [done|]. split.
        * destruct Hpost as (new & -> & H1 & H2 & H3). exists new.
          split; [done|]. split; [done|]. split; [|done].
          intros q Hq. destruct (H2 q Hq) as (r & Hr & Hreach).
          exists r. split; [right; done|done].
        * intros c' Hc'. apply elem_of_cons in Hc' as [->|Hc']; [|auto].
          destruct Hpost as (new & -> & _). simpl. apply elem_of_app. left.
          destruct Hinv0 as (_ & _ & _ & H4). auto.
      + destruct (dfs_visit_spec h rank Hclosed Hranked fuel c st0 fuel Hinv0 Hnew)
          as (st1 & Hrun1 & Hpost1 & Hc1); [done|lia|lia|].
        rewrite Hrun1. simpl.
        assert (Hinv1 : dfs_inv h rank fuel st1).
        { destruct Hpost1 as (new & _ & _ & _ & Hi). exact Hi. }
        destruct (IHcs st1 Hinv1) as (st' & Hrun & Hpost & Hall).
        { intros c' Hc'. apply Hcs. right. done. }
        exists st'. split; [done|]. split.
        * change (c :: cs) with ([c] ++ cs). eapply dfs_post_trans; eauto.
        * intros c' Hc'. apply elem_of_cons in Hc' as [->|Hc']; [|auto].
          destruct Hpost as (new & -> & _). simpl. apply elem_of_app. left. done. }
  destruct (Hloop nodes (∅, [])) as (st' & Hrun & Hpost & Hall).
  { repeat split; simpl; [intros q Hq; inversion Hq|apply NoDup_nil_2|constructor|set_solver]. }
  { auto. }
  rewrite Hrun. simpl. exists st'.2. split; [done|].
  destruct Hpost as (new & -> & Hn1 & Hn2 & (Hj1 & Hj2 & Hj3 & Hj4)). simpl in *.
  split; [done|]. split; [done|].
  intros p. split.
  - intros Hp. destruct (Hn2 p Hp) as (r & Hr & Hreach).
    eapply reachable_mono; [|exact Hreach].
    intros r' Hr'. apply list_elem_of_singleton in Hr' as ->. done.
  - induction 1 as [r Hr|p n c Hreach IH Hn Hc]; [auto|].
    eapply ordered_children; eauto.
Qed.

Section BottomUp.
Variable F : heap -> list ptr -> option Z.
Variable upd : Z -> SEGNode -> SEGNode.
Hypothesis F_local : forall (h h' : heap) cs,
  (forall c, c ∈ cs -> h !! c = h' !! c) -> F h cs = F h' cs.
Hypothesis F_total : forall (h : heap) cs,
  (forall c, c ∈ cs -> is_Some (h !! c)) -> is_Some (F h cs).

Lemma bottom_up out (h : heap) :
  ordered h out -> NoDup out ->
  exists h' : heap, foldlM (step F upd) out h = Some h' /\
    (forall q, q ∉ out -> h' !! q = h !! q) /\
    (forall q, q ∈ out -> exists n v,
        h !! q = Some n /\ F h' (_nodes n) = Some v /\ h' !! q = Some (upd v n)).
Proof.
  induction 1 as [|out q n Hord IH Hq Hc]; intros Hnd.
  - exists h. split; [reflexivity|]. split; [done|]. intros q Hq. inversion Hq.
  - apply NoDup_app in Hnd as (Hnd & Hdisj & _).
    assert (Hqout : q ∉ out).
    { intros Hin. apply (Hdisj q Hin). left. }
    destruct (IH Hnd) as (h1 & Hrun & Hout & Hin).
    rewrite foldlM_app, Hrun. simpl. unfold step at 1.
    rewrite (Hout q Hqout), Hq. simpl.
    destruct (F_total h1 (_nodes n)) as [v Hv].
    { intros c Hcn. destruct (Hin c (Hc c Hcn)) as (? & ? & _ & _ & ->). eauto. }
    rewrite Hv. simpl. eexists. split; [reflexivity|].
    assert (Hstable : forall n' q', h !! q' = Some n' -> q' ∈ out ++ [q] ->
               F (<[q := upd v n]> h1) (_nodes n') = F h1 (_nodes n')).
    { intros n' q' Hq' Hin'. apply F_local. intros c Hcn.
      rewrite lookup_insert_ne; [done|]. intros <-.
      apply Hqout. apply elem_of_app in Hin' as [Hin'|Hin'].
      - eapply ordered_children; eauto.
      - apply list_elem_of_singleton in Hin' as ->.
        rewrite Hq in Hq'. injection Hq' as <-. auto. }
    split.
    + intros q' Hq'. rewrite lookup_insert_ne; [|set_solver]. apply Hout. set_solver.
    + intros q' Hq'. destruct (decide (q' = q)) as [->|Hne].
      * exists n, v. split; [done|]. rewrite lookup_insert_eq. split; [|done].
        rewrite (Hstable n q); [done|done|set_solver].
      * assert (Hq'out : q' ∈ out) by set_solver.
        destruct (Hin q' Hq'out) as (n' & v' & Hn' & HF & Hl).
        exists n', v'. split; [done|]. rewrite lookup_insert_ne by done.
        split; [|done]. rewrite (Hstable n' q'); done.
Qed.
End BottomUp.

Lemma inline_cost_acc_sum (h : heap) cs a :
  (forall c, c ∈ cs -> is_Some (h !! c)) ->
  foldlM (inline_cost_acc h) cs a = Some (a + sum_over (child_inline_cost h) cs).
Proof.
  revert a. induction cs as [|c cs IH]; intros a Hcs; simpl.
  - f_equal. lia.
  - destruct (Hcs c) as [n Hn]; [left|].
    assert (Hstep : inline_cost_acc h a c
                    = Some (if fd n then a + 1 else a + inline_cost n))
      by (unfold inline_cost_acc; rewrite Hn; reflexivity).
    rewrite Hstep. simpl.
    rewrite IH by (intros; apply Hcs; right; done).
    assert (Hc : child_inline_cost h c = if fd n then 1 else inline_cost n)
      by (unfold child_inline_cost; rewrite Hn; reflexivity).
    rewrite Hc. f_equal. destruct (fd n); lia.
Qed.

Lemma subtree_count_acc_sum (h : heap) cs a :
  (forall c, c ∈ cs -> is_Some (h !! c)) ->
  foldlM (subtree_count_acc h) cs a = Some (a + sum_over (child_subtree_count h) cs).
Proof.
  revert a. induction cs as [|c cs IH]; intros a Hcs; simpl.
  - f_equal. lia.
  - destruct (Hcs c) as [n Hn]; [left|].
    assert (Hstep : subtree_count_acc h a c = Some (a + subtree_count n))
      by (unfold subtree_count_acc; rewrite Hn; reflexivity).
    rewrite Hstep. simpl.
    rewrite IH by (intros; apply Hcs; right; done).
    assert (Hc : child_subtree_count h c = subtree_count n)
      by (unfold child_subtree_count; rewrite Hn; reflexivity).
    rewrite Hc. f_equal. lia.
Qed.

Lemma foldlM_acc_local {A} (g : heap -> A -> ptr -> option A) (h h' : heap) cs a :
  (forall c a, h !! c = h' !! c -> g h a c = g h' a c) ->
  (forall c, c ∈ cs -> h !! c = h' !! c) ->
  foldlM (g h) cs a = foldlM (g h') cs a.
Proof.
  intros Hg. revert a. induction cs as [|c cs IH]; intros a Hcs; simpl; [done|].
  rewrite (Hg c a) by (apply Hcs; left).
  destruct (g h' a c); simpl; [|done]. apply IH. intros; apply Hcs; right; done.
Qed.

Lemma foldlM_acc_total {A} (g : heap -> A -> ptr -> option A) (h : heap) cs a :
  (forall c a, is_Some (h !! c) -> is_Some (g h a c)) ->
  (forall c, c ∈ cs -> is_Some (h !! c)) ->
  is_Some (foldlM (g h) cs a).
Proof.
  intros Hg. revert a. induction cs as [|c cs IH]; intros a Hcs; simpl; [eauto|].
  destruct (Hg c a) as [a' ->]; [apply Hcs; left|]. simpl.
  apply IH. intros; apply Hcs; right; done.
Qed.

Lemma cost_step_is_step :
  cost_step = step (fun (h : heap) cs => foldlM (inline_cost_acc h) cs 1) cost_upd.
Proof. reflexivity. Qed.

Lemma count_step_is_step :
  count_step = step (fun (h : heap) cs => foldlM (subtree_count_acc h) cs 1) set_subtree_count.
Proof. reflexivity. Qed.

Lemma same_graph_closed h h' : same_graph h h' -> closed h -> closed h'.
Proof.
  intros Hs Hc p n c Hp Hcn.
  assert (H1 := Hs p). rewrite Hp in H1. simpl in H1.
  destruct (h !! p) as [n0|] eqn:Hp0; [|discriminate]. simpl in H1.
  injection H1 as H1. rewrite <- H1 in Hcn.
  destruct (Hc p n0 c Hp0 Hcn) as [nc Hnc].
  assert (H2 := Hs c). rewrite Hnc in H2. simpl in H2.
  destruct (h' !! c); [eauto|discriminate].
Qed.

Lemma same_graph_ranked rank h h' : same_graph h h' -> ranked rank h -> ranked rank h'.
Proof.
  intros Hs Hr p n c Hp Hcn.
  assert (H1 := Hs p). rewrite Hp in H1. simpl in H1.
  destruct (h !! p) as [n0|] eqn:Hp0; [|discriminate]. simpl in H1.
  injection H1 as H1. rewrite <- H1 in Hcn. eapply Hr; eauto.
Qed.

Lemma same_graph_reachable h h' nodes p :
  same_graph h h' -> reachable h nodes p -> reachable h' nodes p.
Proof.
  intros Hs. induction 1 as [r Hr|p n c Hreach IH Hn Hc]; [apply reach_root; done|].
  assert (H1 := Hs p). rewrite Hn in H1. simpl in H1.
  destruct (h' !! p) as [n'|] eqn:Hp'; [|discriminate]. simpl in H1.
  injection H1 as H1. eapply reach_child; [exact IH|exact Hp'|]. rewrite <- H1. done.
Qed.

Lemma same_graph_is_Some h h' p : same_graph h h' -> is_Some (h !! p) -> is_Some (h' !! p).
Proof.
  intros Hs [n Hn]. assert (H1 := Hs p). rewrite Hn in H1. simpl in H1.
  destruct (h' !! p); [eauto|discriminate].
Qed.

Lemma bottom_up_same_graph (F : heap -> list ptr -> option Z)
      (upd : Z -> SEGNode -> SEGNode) (out : list ptr) (h h' : heap) :
  (forall v n, _nodes (upd v n) = _nodes n) ->
  (forall q, q ∉ out -> h' !! q = h !! q) ->
  (forall q, q ∈ out -> exists n v,
        h !! q = Some n /\ F h' (_nodes n) = Some v /\ h' !! q = Some (upd v n)) ->
  same_graph h h'.
Proof.
  intros Hupd Hout Hin p. destruct (decide (p ∈ out)) as [Hp|Hp].
  - destruct (Hin p Hp) as (n & v & -> & _ & ->). simpl. by rewrite Hupd.
  - by rewrite Hout.
Qed.

Lemma calculate_costs_equations (rank : ptr -> nat) (fuel : nat) (nodes : list ptr)
        (h : heap) :
  closed h -> ranked rank h ->
  (forall r, r ∈ nodes -> is_Some (h !! r) /\ (rank r < fuel)%nat) ->
  (forall p n, h !! p = Some n -> fd n = false) ->
  exists h' : heap, calculate_costs fuel nodes h = Some h' /\
    forall p, reachable h nodes p ->
      exists n0 n, h !! p = Some n0 /\ h' !! p = Some n /\
        _nodes n = _nodes n0 /\ isRoot n = isRoot n0 /\
        inline_cost n = 1 + sum_over (child_inline_cost h') (_nodes n) /\
        fd n = (2 <=? inline_cost n) || isRoot n /\
        subtree_count n = 1 + sum_over (child_subtree_count h') (_nodes n) /\
        (_nodes n = [] -> inline_cost n = 1 /\ subtree_count n = 1).
Proof.
  intros Hclosed Hranked Hroots Hfd. unfold calculate_costs.
  destruct (dfs_on_close_spec h rank fuel nodes Hclosed Hranked Hroots)
    as (out1 & -> & Hnd1 & Hord1 & Hmem1). simpl.
  rewrite cost_step_is_step.
  destruct (bottom_up (fun h cs => foldlM (inline_cost_acc h) cs 1) cost_upd)
    with (out := out1) (h := h) as (h1 & -> & Hout1 & Hin1); [| |done|done|].
  { intros ha hb cs Hcs. apply foldlM_acc_local; [|done].
    intros c a Hc. unfold inline_cost_acc. by rewrite Hc. }
  { intros ha cs Hcs. apply foldlM_acc_total; [|done].
    intros c a [n Hn]. unfold inline_cost_acc. rewrite Hn. simpl. eauto. }
  simpl.
  assert (Hsame1 : same_graph h h1).
  { eapply (bottom_up_same_graph (fun h cs => foldlM (inline_cost_acc h) cs 1));
      [|exact Hout1|exact Hin1].
    intros v n. unfold cost_upd. by destruct (_ || _). }
  assert (Hclosed1 := same_graph_closed _ _ Hsame1 Hclosed).
  assert (Hranked1 := same_graph_ranked _ _ _ Hsame1 Hranked).
  destruct (dfs_on_close_spec h1 rank fuel nodes Hclosed1 Hranked1)
    as (out2 & -> & Hnd2 & Hord2 & Hmem2).
  { intros r Hr. destruct (Hroots r Hr). split; [|done].
    eapply same_graph_is_Some; eauto. }
  simpl. rewrite count_step_is_step.
  destruct (bottom_up (fun h cs => foldlM (subtree_count_acc h) cs 1) set_subtree_count)
    with (out := out2) (h := h1) as (h2 & -> & Hout2 & Hin2); [| |done|done|].
  { intros ha hb cs Hcs. apply foldlM_acc_local; [|done].
    intros c a Hc. unfold subtree_count_acc. by rewrite Hc. }
  { intros ha cs Hcs. apply foldlM_acc_total; [|done].
    intros c a [n Hn]. unfold subtree_count_acc. rewrite Hn. simpl. eauto. }
  exists h2. split; [done|].
  assert (Hsame2 : same_graph h1 h2).
  { eapply (bottom_up_same_graph (fun h cs => foldlM (subtree_count_acc h) cs 1));
      [|exact Hout2|exact Hin2]. done. }
  assert (Hcost12 : forall c, child_inline_cost h2 c = child_inline_cost h1 c).
  { intros c. unfold child_inline_cost. destruct (decide (c ∈ out2)) as [Hc|Hc].
    - destruct (Hin2 c Hc) as (n & v & -> & _ & ->). done.
    - by rewrite Hout2. }
  intros p Hp.
  assert (Hp1 : p ∈ out1) by (by apply Hmem1).
  assert (Hp2 : p ∈ out2) by (apply Hmem2; eapply same_graph_reachable; eauto).
  destruct (Hin1 p Hp1) as (n0 & v & Hn0 & Hv & Hn1).
  destruct (Hin2 p Hp2) as (n1 & w & Hn1' & Hw & Hn2).
  rewrite Hn1 in Hn1'. injection Hn1' as <-.
  assert (Hnodes : _nodes (cost_upd v n0) = _nodes n0).
  { unfold cost_upd. by destruct (_ || _). }
  rewrite Hnodes in Hw.
  rewrite inline_cost_acc_sum in Hv; [|intros c Hc; eapply Hclosed1; eauto; by rewrite Hnodes].
  rewrite subtree_count_acc_sum in Hw;
    [|intros c Hc; eapply same_graph_is_Some; [exact Hsame2|];
      eapply Hclosed1; eauto; by rewrite Hnodes].
  injection Hv as <-. injection Hw as <-.
  exists n0, (set_subtree_count (1 + sum_over (child_subtree_count h2) (_nodes n0))
                (cost_upd (1 + sum_over (child_inline_cost h1) (_nodes n0)) n0)).
  split; [done|]. split; [done|].
  assert (Hsum : sum_over (child_inline_cost h2) (_nodes n0)
                 = sum_over (child_inline_cost h1) (_nodes n0)).
  { clear -Hcost12. induction (_nodes n0) as [|c cs IH]; simpl; [done|].
    by rewrite Hcost12, IH. }
  specialize (Hfd p n0 Hn0).
  unfold cost_upd. simpl.
  destruct ((2 <=? 1 + sum_over (child_inline_cost h1) (_nodes n0)) || isRoot n0) eqn:Hcond;
    simpl; rewrite Hsum, ?Hcond, ?Hfd;
    (split; [done|]); (split; [done|]); (split; [done|]); (split; [done|]);
    (split; [done|]); intros Hnil; rewrite Hnil; done.
Qed.

(** *** The counts stay in [int] *)

Lemma sum_over_ext (f g : ptr -> Z) cs :
  (forall c, c ∈ cs -> f c = g c) -> sum_over f cs = sum_over g cs.
Proof.
  induction cs as [|c cs IH]; intros H; simpl; [done|].
  rewrite H by left. rewrite IH by (intros; apply H; by right). done.
Qed.

Lemma sum_over_mono (f g : ptr -> Z) cs :
  (forall c, c ∈ cs -> f c <= g c) -> sum_over f cs <= sum_over g cs.
Proof.
  induction cs as [|c cs IH]; intros H; simpl; [lia|].
  assert (f c <= g c) by (apply H; left).
  assert (sum_over f cs <= sum_over g cs) by (apply IH; intros; apply H; by right).
  lia.
Qed.

Lemma sum_over_elem (f : ptr -> Z) cs c :
  (forall c', c' ∈ cs -> 0 <= f c') -> c ∈ cs -> f c <= sum_over f cs.
Proof.
  induction cs as [|c0 cs IH]; intros Hpos Hc; [inversion Hc|]. simpl.
  assert (0 <= f c0) by (apply Hpos; left).
  assert (0 <= sum_over f cs).
  { clear -Hpos. induction cs as [|c1 cs IH]; simpl; [lia|].
    assert (0 <= f c1) by (apply Hpos; right; left).
    assert (0 <= sum_over f cs); [|lia].
    apply IH. intros c' Hc'. apply Hpos.
    apply elem_of_cons in Hc' as [->|Hc']; [left|right; by right]. }
  apply elem_of_cons in Hc as [->|Hc]; [lia|].
  assert (f c <= sum_over f cs); [|lia].
  apply IH; [|done]. intros c' Hc'. apply Hpos. by right.
Qed.

Lemma tree_size_nonneg fuel (h : heap) p : 0 <= tree_size fuel h p.
Proof.
  revert p. induction fuel as [|fuel IH]; intros p; simpl; [lia|].
  destruct (h !! p) as [n|]; [|lia].
  assert (0 <= sum_over (tree_size fuel h) (_nodes n)); [|lia].
  induction (_nodes n) as [|c cs IHcs]; simpl; [lia|]. specialize (IH c). lia.
Qed.

Lemma tree_size_fuel rank (h : heap) f1 : forall f2 p,
  ranked rank h -> (rank p < f1)%nat -> (rank p < f2)%nat ->
  tree_size f1 h p = tree_size f2 h p.
Proof.
  induction f1 as [|f1 IH]; intros f2 p Hranked H1 H2; [lia|].
  destruct f2 as [|f2]; [lia|]. simpl.
  destruct (h !! p) as [n|] eqn:Hp; [|done]. f_equal.
  apply sum_over_ext. intros c Hc. pose proof (Hranked p n c Hp Hc).
  apply IH; [done|lia|lia].
Qed.

Lemma tree_size_child rank fuel (h : heap) p n c :
  ranked rank h -> (rank p < fuel)%nat -> h !! p = Some n -> c ∈ _nodes n ->
  tree_size fuel h c <= tree_size fuel h p.
Proof.
  intros Hranked Hfuel Hp Hc. destruct fuel as [|f]; [lia|].
  assert (Hrc := Hranked p n c Hp Hc).
  rewrite (tree_size_fuel rank h (S f) f c) by (done || lia).
  simpl. rewrite Hp.
  assert (tree_size f h c <= sum_over (tree_size f h) (_nodes n)); [|lia].
  apply sum_over_elem; [|done]. intros. apply tree_size_nonneg.
Qed.

Lemma reachable_below rank fuel (h : heap) nodes p :
  ranked rank h -> (forall r, r ∈ nodes -> (rank r < fuel)%nat) ->
  reachable h nodes p ->
  (rank p < fuel)%nat /\
  exists r, r ∈ nodes /\ tree_size fuel h p <= tree_size fuel h r.
Proof.
  intros Hranked Hroots. induction 1 as [r Hr|p n c Hreach [IHr (r & Hr & IH)] Hn Hc].
  - split; [auto|]. exists r. split; [done|lia].
  - assert (Hrc := Hranked p n c Hn Hc). split; [lia|].
    exists r. split; [done|].
    assert (tree_size fuel h c <= tree_size fuel h p)
      by (eapply tree_size_child; eauto).
    lia.
Qed.

(** C5.  After [calculate_costs], on a store where child pointers are valid
    and acyclic, [fd] is still unset and the trees below the nodes have at
    most [INT_MAX] nodes (so that no [int] sum of the source overflows),
    every node [n] of the graph has
    [inline_cost n = 1 + Σ (child.fd ? 1 : child.inline_cost)],
    [fd n = (inline_cost n >= 2) || isRoot n] and
    [subtree_count n = 1 + Σ child.subtree_count]; a childless node has
    [inline_cost = 1] and [subtree_count = 1].  [subtree_count] is the size
    of the tree below the node, and both counts lie between 1 and
    [INT_MAX]. *)
Theorem calculate_costs_spec (rank : ptr -> nat) (fuel : nat) (nodes : list ptr)
        (h : heap) :
  closed h -> ranked rank h ->
  (forall r, r ∈ nodes -> is_Some (h !! r) /\ (rank r < fuel)%nat) ->
  (forall p n, h !! p = Some n -> fd n = false) ->
  (forall r, r ∈ nodes -> tree_size fuel h r <= INT_MAX) ->
  exists h' : heap, calculate_costs fuel nodes h = Some h' /\
    forall p, reachable h nodes p ->
      exists n0 n, h !! p = Some n0 /\ h' !! p = Some n /\
        _nodes n = _nodes n0 /\ isRoot n = isRoot n0 /\
        inline_cost n = 1 + sum_over (child_inline_cost h') (_nodes n) /\
        fd n = (2 <=? inline_cost n) || isRoot n /\
        subtree_count n = 1 + sum_over (child_subtree_count h') (_nodes n) /\
        (_nodes n = [] -> inline_cost n = 1 /\ subtree_count n = 1) /\
        subtree_count n = tree_size fuel h p /\
        1 <= inline_cost n <= subtree_count n /\
        subtree_count n <= INT_MAX.
Proof.
  intros Hclosed Hranked Hroots Hfd Hbound.
  destruct (calculate_costs_equations rank fuel nodes h Hclosed Hranked Hroots Hfd)
    as (h' & Hrun & Heq).
  exists h'. split; [exact Hrun|].
  assert (Hrk : forall r, r ∈ nodes -> (rank r < fuel)%nat)
    by (intros r Hr; apply Hroots, Hr).
  assert (Hind : forall k p, (rank p < k)%nat -> reachable h nodes p ->
             exists n, h' !! p = Some n /\
               subtree_count n = tree_size fuel h p /\
               1 <= inline_cost n <= subtree_count n).
  { induction k as [|k IH]; intros p Hk Hp; [lia|].
    destruct (Heq p Hp) as (n0 & n & Hn0 & Hn & Hnodes & _ & Hic & _ & Hsc & _).
    exists n. split; [done|].
    destruct (reachable_below rank fuel h nodes p Hranked Hrk Hp) as [Hpf _].
    assert (Hchild : forall c, c ∈ _nodes n ->
               child_subtree_count h' c = tree_size fuel h c /\
               1 <= child_inline_cost h' c <= child_subtree_count h' c).
    { intros c Hc. rewrite Hnodes in Hc.
      assert (Hrc := Hranked p n0 c Hn0 Hc).
      destruct (IH c) as (nc & Hnc & Hsz & Hrange); [lia|eapply reach_child; eauto|].
      unfold child_subtree_count, child_inline_cost. rewrite Hnc.
      split; [done|]. destruct (fd nc); lia. }
    assert (Hsize : subtree_count n = tree_size fuel h p).
    { rewrite Hsc. destruct fuel as [|f]; [lia|]. simpl. rewrite Hn0, <- Hnodes.
      f_equal. apply sum_over_ext. intros c Hc.
      destruct (Hchild c Hc) as [-> _]. rewrite Hnodes in Hc.
      assert (Hrc := Hranked p n0 c Hn0 Hc).
      apply (tree_size_fuel rank); [done|lia|lia]. }
    split; [done|].
    assert (Hle : sum_over (child_inline_cost h') (_nodes n)
                  <= sum_over (child_subtree_count h') (_nodes n)).
    { apply sum_over_mono. intros c Hc. destruct (Hchild c Hc) as [_ ?]. lia. }
    assert (Hpos : 0 <= sum_over (child_inline_cost h') (_nodes n)).
    { clear -Hchild. induction (_nodes n) as [|c cs IHcs]; simpl; [lia|].
      destruct (Hchild c) as [_ ?]; [left|].
      assert (0 <= sum_over (child_inline_cost h') cs); [|lia].
      apply IHcs. intros c' Hc'. apply Hchild. by right. }
    lia. }
  intros p Hp. destruct (Heq p Hp) as (n0 & n & Hn0 & Hn & H1 & H2 & H3 & H4 & H5 & H6).
  exists n0, n. do 8 (split; [done|]).
  destruct (reachable_below rank fuel h nodes p Hranked Hrk Hp) as (Hpf & r & Hr & Hle).
  destruct (Hind (S (rank p)) p) as (n' & Hn' & Hsize & Hrange); [lia|done|].
  rewrite Hn in Hn'. injection Hn' as <-.
  split; [done|]. split; [done|]. specialize (Hbound r Hr). lia.
Qed.

(** ** Checking a concrete store *)

Lemma closed_by_check (h : heap) :
  map_Forall (fun _ n => Forall (fun c => is_Some (h !! c)) (_nodes n)) h ->
  closed h.
Proof.
  intros H p n c Hp Hc. specialize (H p n Hp). simpl in H.
  rewrite Forall_forall in H. auto.
Qed.

Lemma ranked_by_check rank (h : heap) :
  map_Forall (fun p n => Forall (fun c => (rank c < rank p)%nat) (_nodes n)) h ->
  ranked rank h.
Proof.
  intros H p n c Hp Hc. specialize (H p n Hp). simpl in H.
  rewrite Forall_forall in H. auto.
Qed.

Lemma example_heap_closed : closed example_heap.
Proof. apply closed_by_check. apply (bool_decide_unpack _). vm_compute. exact I. Qed.

Lemma example_heap_ranked : ranked example_rank example_heap.
Proof. apply ranked_by_check. apply (bool_decide_unpack _). vm_compute. exact I. Qed.

Lemma example_heap_fd p n : example_heap !! p = Some n -> fd n = false.
Proof.
  assert (H : map_Forall (fun _ n => fd n = false) example_heap).
  { apply (bool_decide_unpack _). vm_compute. exact I. }
  apply H.
Qed.

Lemma example_nodes_live r :
  r ∈ example_nodes -> is_Some (example_heap !! r) /\ (example_rank r < 5)%nat.
Proof.
  assert (H : Forall (fun r => is_Some (example_heap !! r)
                               /\ (example_rank r < 5)%nat) example_nodes).
  { apply (bool_decide_unpack _). vm_compute. exact I. }
  rewrite Forall_forall in H. apply H.
Qed.

Lemma example_nodes_small r :
  r ∈ example_nodes -> tree_size 5 example_heap r <= INT_MAX.
Proof.
  assert (H : Forall (fun r => tree_size 5 example_heap r <= INT_MAX) example_nodes).
  { apply (bool_decide_unpack _). vm_compute. exact I. }
  rewrite Forall_forall in H. apply H.
Qed.

Lemma calculate_costs_spec_witness :
  exists h' : heap, calculate_costs 5 example_nodes example_heap = Some h' /\
    forall p, reachable example_heap example_nodes p ->
      exists n0 n, example_heap !! p = Some n0 /\ h' !! p = Some n /\
        _nodes n = _nodes n0 /\ isRoot n = isRoot n0 /\
        inline_cost n = 1 + sum_over (child_inline_cost h') (_nodes n) /\
        fd n = (2 <=? inline_cost n) || isRoot n /\
        subtree_count n = 1 + sum_over (child_subtree_count h') (_nodes n) /\
        (_nodes n = [] -> inline_cost n = 1 /\ subtree_count n = 1) /\
        subtree_count n = tree_size 5 example_heap p /\
        1 <= inline_cost n <= subtree_count n /\
        subtree_count n <= INT_MAX.
Proof.
  exact (calculate_costs_spec example_rank 5 example_nodes example_heap
           example_heap_closed example_heap_ranked example_nodes_live
           example_heap_fd example_nodes_small).
Defined.

(** ** The structural hash *)

Lemma string_app_cons x (a b : string) : String x a +:+ b = String x (a +:+ b).
Proof. reflexivity. Qed.

Lemma string_app_nil_l (b : string) : "" +:+ b = b.
Proof. reflexivity. Qed.

Lemma string_app_assoc (a b c : string) : (a +:+ b) +:+ c = a +:+ (b +:+ c).
Proof.
  induction a as [|x a IH]; [reflexivity|].
  rewrite !string_app_cons. by rewrite IH.
Qed.

Lemma string_app_nil_r (a : string) : a +:+ "" = a.
Proof.
  induction a as [|x a IH]; [reflexivity|].
  rewrite string_app_cons. by rewrite IH.
Qed.

Lemma pretty_N_go_no_bar x s : no_bar s -> no_bar (pretty_N_go x s).
Proof.
  revert s. induction (N.lt_wf_0 x) as [x _ IH]; intros s Hs.
  destruct (decide (0 < x)%N) as [Hx|Hx].
  - rewrite pretty_N_go_step by done. apply IH.
    + apply N.div_lt; [done|reflexivity].
    + split; [|done]. unfold pretty_N_char. repeat case_match; discriminate.
  - assert (x = 0%N) as -> by lia. by rewrite pretty_N_go_0.
Qed.

Lemma pretty_nat_no_bar (n : nat) : no_bar (pretty n).
Proof.
  unfold pretty, pretty_nat, pretty, pretty_N.
  case_decide; [simpl; split; [discriminate|done]|].
  apply pretty_N_go_no_bar. exact I.
Qed.

Lemma bar_split a b x y :
  no_bar a -> no_bar b -> a +:+ "|" +:+ x = b +:+ "|" +:+ y -> a = b /\ x = y.
Proof.
  revert b. induction a as [|c a IH]; intros [|d b] Ha Hb Heq;
    rewrite ?string_app_cons, ?string_app_nil_l in Heq; simpl in *.
  - injection Heq as ->. done.
  - injection Heq as <- _. destruct Hb as [Hb _]. done.
  - injection Heq as -> _. destruct Ha as [Ha _]. done.
  - injection Heq as -> Heq. destruct Ha as [_ Ha], Hb as [_ Hb].
    destruct (IH b Ha Hb Heq) as [-> ->]. done.
Qed.

Lemma foldlM_hash (g : ptr -> option string) cs acc :
  foldlM (fun ss c => s ← g c; Some (ss +:+ s)) cs acc
  = hs ← mapM g cs; Some (acc +:+ cat hs).
Proof.
  revert acc. induction cs as [|c cs IH]; intros acc; simpl.
  - by rewrite string_app_nil_r.
  - destruct (g c) as [s|]; simpl; [|done]. rewrite IH.
    destruct (mapM g cs) as [hs|]; simpl; [|done].
    by rewrite string_app_assoc.
Qed.

Lemma get_hash_S fuel (h : heap) p :
  get_hash (S fuel) h p
  = n ← h !! p; hs ← mapM (get_hash fuel h) (_nodes n);
    Some (pretty (length (_nodes n)) +:+ "|" +:+ cat hs).
Proof.
  simpl. destruct (h !! p) as [n|]; simpl; [|done].
  rewrite foldlM_hash. destruct (mapM _ _); simpl; [|done].
  by rewrite string_app_assoc.
Qed.

Lemma get_hash_inv fuel (h : heap) p s :
  get_hash fuel h p = Some s ->
  exists fuel' n hs, fuel = S fuel' /\ h !! p = Some n /\
    Forall2 (fun c s => get_hash fuel' h c = Some s) (_nodes n) hs /\
    s = pretty (length (_nodes n)) +:+ "|" +:+ cat hs.
Proof.
  destruct fuel as [|fuel]; [discriminate|]. rewrite get_hash_S.
  destruct (h !! p) as [n|]; simpl; [|discriminate].
  destruct (mapM _ _) as [hs|] eqn:Hm; simpl; [|discriminate].
  intros [= <-]. exists fuel, n, hs. apply mapM_Some in Hm. done.
Qed.

Lemma get_hash_decode f1 : forall f2 (h1 h2 : heap) p1 p2 s1 s2 r1 r2,
  get_hash f1 h1 p1 = Some s1 -> get_hash f2 h2 p2 = Some s2 ->
  s1 +:+ r1 = s2 +:+ r2 ->
  s1 = s2 /\ r1 = r2 /\ shape_iso h1 h2 p1 p2.
Proof.
  induction f1 as [|f1 IH]; intros f2 h1 h2 p1 p2 s1 s2 r1 r2 H1 H2 Heq;
    [discriminate|].
  apply get_hash_inv in H1 as (f1' & n1 & hs1 & [= <-] & Hn1 & Hc1 & ->).
  apply get_hash_inv in H2 as (f2' & n2 & hs2 & -> & Hn2 & Hc2 & ->).
  rewrite !string_app_assoc in Heq.
  apply bar_split in Heq as [Hlen Heq]; [|apply pretty_nat_no_bar..].
  apply (inj pretty) in Hlen.
  assert (Hlist : cat hs1 = cat hs2 /\ r1 = r2 /\
                  Forall2 (shape_iso h1 h2) (_nodes n1) (_nodes n2)).
  { clear Hn1 Hn2. revert Hlen Heq Hc1 Hc2.
    generalize (_nodes n1) (_nodes n2). intros cs1. revert hs1 hs2.
    induction cs1 as [|c1 cs1 IHcs]; intros hs1 hs2 [|c2 cs2] Hlen Heq Hc1 Hc2;
      try discriminate.
    - apply Forall2_nil_inv_l in Hc1 as ->. apply Forall2_nil_inv_l in Hc2 as ->.
      simpl in *. done.
    - apply Forall2_cons_inv_l in Hc1 as (s1 & hs1' & Hs1 & Hc1 & ->).
      apply Forall2_cons_inv_l in Hc2 as (s2 & hs2' & Hs2 & Hc2 & ->).
      simpl in *. rewrite !string_app_assoc in Heq.
      destruct (IH _ _ _ _ _ _ _ _ _ Hs1 Hs2 Heq) as (-> & Heq' & Hiso).
      destruct (IHcs hs1' hs2' cs2) as (-> & -> & Hall); [lia|done..|].
      split; [done|]. split; [done|]. constructor; done. }
  destruct Hlist as (-> & -> & Hall). rewrite Hlen.
  split; [done|]. split; [done|]. econstructor; eauto.
Qed.

Lemma get_hash_iso f1 : forall f2 (h1 h2 : heap) p1 p2 s1 s2,
  shape_iso h1 h2 p1 p2 ->
  get_hash f1 h1 p1 = Some s1 -> get_hash f2 h2 p2 = Some s2 -> s1 = s2.
Proof.
  induction f1 as [|f1 IH]; intros f2 h1 h2 p1 p2 s1 s2 Hiso H1 H2; [discriminate|].
  apply get_hash_inv in H1 as (f1' & n1 & hs1 & [= <-] & Hn1 & Hc1 & ->).
  apply get_hash_inv in H2 as (f2' & n2 & hs2 & -> & Hn2 & Hc2 & ->).
  inversion Hiso as [? ? n1' n2' Hn1' Hn2' Hall]; subst.
  rewrite Hn1 in Hn1'. injection Hn1' as <-.
  rewrite Hn2 in Hn2'. injection Hn2' as <-.
  rewrite (Forall2_length _ _ _ Hall). do 2 f_equal.
  clear Hn1 Hn2 Hiso. revert hs1 hs2 Hc1 Hc2.
  induction Hall as [|c1 c2 cs1 cs2 Hc Hall IHall]; intros hs1 hs2 Hc1 Hc2.
  - apply Forall2_nil_inv_l in Hc1 as ->. apply Forall2_nil_inv_l in Hc2 as ->. done.
  - apply Forall2_cons_inv_l in Hc1 as (s1 & hs1' & Hs1 & Hc1 & ->).
    apply Forall2_cons_inv_l in Hc2 as (s2 & hs2' & Hs2 & Hc2 & ->).
    simpl. rewrite (IH _ _ _ _ _ _ _ Hc Hs1 Hs2). f_equal. eauto.
Qed.

Lemma get_hash_same_graph fuel : forall (h h' : heap) p,
  same_graph h h' -> get_hash fuel h' p = get_hash fuel h p.
Proof.
  induction fuel as [|fuel IH]; intros h h' p Hs; [done|].
  rewrite !get_hash_S. assert (Hp := Hs p).
  destruct (h !! p) as [n|], (h' !! p) as [n'|]; simpl in *; try discriminate; [|done].
  injection Hp as <-.
  assert (Hm : mapM (get_hash fuel h') (_nodes n) = mapM (get_hash fuel h) (_nodes n)).
  { induction (_nodes n) as [|c cs IHcs]; simpl; [done|].
    rewrite (IH h h' c Hs), IHcs. done. }
  by rewrite Hm.
Qed.

(** C6. [get_hash] is a fingerprint of the shape: two nodes get the same
    string exactly when their child trees have the same shape, and the string
    only depends on the child lists of the store, not on [id], [isRoot],
    [valid_for_contexts] or any other field. *)
Theorem get_hash_shape_fingerprint f1 f2 (h1 h2 : heap) p1 p2 s1 s2 :
  get_hash f1 h1 p1 = Some s1 -> get_hash f2 h2 p2 = Some s2 ->
  (s1 = s2 <-> shape_iso h1 h2 p1 p2) /\
  (forall h1' : heap, same_graph h1 h1' -> get_hash f1 h1' p1 = Some s1).
Proof.
  intros H1 H2. split; [split|].
  - intros Heq. eapply (get_hash_decode f1 f2 h1 h2 p1 p2 s1 s2 "" ""); eauto.
    by rewrite Heq.
  - intros Hiso. eapply get_hash_iso; eauto.
  - intros h1' Hs. by rewrite (get_hash_same_graph f1 h1 h1' p1 Hs).
Qed.

Lemma get_hash_shape_fingerprint_witness :
  ("1|0|" = "1|0|" <-> shape_iso example_heap example_heap 2 4) /\
  (forall h1' : heap, same_graph example_heap h1' ->
                      get_hash 5 h1' 2%positive = Some "1|0|").
Proof.
  exact (get_hash_shape_fingerprint 5 5 example_heap example_heap 2 4
           "1|0|" "1|0|" eq_refl eq_refl).
Defined.

(** ** The function table *)

Local Arguments get_hash : simpl never.










Lemma get_hash_total rank fuel : forall (h : heap) p,
  closed h -> ranked rank h -> is_Some (h !! p) -> (rank p < fuel)%nat ->
  is_Some (get_hash fuel h p).
Proof.
  induction fuel as [|fuel IH]; intros h p Hc Hr [n Hn] Hlt; [lia|].
  rewrite get_hash_S, Hn. simpl.
  assert (Hm : is_Some (mapM (get_hash fuel h) (_nodes n))).
  { apply mapM_is_Some. apply Forall_forall. intros c Hin.
    apply IH; [done|done|by eapply Hc|]. specialize (Hr p n c Hn Hin). lia. }
  destruct Hm as [hs ->]. simpl. eauto.
Qed.

Lemma expr_for_node_total rank fuel : forall (h : heap) node stack max st,
  closed h -> ranked rank h -> is_Some (h !! node) -> (rank node < fuel)%nat ->
  is_Some (expr_for_node fuel h node stack max st).
Proof.
  induction fuel as [|fuel IH]; intros h node stack max st Hc Hr [n Hn] Hlt; [lia|].
  simpl. rewrite Hn. simpl.
  match goal with
  | |- context [foldlM ?f _ _] =>
    assert (Hloop : forall cs acc, (forall c, c ∈ cs -> c ∈ _nodes n) ->
                                   is_Some (foldlM f cs acc))
  end.
  { induction cs as [|c cs IHcs]; intros acc Hcs; simpl; [eauto|].
    destruct (IH h c stack max acc.2) as [rc Hrc]; [done|done| | |].
    - eapply Hc; [exact Hn|]. apply Hcs. left.
    - assert (Hin : c ∈ _nodes n) by (apply Hcs; left).
      specialize (Hr node n c Hn Hin). lia.
    - rewrite Hrc. simpl. apply IHcs. intros c' Hc'. apply Hcs. by right. }
  match goal with
  | |- context [foldlM ?f ?l0 ?a0] =>
    destruct (Hloop l0 a0) as [[[lv setup] st1] ->]; [done|]
  end.
  simpl. destruct (fd n); simpl; [|eauto].
  destruct (get_hash_total rank (S fuel) h node Hc Hr) as [key ->]; [eauto|lia|].
  simpl. destruct (func_decls st1 !! key) as [e0|] eqn:He0; simpl.
  - rewrite He0. simpl. eauto.
  - rewrite lookup_insert_eq. simpl. eauto.
Qed.


(** ** Decoder synthesis *)






(** ** Back links *)

Lemma add_child_spec (h : heap) (this child : ptr) (h' : heap) :
  add_child this child h = Some h' ->
  exists n c q,
    h !! this = Some n /\ h !! child = Some c /\
    h !! q = None /\ q <> this /\ q <> child /\
    _nodes <$> h' !! this = Some (_nodes n ++ [child]) /\
    _parents <$> h' !! child = Some (_parents c ++ [q]) /\
    h' !! q = Some (set_nodes (_nodes n ++ [child]) n) /\
    (forall m, <[this := m]> h' !! q = h' !! q).
Proof.
  unfold add_child, make_shared. intros H.
  destruct (h !! this) as [n|] eqn:Hn; simpl in H; [|discriminate].
  destruct (h !! child) as [c|] eqn:Hc; simpl in H; [|discriminate].
  rewrite lookup_insert_eq in H. simpl in H.
  set (n' := set_nodes (_nodes n ++ [child]) n) in *.
  set (h1 := <[this := n']> h) in *.
  assert (Hq : fresh (dom h1) ∉ dom h1) by apply is_fresh.
  set (q := fresh (dom h1)) in *.
  assert (Hdom : dom h1 = dom h).
  { unfold h1. rewrite dom_insert_L. apply elem_of_dom_2 in Hn. set_solver. }
  rewrite Hdom in Hq.
  assert (Hqthis : q <> this).
  { intros Heq. apply Hq. rewrite Heq. by apply elem_of_dom_2 in Hn. }
  assert (Hqchild : q <> child).
  { intros Heq. apply Hq. rewrite Heq. by apply elem_of_dom_2 in Hc. }
  assert (Hqh : h !! q = None) by (by apply not_elem_of_dom).
  rewrite lookup_insert_ne in H by done.
  exists n, c, q. do 5 (split; [done|]).
  destruct (decide (child = this)) as [->|Hne].
  - unfold h1 in H. rewrite lookup_insert_eq in H. simpl in H. injection H as <-.
    rewrite Hn in Hc. injection Hc as <-.
    rewrite lookup_insert_eq. simpl. split; [done|]. split; [done|].
    rewrite !lookup_insert_ne, lookup_insert_eq by done. split; [done|].
    intros m. rewrite !lookup_insert_ne, lookup_insert_eq by done. done.
  - unfold h1 in H. rewrite lookup_insert_ne, Hc in H by done. simpl in H.
    injection H as <-.
    rewrite lookup_insert_eq. rewrite !(lookup_insert_ne _ child this) by done.
    rewrite (lookup_insert_ne _ q this) by done. unfold h1. rewrite lookup_insert_eq.
    simpl. split; [done|]. split; [done|].
    rewrite (lookup_insert_ne _ child q), lookup_insert_eq by done. split; [done|].
    intros m. rewrite (lookup_insert_ne _ this q) by done.
    rewrite (lookup_insert_ne _ child q), lookup_insert_eq by done. done.
Qed.


Lemma add_parent_spec (h : heap) (this parent : ptr) (h' : heap) :
  add_parent this parent h = Some h' ->
  exists n p q,
    h !! this = Some n /\ h !! parent = Some p /\
    h !! q = None /\ q <> this /\ q <> parent /\
    _parents <$> h' !! this = Some (_parents n ++ [parent]) /\
    _nodes <$> h' !! parent = Some (_nodes p ++ [q]) /\
    h' !! q = Some (set_parents (_parents n ++ [parent]) n) /\
    (forall m, <[this := m]> h' !! q = h' !! q).
Proof.
  unfold add_parent, make_shared. intros H.
  destruct (h !! this) as [n|] eqn:Hn; simpl in H; [|discriminate].
  destruct (h !! parent) as [c|] eqn:Hc; simpl in H; [|discriminate].
  rewrite lookup_insert_eq in H. simpl in H.
  set (n' := set_parents (_parents n ++ [parent]) n) in *.
  set (h1 := <[this := n']> h) in *.
  assert (Hq : fresh (dom h1) ∉ dom h1) by apply is_fresh.
  set (q := fresh (dom h1)) in *.
  assert (Hdom : dom h1 = dom h).
  { unfold h1. rewrite dom_insert_L. apply elem_of_dom_2 in Hn. set_solver. }
  rewrite Hdom in Hq.
  assert (Hqthis : q <> this).
  { intros Heq. apply Hq. rewrite Heq. by apply elem_of_dom_2 in Hn. }
  assert (Hqchild : q <> parent).
  { intros Heq. apply Hq. rewrite Heq. by apply elem_of_dom_2 in Hc. }
  assert (Hqh : h !! q = None) by (by apply not_elem_of_dom).
  rewrite lookup_insert_ne in H by done.
  exists n, c, q. do 5 (split; [done|]).
  destruct (decide (parent = this)) as [->|Hne].
  - unfold h1 in H. rewrite lookup_insert_eq in H. simpl in H. injection H as <-.
    rewrite Hn in Hc. injection Hc as <-.
    rewrite lookup_insert_eq. simpl. split; [done|]. split; [done|].
    rewrite !lookup_insert_ne, lookup_insert_eq by done. split; [done|].
    intros m. rewrite !lookup_insert_ne, lookup_insert_eq by done. done.
  - unfold h1 in H. rewrite lookup_insert_ne, Hc in H by done. simpl in H.
    injection H as <-.
    rewrite lookup_insert_eq. rewrite !(lookup_insert_ne _ parent this) by done.
    rewrite (lookup_insert_ne _ q this) by done. unfold h1. rewrite lookup_insert_eq.
    simpl. split; [done|]. split; [done|].
    rewrite (lookup_insert_ne _ parent q), lookup_insert_eq by done. split; [done|].
    intros m. rewrite (lookup_insert_ne _ this q) by done.
    rewrite (lookup_insert_ne _ parent q), lookup_insert_eq by done. done.
Qed.

(** C10. [add_child] appends the child itself to the children of the node
    and a fresh copy of the node to the parents of the child; [add_parent]
    appends the parent itself to the parents of the node and a fresh copy of
    the node to the children of the parent.  The copy lives in a cell of its
    own, so writing to the node afterwards does not change what the back link
    points to. *)
Theorem back_links_are_copies (h : heap) (this other : ptr) (h1 h2 : heap) :
  add_child this other h = Some h1 ->
  add_parent this other h = Some h2 ->
  (exists n c q,
      h !! this = Some n /\ h !! other = Some c /\
      h !! q = None /\ q <> this /\ q <> other /\
      _nodes <$> h1 !! this = Some (_nodes n ++ [other]) /\
      _parents <$> h1 !! other = Some (_parents c ++ [q]) /\
      h1 !! q = Some (set_nodes (_nodes n ++ [other]) n) /\
      (forall m, <[this := m]> h1 !! q = h1 !! q)) /\
  (exists n p q,
      h !! this = Some n /\ h !! other = Some p /\
      h !! q = None /\ q <> this /\ q <> other /\
      _parents <$> h2 !! this = Some (_parents n ++ [other]) /\
      _nodes <$> h2 !! other = Some (_nodes p ++ [q]) /\
      h2 !! q = Some (set_parents (_parents n ++ [other]) n) /\
      (forall m, <[this := m]> h2 !! q = h2 !! q)).
Proof.
  intros Hc Hp. split; [exact (add_child_spec _ _ _ _ Hc)|exact (add_parent_spec _ _ _ _ Hp)].
Qed.

Lemma back_links_are_copies_witness :
  let h1 := default ∅ (add_child 2 3 example_heap) in
  let h2 := default ∅ (add_parent 2 3 example_heap) in
  (exists n c q,
      example_heap !! 2%positive = Some n /\ example_heap !! 3%positive = Some c /\
      example_heap !! q = None /\ q <> 2%positive /\ q <> 3%positive /\
      _nodes <$> h1 !! 2%positive = Some (_nodes n ++ [3%positive]) /\
      _parents <$> h1 !! 3%positive = Some (_parents c ++ [q]) /\
      h1 !! q = Some (set_nodes (_nodes n ++ [3%positive]) n) /\
      (forall m, <[2%positive := m]> h1 !! q = h1 !! q)) /\
  (exists n p q,
      example_heap !! 2%positive = Some n /\ example_heap !! 3%positive = Some p /\
      example_heap !! q = None /\ q <> 2%positive /\ q <> 3%positive /\
      _parents <$> h2 !! 2%positive = Some (_parents n ++ [3%positive]) /\
      _nodes <$> h2 !! 3%positive = Some (_nodes p ++ [q]) /\
      h2 !! q = Some (set_parents (_parents n ++ [3%positive]) n) /\
      (forall m, <[2%positive := m]> h2 !! q = h2 !! q)).
Proof.
  intros h1 h2.
  apply (back_links_are_copies example_heap 2 3 h1 h2); vm_compute; reflexivity.
Defined.

End SEGFacts.

Module DriverFacts.
Import DecodeAST SEG SEGFacts Passes Driver.

(** C1.  The first name [main] hands to [add_pass],
    ["remove-transitive-advice"], is not a key of [known_passes] (the pass is
    registered as ["merge-transitive-advices"]): [known_passes.at] throws
    and the pipeline is never built, although the other two names are
    registered. *)
Theorem pipeline_construction_throws :
  known_passes !! "remove-transitive-advice" = None /\
  (forall passes, add_pass "remove-transitive-advice" passes = inl out_of_range) /\
  known_passes !! "merge-transitive-advices" = Some MergeAdviceConstraints /\
  known_passes !! "remove-identity" = Some RemoveIdentityPass /\
  known_passes !! "remove-trivial-or" = Some TrivialOrRemoval /\
  build_pipeline = inl out_of_range /\
  (forall (Circuit : Type) help (c : Circuit) run_pass emit,
      outcome (main help (Some (mkParsedCmd false false)) (Some c)
                    (fun _ => true) run_pass emit)
      = Uncaught out_of_range).
Proof.
  assert (H : known_passes !! "remove-transitive-advice" = None)
    by (vm_compute; reflexivity).
  split; [exact H|]. split.
  { intros passes. unfold add_pass. by rewrite H. }
  split; [vm_compute; reflexivity|]. split; [vm_compute; reflexivity|].
  split; [vm_compute; reflexivity|].
  assert (Hb : build_pipeline = inl out_of_range).
  { unfold build_pipeline, add_pass. by rewrite H. }
  split; [exact Hb|].
  intros. unfold main. simpl. by rewrite Hb.
Qed.

(** C8.  [main] returns 1 after a command line that did not parse (help
    text on the error stream), 0 on the help path (help text on the output
    stream) and 1 on the version path (a placeholder message, not the help
    text).  When no circuit could be loaded, [circ::unreachable()] writes the
    diagnostic and stops the process: the [return 3] behind it is dead, and
    no run of [main] ends with the code 3. *)
Theorem main_exit_codes (Circuit : Type) (help : string) (c : option Circuit)
        (v : bool) (verify : Circuit -> bool)
        (run_pass : NamedPass -> Circuit -> Circuit)
        (emit : Circuit -> option (list string)) :
  main help None c verify run_pass emit = mkRun [] [help] (Returned 1) /\
  main help (Some (mkParsedCmd true v)) c verify run_pass emit
  = mkRun [help] [] (Returned 0) /\
  main help (Some (mkParsedCmd false true)) c verify run_pass emit
  = mkRun [] ["TODO: Implement proper version message"] (Returned 1) /\
  main help (Some (mkParsedCmd false false)) None verify run_pass emit
  = mkRun [] ["Not able to load circuit."] Killed /\
  (forall cli, outcome (main help cli c verify run_pass emit) <> Returned 3).
Proof.
  repeat split. intros cli. unfold main.
  destruct cli as [[[] []]|]; simpl; try discriminate;
    destruct c as [c0|]; simpl; try discriminate;
    destruct (verify c0); simpl; try discriminate;
    destruct build_pipeline as [e|passes]; simpl; try discriminate;
    destruct (emit _); simpl; discriminate.
Qed.

Lemma max_element_spec vals m :
  max_element vals = Some m -> m ∈ vals /\ forall x, x ∈ vals -> x <= m.
Proof.
  destruct vals as [|v vs]; [discriminate|]. simpl. intros [= <-].
  assert (H : forall vs a,
             let m := fold_left (fun m x => if m <? x then x else m) vs a in
             (m = a \/ m ∈ vs) /\ a <= m /\ forall x, x ∈ vs -> x <= m).
  { clear. induction vs as [|x vs IH]; intros a; simpl.
    - split; [by left|]. split; [lia|]. intros x Hx. inversion Hx.
    - destruct (IH (if a <? x then x else a)) as (Hm & Hle & Hall).
      destruct (Z.ltb_spec a x).
      + split; [destruct Hm as [->|Hm]; right; [left|by right]|].
        split; [lia|]. intros y Hy. apply elem_of_cons in Hy as [->|Hy]; auto.
      + split; [destruct Hm as [->|Hm]; [by left|right; by right]|].
        split; [lia|]. intros y Hy. apply elem_of_cons in Hy as [->|Hy]; [lia|auto]. }
  destruct (H vs v) as (Hm & Hle & Hall). split.
  - destruct Hm as [->|Hm]; [left|by right].
  - intros x Hx. apply elem_of_cons in Hx as [->|Hx]; auto.
Qed.

Lemma roots_sum (h : heap) (roots : list (InstructionProjection * ptr)) a s :
  foldlM (fun left (p : InstructionProjection * ptr) =>
            n ← h !! p.2; Some (left + subtree_count n)) roots a = Some s ->
  s = a + sum_over (child_subtree_count h) (roots.*2).
Proof.
  revert a. induction roots as [|p roots IH]; intros a; simpl.
  - intros [= <-]. lia.
  - destruct (h !! p.2) as [n|] eqn:Hn; simpl; [|discriminate].
    intros Hs. apply IH in Hs.
    change (s = a + (child_subtree_count h p.2
                     + sum_over (child_subtree_count h) (roots.*2))).
    assert (Hc : child_subtree_count h p.2 = subtree_count n)
      by (unfold child_subtree_count; by rewrite Hn).
    lia.
Qed.

(** C4.  What [main] builds for [MAX_SIZE_INSTR] is an assignment to the
    bare variable of that name, not the declaration of a [constexpr] integer:
    for the small graph the text is [MAX_SIZE_INSTR = 6;;], and whatever the
    graph, the statement carries no type and its value is the one
    [get_maximum_vi_size] returns.  The emitter functions recorded for
    the same graph take [const std::array<MAX_SIZE_INSTR> &], which needs the
    name to be a declared constant.  On a run that gets as far as the
    optimizer, [main] is left by the exception of [add_pass] before anything
    is written to [std::cout]. *)
Theorem max_size_instr_not_constexpr :
  (exists e, emit_max_size example_costed example_nodes [example_vi] = Some e /\
             print e = Some ("MAX_SIZE_INSTR = 6;;" +:+ endl) /\
             ~ constexpr_decl "MAX_SIZE_INSTR" e) /\
  (forall h nodes vis e,
     emit_max_size h nodes vis = Some e ->
     (exists m, get_maximum_vi_size h nodes vis = Some m /\
                e = Statement (Assign (Var "MAX_SIZE_INSTR" (Type_of "auto")
                                           false false) (Int m))) /\
     ~ constexpr_decl "MAX_SIZE_INSTR" e) /\
  VarDecl (Var_typed "stack" "const std::array<MAX_SIZE_INSTR> &")
    ∈ args example_entry.2 /\
  (forall (Circuit : Type) help (c : Circuit) run_pass emit,
     main help (Some (mkParsedCmd false false)) (Some c)
          (fun _ => true) run_pass emit
     = mkRun [] [] (Uncaught out_of_range)).
Proof.
  split.
  { eexists. split; [vm_compute; reflexivity|]. split; [reflexivity|].
    intros (? & ? & ? & ? & ? & ? & ? & H). discriminate. }
  split.
  { intros h nodes vis e. unfold emit_max_size.
    destruct (get_maximum_vi_size h nodes vis) as [m|]; simpl; [|discriminate].
    intros [= <-]. split; [by exists m|].
    intros (? & ? & ? & ? & ? & ? & ? & H). discriminate. }
  split.
  { assert (Hargs : exists a b,
               args example_entry.2
               = [a; VarDecl (Var_typed "stack" "const std::array<MAX_SIZE_INSTR> &"); b])
      by (do 2 eexists; vm_compute; reflexivity).
    destruct Hargs as (a & b & ->). right. left. }
  intros. unfold main. simpl.
  assert (Hb : build_pipeline = inl out_of_range) by (vm_compute; reflexivity).
  by rewrite Hb.
Qed.

End DriverFacts.

Module PassesFacts.
Import IR Passes.



















End PassesFacts.

Module SEGGraphFacts.
Import DecodeAST SEG SEGGraph SEGFacts DriverFacts.

Local Arguments get_hash : simpl never.

(** ** The costs in closed form *)

Lemma calculate_costs_effect rank fuel nodes (h : heap) :
  closed h -> ranked rank h ->
  (forall r, r ∈ nodes -> is_Some (h !! r) /\ (rank r < fuel)%nat) ->
  exists h' : heap, calculate_costs fuel nodes h = Some h' /\
    same_graph h h' /\
    (forall p, ~ reachable h nodes p -> h' !! p = h !! p) /\
    forall p, reachable h nodes p ->
      exists n0, h !! p = Some n0 /\
        h' !! p = Some (set_subtree_count
                          (1 + sum_over (child_subtree_count h') (_nodes n0))
                          (cost_upd (1 + sum_over (child_inline_cost h') (_nodes n0)) n0)).
Proof.
  intros Hclosed Hranked Hroots. unfold calculate_costs.
  destruct (dfs_on_close_spec h rank fuel nodes Hclosed Hranked Hroots)
    as (out1 & -> & Hnd1 & Hord1 & Hmem1). simpl.
  rewrite cost_step_is_step.
  destruct (bottom_up (fun h cs => foldlM (inline_cost_acc h) cs 1) cost_upd)
    with (out := out1) (h := h) as (h1 & -> & Hout1 & Hin1); [| |done|done|].
  { intros ha hb cs Hcs. apply foldlM_acc_local; [|done].
    intros c a Hc. unfold inline_cost_acc. by rewrite Hc. }
  { intros ha cs Hcs. apply foldlM_acc_total; [|done].
    intros c a [n Hn]. unfold inline_cost_acc. rewrite Hn. simpl. eauto. }
  simpl.
  assert (Hsame1 : same_graph h h1).
  { eapply (bottom_up_same_graph (fun h cs => foldlM (inline_cost_acc h) cs 1));
      [|exact Hout1|exact Hin1].
    intros v n. unfold cost_upd. by destruct (_ || _). }
  assert (Hclosed1 := same_graph_closed _ _ Hsame1 Hclosed).
  assert (Hranked1 := same_graph_ranked _ _ _ Hsame1 Hranked).
  destruct (dfs_on_close_spec h1 rank fuel nodes Hclosed1 Hranked1)
    as (out2 & -> & Hnd2 & Hord2 & Hmem2).
  { intros r Hr. destruct (Hroots r Hr). split; [|done].
    eapply same_graph_is_Some; eauto. }
  simpl. rewrite count_step_is_step.
  destruct (bottom_up (fun h cs => foldlM (subtree_count_acc h) cs 1) set_subtree_count)
    with (out := out2) (h := h1) as (h2 & -> & Hout2 & Hin2); [| |done|done|].
  { intros ha hb cs Hcs. apply foldlM_acc_local; [|done].
    intros c a Hc. unfold subtree_count_acc. by rewrite Hc. }
  { intros ha cs Hcs. apply foldlM_acc_total; [|done].
    intros c a [n Hn]. unfold subtree_count_acc. rewrite Hn. simpl. eauto. }
  exists h2. split; [done|].
  assert (Hsame2 : same_graph h1 h2).
  { eapply (bottom_up_same_graph (fun h cs => foldlM (subtree_count_acc h) cs 1));
      [|exact Hout2|exact Hin2]. done. }
  assert (Hcost12 : forall c, child_inline_cost h2 c = child_inline_cost h1 c).
  { intros c. unfold child_inline_cost. destruct (decide (c ∈ out2)) as [Hc|Hc].
    - destruct (Hin2 c Hc) as (n & v & -> & _ & ->). done.
    - by rewrite Hout2. }
  split.
  { intros p. by rewrite (Hsame1 p), (Hsame2 p). }
  split.
  { intros p Hp. rewrite Hout2, Hout1; [done| |].
    - intros Hin. apply Hp. by apply Hmem1.
    - intros Hin. apply Hp. apply Hmem2 in Hin.
      eapply same_graph_reachable; [|exact Hin].
      intros q. by rewrite (Hsame1 q). }
  intros p Hp.
  assert (Hp1 : p ∈ out1) by (by apply Hmem1).
  assert (Hp2 : p ∈ out2) by (apply Hmem2; eapply same_graph_reachable; eauto).
  destruct (Hin1 p Hp1) as (n0 & v & Hn0 & Hv & Hn1).
  destruct (Hin2 p Hp2) as (n1 & w & Hn1' & Hw & Hn2).
  rewrite Hn1 in Hn1'. injection Hn1' as <-.
  assert (Hnodes : _nodes (cost_upd v n0) = _nodes n0).
  { unfold cost_upd. by destruct (_ || _). }
  rewrite Hnodes in Hw.
  rewrite inline_cost_acc_sum in Hv; [|intros c Hc; eapply Hclosed1; eauto; by rewrite Hnodes].
  rewrite subtree_count_acc_sum in Hw;
    [|intros c Hc; eapply same_graph_is_Some; [exact Hsame2|];
      eapply Hclosed1; eauto; by rewrite Hnodes].
  injection Hv as <-. injection Hw as <-.
  exists n0. split; [done|]. rewrite Hn2.
  assert (Hsum : sum_over (child_inline_cost h2) (_nodes n0)
                 = sum_over (child_inline_cost h1) (_nodes n0)).
  { clear -Hcost12. induction (_nodes n0) as [|c cs IH]; simpl; [done|].
    by rewrite Hcost12, IH. }
  by rewrite Hsum.
Qed.

Lemma sum_over_const (f : ptr -> Z) cs k :
  (forall c, c ∈ cs -> f c = k) -> sum_over f cs = k * Z.of_nat (length cs).
Proof.
  induction cs as [|c cs IH]; intros H; simpl; [lia|].
  rewrite H by left. rewrite IH by (intros; apply H; by right). lia.
Qed.

Lemma cost_upd_fields v n :
  inline_cost (cost_upd v n) = v /\
  fd (cost_upd v n) = (2 <=? v) || isRoot n || fd n /\
  frame (cost_upd v n) = frame n /\
  subtree_count (cost_upd v n) = subtree_count n.
Proof.
  unfold cost_upd, frame. simpl.
  destruct ((2 <=? v) || isRoot n) eqn:Hc; simpl; rewrite ?Hc; done.
Qed.

(** X1.  After [calculate_costs] the inline cost of a node is one more than the
    number of its children, and [fd] is set exactly on the roots and on the
    nodes that have a child. *)
Theorem calculate_costs_closed_form (rank : ptr -> nat) (fuel : nat)
        (nodes : list ptr) (h : heap) :
  closed h -> ranked rank h ->
  (forall r, r ∈ nodes -> is_Some (h !! r) /\ (rank r < fuel)%nat) ->
  (forall p n, h !! p = Some n -> fd n = false) ->
  exists h' : heap, calculate_costs fuel nodes h = Some h' /\
    forall p, reachable h nodes p ->
      exists n, h' !! p = Some n /\
        inline_cost n = 1 + Z.of_nat (length (_nodes n)) /\
        fd n = negb (bool_decide (_nodes n = [])) || isRoot n.
Proof.
  intros Hclosed Hranked Hroots Hfd.
  destruct (calculate_costs_effect rank fuel nodes h Hclosed Hranked Hroots)
    as (h' & Hrun & Hsame & Hout & Hin).
  exists h'. split; [done|].
  assert (Hone : forall k p, (rank p < k)%nat -> reachable h nodes p ->
                             child_inline_cost h' p = 1).
  { induction k as [|k IH]; intros p Hk Hp; [lia|].
    destruct (Hin p Hp) as (n0 & Hn0 & Hn).
    unfold child_inline_cost. rewrite Hn.
    assert (Hsum : sum_over (child_inline_cost h') (_nodes n0)
                   = 1 * Z.of_nat (length (_nodes n0))).
    { apply sum_over_const. intros c Hc. apply IH.
      - specialize (Hranked p n0 c Hn0 Hc). lia.
      - eapply reach_child; eauto. }
    rewrite Hsum.
    destruct (cost_upd_fields (1 + 1 * Z.of_nat (length (_nodes n0))) n0)
      as (Hic & Hf & _ & _).
    change (fd (set_subtree_count ?s ?n)) with (fd n).
    change (inline_cost (set_subtree_count ?s ?n)) with (inline_cost n).
    rewrite Hic, Hf, (Hfd p n0 Hn0), orb_false_r.
    destruct ((2 <=? 1 + 1 * Z.of_nat (length (_nodes n0))) || isRoot n0) eqn:Hc;
      [done|].
    apply orb_false_iff in Hc as [Hc _]. apply Z.leb_gt in Hc. lia. }
  intros p Hp. destruct (Hin p Hp) as (n0 & Hn0 & Hn). eexists. split; [exact Hn|].
  assert (Hsum : sum_over (child_inline_cost h') (_nodes n0)
                 = 1 * Z.of_nat (length (_nodes n0))).
  { apply sum_over_const. intros c Hc. apply (Hone (S (rank c))); [lia|].
    eapply reach_child; eauto. }
  rewrite Hsum.
  destruct (cost_upd_fields (1 + 1 * Z.of_nat (length (_nodes n0))) n0)
    as (Hic & Hf & Hfr & _).
  change (fd (set_subtree_count ?s ?n)) with (fd n).
  change (inline_cost (set_subtree_count ?s ?n)) with (inline_cost n).
  change (_nodes (set_subtree_count ?s ?n)) with (_nodes n).
  change (isRoot (set_subtree_count ?s ?n)) with (isRoot n).
  assert (Hnodes : _nodes (cost_upd (1 + 1 * Z.of_nat (length (_nodes n0))) n0) = _nodes n0)
    by (unfold frame in Hfr; congruence).
  assert (Hroot : isRoot (cost_upd (1 + 1 * Z.of_nat (length (_nodes n0))) n0) = isRoot n0)
    by (unfold frame in Hfr; congruence).
  rewrite Hic, Hf, Hnodes, Hroot, (Hfd p n0 Hn0), orb_false_r.
  split; [lia|]. f_equal.
  destruct (_nodes n0) as [|c cs]; simpl; [done|]. apply Z.leb_le. lia.
Qed.

Lemma calculate_costs_closed_form_witness :
  exists h' : heap, calculate_costs 5 example_nodes example_heap = Some h' /\
    forall p, reachable example_heap example_nodes p ->
      exists n, h' !! p = Some n /\
        inline_cost n = 1 + Z.of_nat (length (_nodes n)) /\
        fd n = negb (bool_decide (_nodes n = [])) || isRoot n.
Proof.
  exact (calculate_costs_closed_form example_rank 5 example_nodes example_heap
           example_heap_closed example_heap_ranked example_nodes_live
           example_heap_fd).
Defined.

(** ** Roots of a verify-instruction *)

Lemma get_nodes_by_vi_loop (h : heap) (v : Operation) nodes : forall init m,
  foldlM (fun m n =>
            node ← h !! n;
            Some (m ++ omap (fun root =>
                               if bool_decide (addr (vi root) = addr v)
                                  && isRoot node
                               then Some (root, n) else None)
                            (valid_for_contexts node)))
         nodes init = Some m ->
  (forall n, n ∈ nodes -> is_Some (h !! n)) /\
  exists new, m = init ++ new /\
    forall proj n, (proj, n) ∈ new <-> root_for h nodes v proj n.
Proof.
  induction nodes as [|n0 nodes IH]; intros init m Hrun; simpl in Hrun.
  - injection Hrun as <-. split; [intros n Hn; inversion Hn|].
    exists []. rewrite app_nil_r. split; [done|].
    intros proj n. split; [intros H; inversion H|intros [H _]; inversion H].
  - destruct (h !! n0) as [node0|] eqn:Hn0; simpl in Hrun; [|discriminate].
    apply IH in Hrun as (Hlive & new & -> & Hnew).
    split.
    { intros n Hn. apply elem_of_cons in Hn as [->|Hn]; [eauto|auto]. }
    eexists. split; [symmetry; apply app_assoc|].
    intros proj n. rewrite elem_of_app, Hnew, list_elem_of_omap.
    unfold root_for. split.
    + intros [(root & Hroot & Hsome)|(Hn & node & Hnode)].
      * destruct (bool_decide (addr (vi root) = addr v)) eqn:Hv; simpl in Hsome;
          [|discriminate].
        destruct (isRoot node0) eqn:Hr; [|discriminate].
        injection Hsome as <- <-. apply bool_decide_eq_true in Hv.
        split; [left|]. eauto 10.
      * split; [by right|eauto].
    + intros (Hn & node & Hnode & Hr & Hproj & Hv).
      destruct (decide (n = n0)) as [->|Hne].
      * left. exists proj. split; [congruence|].
        rewrite bool_decide_eq_true_2 by done.
        assert (node = node0) as -> by congruence. by rewrite Hr.
      * right. split; [|eauto 10]. apply elem_of_cons in Hn as [?|?]; done.
Qed.

Lemma get_nodes_by_vi_elem (h : heap) nodes v m :
  get_nodes_by_vi h nodes v = Some m ->
  m <> [] /\ forall proj n, (proj, n) ∈ m <-> root_for h nodes v proj n.
Proof.
  unfold get_nodes_by_vi. intros Hrun.
  match type of Hrun with
  | context [foldlM ?f nodes []] =>
    destruct (foldlM f nodes []) as [m0|] eqn:Hfold; simpl in Hrun; [|discriminate]
  end.
  apply get_nodes_by_vi_loop in Hfold as (_ & new & -> & Hnew). simpl in *.
  case_bool_decide as Hlen; [|discriminate]. injection Hrun as <-.
  split; [|done]. intros ->. done.
Qed.

(** X2.  [get_nodes_by_vi] returns exactly the pairs of a root node of the
    graph and one of its projections for the verify-instruction; when every
    node pointer is live, its final [check] fails exactly when there is no
    such pair. *)
Theorem get_nodes_by_vi_spec (h : heap) (nodes : list ptr) (v : Operation) :
  (forall n, n ∈ nodes -> is_Some (h !! n)) ->
  (forall m, get_nodes_by_vi h nodes v = Some m ->
     m <> [] /\ forall proj n, (proj, n) ∈ m <-> root_for h nodes v proj n) /\
  (get_nodes_by_vi h nodes v = None <->
   forall proj n, ~ root_for h nodes v proj n).
Proof.
  intros Hlive. split; [intros m; apply get_nodes_by_vi_elem|].
  split.
  - intros Hrun. unfold get_nodes_by_vi in Hrun.
    match type of Hrun with
    | context [foldlM ?f nodes []] =>
      assert (Hsome : is_Some (foldlM f nodes []))
    end.
    { clear Hrun. generalize (@nil (InstructionProjection * ptr)).
      induction nodes as [|n0 nodes IH]; intros init; simpl; [eauto|].
      destruct (Hlive n0) as [node0 ->]; [left|]. simpl.
      apply IH. intros n Hn. apply Hlive. by right. }
    destruct Hsome as [m0 Hfold]. rewrite Hfold in Hrun. simpl in Hrun.
    apply get_nodes_by_vi_loop in Hfold as (_ & new & -> & Hnew). simpl in *.
    destruct (decide (length new ≠ 0%nat)) as [Hlen|Hlen];
      [by rewrite bool_decide_eq_true_2 in Hrun|].
    intros proj n Hroot. apply Hnew in Hroot.
    destruct new; [inversion Hroot|]. apply Hlen. simpl. lia.
  - intros Hnone.
    destruct (get_nodes_by_vi h nodes v) as [m|] eqn:Hrun; [|done].
    apply get_nodes_by_vi_elem in Hrun as [Hne Hm].
    destruct m as [|[proj n] m]; [done|].
    destruct (Hnone proj n). apply Hm. left.
Qed.

Lemma get_nodes_by_vi_spec_witness :
  (forall m, get_nodes_by_vi example_heap example_nodes example_vi = Some m ->
     m <> [] /\
     forall proj n,
       (proj, n) ∈ m <-> root_for example_heap example_nodes example_vi proj n) /\
  (get_nodes_by_vi example_heap example_nodes example_vi = None <->
   forall proj n, ~ root_for example_heap example_nodes example_vi proj n).
Proof.
  apply (get_nodes_by_vi_spec example_heap example_nodes example_vi).
  intros n Hn. apply (example_nodes_live n Hn).
Defined.

(** ** Stack offsets *)

Lemma reachable_step (h : heap) p n c q :
  h !! p = Some n -> c ∈ _nodes n -> reachable h [c] q -> reachable h [p] q.
Proof.
  intros Hp Hc. induction 1 as [r Hr|p' n' c' Hreach IH Hn' Hc'].
  - apply list_elem_of_singleton in Hr as ->.
    eapply reach_child; [apply reach_root; left|exact Hp|exact Hc].
  - eapply reach_child; eauto.
Qed.

Lemma expr_for_node_offset fuel : forall (h : heap) node stack max st r st',
  (forall q n, reachable h [node] q -> h !! q = Some n ->
               subtree_count n = 1 + sum_over (child_subtree_count h) (_nodes n)) ->
  expr_for_node fuel h node stack max st = Some (r, st') ->
  stack_offset st' = stack_offset st + child_subtree_count h node.
Proof.
  induction fuel as [|fuel IH]; intros h node stack max st r st' Hcount Hrun;
    [discriminate|].
  simpl in Hrun.
  destruct (h !! node) as [n|] eqn:Hn; simpl in Hrun; [|discriminate].
  match type of Hrun with
  | context [foldlM ?f _ _] =>
    assert (Hloop : forall cs acc acc',
               (forall c, c ∈ cs -> c ∈ _nodes n) ->
               foldlM f cs acc = Some acc' ->
               stack_offset acc'.2
               = stack_offset acc.2 + sum_over (child_subtree_count h) cs)
  end.
  { induction cs as [|c cs IHcs]; intros acc acc' Hcs Hfold; simpl in Hfold.
    - injection Hfold as <-. simpl. lia.
    - destruct (expr_for_node fuel h c stack max acc.2) as [[rc stc]|] eqn:Hc;
        simpl in Hfold; [|discriminate].
      apply IH in Hc.
      2:{ intros q nq Hq. apply Hcount. eapply reachable_step; eauto.
          apply Hcs. left. }
      apply IHcs in Hfold; [|intros c' Hc'; apply Hcs; by right].
      simpl in *. lia. }
  match type of Hrun with
  | context [foldlM ?f ?l0 ?a0] =>
    destruct (foldlM f l0 a0) as [[[lv setup] st1]|] eqn:Hfold;
      simpl in Hrun; [|discriminate];
      specialize (Hloop l0 a0 _ (fun c H => H) Hfold)
  end.
  simpl in Hloop. clear Hfold.
  assert (Hnode : child_subtree_count h node
                  = 1 + sum_over (child_subtree_count h) (_nodes n)).
  { unfold child_subtree_count at 1. rewrite Hn. apply (Hcount node); [|done].
    apply reach_root. left. }
  destruct (fd n) eqn:Hfd; simpl in Hrun.
  2:{ injection Hrun as <- <-. simpl. lia. }
  destruct (get_hash (S fuel) h node) as [key|] eqn:Hkey; [|discriminate].
  simpl in Hrun.
  destruct (func_decls st1 !! key) as [e0|] eqn:He0; simpl in Hrun.
  - rewrite He0 in Hrun. simpl in Hrun. injection Hrun as <- <-. simpl. lia.
  - rewrite lookup_insert_eq in Hrun. simpl in Hrun. injection Hrun as <- <-.
    simpl. lia.
Qed.

Lemma register_roots_offset fuel (h : heap) stack max roots : forall st st',
  (forall (p : InstructionProjection * ptr) q n,
      p ∈ roots -> reachable h [p.2] q -> h !! q = Some n ->
      subtree_count n = 1 + sum_over (child_subtree_count h) (_nodes n)) ->
  foldlM (fun st (p : InstructionProjection * ptr) =>
            r ← expr_for_node fuel h p.2 stack max st; Some r.2) roots st
  = Some st' ->
  stack_offset st' = stack_offset st + sum_over (child_subtree_count h) (roots.*2).
Proof.
  induction roots as [|p roots IH]; intros st st' Hcount Hrun; simpl in Hrun.
  - injection Hrun as <-. simpl. lia.
  - destruct (expr_for_node fuel h p.2 stack max st) as [[r st1]|] eqn:Hcall;
      simpl in Hrun; [|discriminate].
    apply expr_for_node_offset in Hcall;
      [|intros q n Hq; eapply Hcount; [left|exact Hq]].
    apply IH in Hrun; [|intros p' q n Hp'; apply Hcount; by right].
    change (stack_offset st' = stack_offset st
                               + (child_subtree_count h p.2
                                  + sum_over (child_subtree_count h) (roots.*2))).
    lia.
Qed.

Lemma register_emitters_app fuel (h : heap) nodes vs1 vs2 stack st :
  register_emitters fuel h nodes (vs1 ++ vs2) stack st
  = register_emitters fuel h nodes vs1 stack st
      ≫= register_emitters fuel h nodes vs2 stack.
Proof. unfold register_emitters. apply foldlM_app. Qed.

Lemma get_maximum_vi_size_sums (h : heap) nodes vis m :
  get_maximum_vi_size h nodes vis = Some m ->
  forall v, v ∈ vis -> exists roots,
      get_nodes_by_vi h nodes v = Some roots /\
      sum_over (child_subtree_count h) (roots.*2) <= m.
Proof.
  unfold get_maximum_vi_size. intros Hrun.
  match type of Hrun with
  | context [foldlM ?f0 vis []] => set (f := f0) in *
  end.
  assert (Hstep : forall init v vals, f init v = Some vals ->
             exists roots, get_nodes_by_vi h nodes v = Some roots /\
               vals = init ++ [sum_over (child_subtree_count h) (roots.*2)]).
  { intros init v vals Hf. unfold f in Hf.
    destruct (get_nodes_by_vi h nodes v) as [roots|] eqn:Hroots;
      simpl in Hf; [|discriminate].
    match type of Hf with
    | context [foldlM ?g roots 0] =>
      destruct (foldlM g roots 0) as [a|] eqn:Ha; simpl in Hf; [|discriminate]
    end.
    apply roots_sum in Ha. injection Hf as <-. exists roots. split; [done|].
    do 2 f_equal. lia. }
  assert (Hmono : forall vs init vals, foldlM f vs init = Some vals ->
                                       forall x, x ∈ init -> x ∈ vals).
  { induction vs as [|v vs IH]; intros init vals Hfold x Hx; simpl in Hfold.
    - by injection Hfold as <-.
    - destruct (f init v) as [init'|] eqn:Hf; simpl in Hfold; [|discriminate].
      eapply IH; [exact Hfold|].
      apply Hstep in Hf as (roots & _ & ->). apply elem_of_app. by left. }
  assert (Hloop : forall vs init vals,
             foldlM f vs init = Some vals ->
             forall v, v ∈ vs -> exists roots,
                 get_nodes_by_vi h nodes v = Some roots /\
                 sum_over (child_subtree_count h) (roots.*2) ∈ vals).
  { induction vs as [|v vs IH]; intros init vals Hfold v' Hv'; simpl in Hfold.
    - inversion Hv'.
    - destruct (f init v) as [init'|] eqn:Hf; simpl in Hfold; [|discriminate].
      apply elem_of_cons in Hv' as [->|Hv'].
      + apply Hstep in Hf as (roots & Hroots & ->).
        exists roots. split; [done|]. eapply Hmono; [exact Hfold|].
        apply elem_of_app. right. left.
      + eapply IH; eauto. }
  destruct (foldlM f vis []) as [vals|] eqn:Hvals; simpl in Hrun; [|discriminate].
  apply max_element_spec in Hrun as [_ Hmax].
  intros v Hv. destruct (Hloop _ _ _ Hvals v Hv) as (roots & Hroots & Hin).
  exists roots. split; [done|]. by apply Hmax.
Qed.

(** *** What [calculate_costs] leaves alone *)

Lemma step_frame F upd (h h1 : heap) q :
  (forall v n, frame (upd v n) = frame n) ->
  (forall v n, fd n = true -> fd (upd v n) = true) ->
  step F upd h q = Some h1 ->
  (forall p, frame <$> h1 !! p = frame <$> h !! p) /\
  (forall p n, h !! p = Some n -> fd n = true ->
               exists n', h1 !! p = Some n' /\ fd n' = true).
Proof.
  intros Hfr Hfd. unfold step. intros Hrun.
  destruct (h !! q) as [n|] eqn:Hq; simpl in Hrun; [|discriminate].
  destruct (F h (_nodes n)) as [v|]; simpl in Hrun; [|discriminate].
  injection Hrun as <-. split.
  - intros p. destruct (decide (p = q)) as [->|Hne].
    + rewrite lookup_insert_eq, Hq. simpl. by rewrite Hfr.
    + by rewrite lookup_insert_ne.
  - intros p n0 Hp Hfd0. destruct (decide (p = q)) as [->|Hne].
    + rewrite lookup_insert_eq. eexists. split; [done|].
      apply Hfd. congruence.
    + rewrite lookup_insert_ne by done. eauto.
Qed.

Lemma steps_frame F upd out : forall (h h1 : heap),
  (forall v n, frame (upd v n) = frame n) ->
  (forall v n, fd n = true -> fd (upd v n) = true) ->
  foldlM (step F upd) out h = Some h1 ->
  (forall p, frame <$> h1 !! p = frame <$> h !! p) /\
  (forall p n, h !! p = Some n -> fd n = true ->
               exists n', h1 !! p = Some n' /\ fd n' = true).
Proof.
  induction out as [|q out IH]; intros h h1 Hfr Hfd Hrun; simpl in Hrun.
  - injection Hrun as <-. eauto.
  - destruct (step F upd h q) as [h0|] eqn:Hstep; simpl in Hrun; [|discriminate].
    destruct (step_frame _ _ _ _ _ Hfr Hfd Hstep) as [H1 H2].
    destruct (IH _ _ Hfr Hfd Hrun) as [H3 H4]. split.
    + intros p. by rewrite H3, H1.
    + intros p n Hp Hn. destruct (H2 p n Hp Hn) as (n' & Hp' & Hn'). eauto.
Qed.

Lemma frame_same_graph (h h' : heap) :
  (forall p, frame <$> h' !! p = frame <$> h !! p) -> same_graph h h'.
Proof.
  intros H p. specialize (H p).
  destruct (h !! p) as [n|], (h' !! p) as [n'|]; simpl in *; try done.
  unfold frame in H. f_equal. congruence.
Qed.

Lemma get_nodes_by_vi_frame (h h' : heap) nodes v :
  (forall p, frame <$> h' !! p = frame <$> h !! p) ->
  get_nodes_by_vi h' nodes v = get_nodes_by_vi h nodes v.
Proof.
  intros H. unfold get_nodes_by_vi.
  match goal with
  | |- (?a ≫= ?k) = (?b ≫= _) => assert (Heq : a = b); [|by rewrite Heq]
  end.
  generalize (@nil (InstructionProjection * ptr)).
  induction nodes as [|n nodes IH]; intros init; simpl; [done|].
  assert (Hn := H n).
  destruct (h !! n) as [node|], (h' !! n) as [node'|]; simpl in *; try done.
  unfold frame in Hn.
  assert (Hv : valid_for_contexts node' = valid_for_contexts node) by congruence.
  assert (Hr : isRoot node' = isRoot node) by congruence.
  rewrite Hv, Hr. apply IH.
Qed.

(** X4.  [calculate_costs] only writes [inline_cost], [fd] and
    [subtree_count]: the identifier, the children, the parents, the root
    flag and the contexts of every node stay as they were, a set [fd] is
    never cleared, and so the hash of every node and the roots found for a
    verify-instruction are the same before and after. *)
Theorem calculate_costs_frame (fuel : nat) (nodes : list ptr) (h h' : heap) :
  calculate_costs fuel nodes h = Some h' ->
  (forall p, frame <$> h' !! p = frame <$> h !! p) /\
  (forall p n, h !! p = Some n -> fd n = true ->
               exists n', h' !! p = Some n' /\ fd n' = true) /\
  (forall f p, get_hash f h' p = get_hash f h p) /\
  (forall v, get_nodes_by_vi h' nodes v = get_nodes_by_vi h nodes v).
Proof.
  unfold calculate_costs. intros Hrun.
  destruct (dfs_on_close fuel h nodes) as [out1|]; simpl in Hrun; [|discriminate].
  destruct (foldlM cost_step out1 h) as [h1|] eqn:H1; simpl in Hrun; [|discriminate].
  destruct (dfs_on_close fuel h1 nodes) as [out2|]; simpl in Hrun; [|discriminate].
  rewrite cost_step_is_step in H1. rewrite count_step_is_step in Hrun.
  apply steps_frame in H1 as [Hf1 Hd1];
    [|intros v n; apply cost_upd_fields
     |intros v n Hn; destruct (cost_upd_fields v n) as (_ & -> & _);
      rewrite Hn; apply orb_true_r].
  apply steps_frame in Hrun as [Hf2 Hd2]; [|done..].
  assert (Hf : forall p, frame <$> h' !! p = frame <$> h !! p)
    by (intros p; by rewrite Hf2, Hf1).
  split; [exact Hf|]. split.
  { intros p n Hp Hn. destruct (Hd1 p n Hp Hn) as (n1 & Hp1 & Hn1). eauto. }
  split.
  - intros f p. apply get_hash_same_graph. by apply frame_same_graph.
  - intros v. by apply get_nodes_by_vi_frame.
Qed.

Lemma calculate_costs_frame_witness :
  (forall p, frame <$> example_costed !! p = frame <$> example_heap !! p) /\
  (forall p n, example_heap !! p = Some n -> fd n = true ->
               exists n', example_costed !! p = Some n' /\ fd n' = true) /\
  (forall f p, get_hash f example_costed p = get_hash f example_heap p) /\
  (forall v, get_nodes_by_vi example_costed example_nodes v
             = get_nodes_by_vi example_heap example_nodes v).
Proof.
  apply (calculate_costs_frame 5 example_nodes example_heap example_costed).
  vm_compute. reflexivity.
Defined.

(** *** The stack offset of [prepare] *)
Lemma get_maximum_vi_size_attained (h : heap) nodes vis m :
  get_maximum_vi_size h nodes vis = Some m ->
  exists v roots, v ∈ vis /\ get_nodes_by_vi h nodes v = Some roots /\
                  m = sum_over (child_subtree_count h) (roots.*2).
Proof.
  unfold get_maximum_vi_size. intros Hrun.
  match type of Hrun with
  | context [foldlM ?f0 vis []] => set (f := f0) in *
  end.
  assert (Hloop : forall vs init vals,
             foldlM f vs init = Some vals ->
             forall x, x ∈ vals ->
               x ∈ init \/
               exists v roots, v ∈ vs /\ get_nodes_by_vi h nodes v = Some roots /\
                               x = sum_over (child_subtree_count h) (roots.*2)).
  { induction vs as [|v vs IH]; intros init vals Hfold x Hx; simpl in Hfold.
    - injection Hfold as <-. by left.
    - destruct (f init v) as [init'|] eqn:Hf; simpl in Hfold; [|discriminate].
      destruct (IH _ _ Hfold x Hx) as [Hin|(v' & roots & Hv' & Hroots & ->)].
      + unfold f in Hf.
        destruct (get_nodes_by_vi h nodes v) as [roots|] eqn:Hroots;
          simpl in Hf; [|discriminate].
        match type of Hf with
        | context [foldlM ?g roots 0] =>
          destruct (foldlM g roots 0) as [a|] eqn:Ha; simpl in Hf; [|discriminate]
        end.
        apply roots_sum in Ha. injection Hf as <-.
        apply elem_of_app in Hin as [Hin|Hin]; [by left|].
        apply list_elem_of_singleton in Hin as ->.
        right. exists v, roots. split; [left|]. split; [done|]. lia.
      + right. exists v', roots. split; [by right|]. done. }
  destruct (foldlM f vis []) as [vals|] eqn:Hvals; simpl in Hrun; [|discriminate].
  apply max_element_spec in Hrun as [Hin _].
  destruct (Hloop _ _ _ Hvals m Hin) as [Hnil|Hex]; [inversion Hnil|exact Hex].
Qed.

Lemma calculate_costs_frames (fuel : nat) (nodes : list ptr) (h h' : heap) :
  calculate_costs fuel nodes h = Some h' ->
  forall p, frame <$> h' !! p = frame <$> h !! p.
Proof.
  unfold calculate_costs. intros Hrun.
  destruct (dfs_on_close fuel h nodes) as [out1|]; simpl in Hrun; [|discriminate].
  destruct (foldlM cost_step out1 h) as [h1|] eqn:H1; simpl in Hrun; [|discriminate].
  destruct (dfs_on_close fuel h1 nodes) as [out2|]; simpl in Hrun; [|discriminate].
  rewrite cost_step_is_step in H1. rewrite count_step_is_step in Hrun.
  apply steps_frame in H1 as [Hf1 _];
    [|intros v n; apply cost_upd_fields
     |intros v n Hn; destruct (cost_upd_fields v n) as (_ & -> & _);
      rewrite Hn; apply orb_true_r].
  apply steps_frame in Hrun as [Hf2 _]; [|done..].
  intros p. by rewrite Hf2, Hf1.
Qed.

(** After [calculate_costs], the [subtree_count] of a node of the graph is
    the size of the tree below it. *)
Lemma calculate_costs_sizes rank fuel nodes (h h' : heap) :
  closed h -> ranked rank h ->
  (forall r, r ∈ nodes -> is_Some (h !! r) /\ (rank r < fuel)%nat) ->
  calculate_costs fuel nodes h = Some h' ->
  forall p, reachable h nodes p -> child_subtree_count h' p = tree_size fuel h p.
Proof.
  intros Hclosed Hranked Hroots Hrun.
  destruct (calculate_costs_effect rank fuel nodes h Hclosed Hranked Hroots)
    as (h1 & Hcost & _ & _ & Hin).
  rewrite Hrun in Hcost. injection Hcost as <-.
  assert (Hlt : forall r, r ∈ nodes -> (rank r < fuel)%nat)
    by (intros r Hr; apply Hroots, Hr).
  assert (Hk : forall k p, (rank p < k)%nat -> reachable h nodes p ->
                           child_subtree_count h' p = tree_size fuel h p).
  { induction k as [|k IH]; intros p Hp Hreach; [lia|].
    destruct (reachable_below rank fuel h nodes p Hranked Hlt Hreach) as [Hpf _].
    destruct (Hin p Hreach) as (n0 & Hn0 & Hn').
    unfold child_subtree_count at 1. rewrite Hn'. simpl.
    destruct fuel as [|f]; [lia|]. simpl. rewrite Hn0.
    destruct (cost_upd_fields (1 + sum_over (child_inline_cost h') (_nodes n0)) n0)
      as (_ & _ & Hfr & _).
    assert (Hnodes : _nodes (cost_upd (1 + sum_over (child_inline_cost h') (_nodes n0)) n0)
                     = _nodes n0) by (unfold frame in Hfr; congruence).
    f_equal. apply sum_over_ext. intros c Hc.
    assert (Hrc := Hranked p n0 c Hn0 Hc).
    rewrite IH; [|lia|by eapply reach_child].
    apply (tree_size_fuel rank); (done || lia). }
  intros p Hreach. by apply (Hk (S (rank p))); [lia|].
Qed.

(** X3.  When the loop of [prepare] is done with a verify-instruction, the
    stack offset it counted equals the sum of [subtree_count] over the roots
    of that verify-instruction, which is the sum of the sizes of the trees
    below these roots.  The source counts in [int]: provided the tree below
    every node of the graph, and the sum over the roots of every
    verify-instruction, stay within [INT_MAX], the offset lies between 0 and
    [INT_MAX], and so does the maximum [get_maximum_vi_size] computes, which
    bounds the offset. *)
Theorem prepare_stack_offset (rank : ptr -> nat) (fuel : nat)
        (nodes : list ptr) (h h' : heap) (vs : list Operation) (v : Operation)
        (stack : Expr) (st st' : EmitState) :
  closed h -> ranked rank h ->
  (forall r, r ∈ nodes -> is_Some (h !! r) /\ (rank r < fuel)%nat) ->
  (forall r, r ∈ nodes -> tree_size fuel h r <= INT_MAX) ->
  (forall v' roots, v' ∈ vs ++ [v] -> get_nodes_by_vi h nodes v' = Some roots ->
                    sum_over (tree_size fuel h) (roots.*2) <= INT_MAX) ->
  prepare fuel h nodes (vs ++ [v]) stack st = Some (h', st') ->
  exists roots,
    get_nodes_by_vi h' nodes v = Some roots /\
    stack_offset st' = sum_over (child_subtree_count h') (roots.*2) /\
    stack_offset st' = sum_over (tree_size fuel h) (roots.*2) /\
    0 <= stack_offset st' <= INT_MAX /\
    forall vis m,
      v ∈ vis ->
      (forall v' roots', v' ∈ vis -> get_nodes_by_vi h nodes v' = Some roots' ->
                         sum_over (tree_size fuel h) (roots'.*2) <= INT_MAX) ->
      get_maximum_vi_size h' nodes vis = Some m ->
      stack_offset st' <= m <= INT_MAX.
Proof.
  intros Hclosed Hranked Hroots Hsmall Hvis Hrun. unfold prepare in Hrun.
  destruct (calculate_costs_effect rank fuel nodes h Hclosed Hranked Hroots)
    as (h1 & Hcost & Hsame & Hout & Hin).
  rewrite Hcost in Hrun. simpl in Hrun.
  rewrite register_emitters_app in Hrun.
  destruct (register_emitters fuel h1 nodes vs stack st) as [st1|];
    simpl in Hrun; [|discriminate].
  unfold register_emitters in Hrun. simpl in Hrun.
  destruct (get_nodes_by_vi h1 nodes v) as [roots|] eqn:Hget; simpl in Hrun;
    [|discriminate].
  match type of Hrun with
  | context [foldlM ?f roots ?s0] =>
    destruct (foldlM f roots s0) as [s1|] eqn:Hfold; simpl in Hrun; [|discriminate]
  end.
  injection Hrun as <- <-.
  apply register_roots_offset in Hfold.
  2:{ intros p q n Hp Hq Hn.
      assert (Hreach : reachable h nodes q).
      { eapply same_graph_reachable; [intros x; symmetry; apply Hsame|].
        eapply reachable_mono; [|exact Hq].
        intros r Hr. apply list_elem_of_singleton in Hr as ->.
        apply get_nodes_by_vi_elem in Hget as [_ Hget].
        destruct p as [proj n0]. apply Hget in Hp as [Hp _]. exact Hp. }
      destruct (Hin q Hreach) as (n0 & Hn0 & Hn1). rewrite Hn in Hn1.
      injection Hn1 as ->. simpl.
      destruct (cost_upd_fields (1 + sum_over (child_inline_cost h1) (_nodes n0)) n0)
        as (_ & _ & Hfr & _).
      unfold frame in Hfr. congruence. }
  simpl in Hfold.
  assert (Hframes := calculate_costs_frames fuel nodes h h1 Hcost).
  assert (Hsizes := calculate_costs_sizes rank fuel nodes h h1
                                          Hclosed Hranked Hroots Hcost).
  assert (Hsum : forall v0 roots0,
             get_nodes_by_vi h1 nodes v0 = Some roots0 ->
             get_nodes_by_vi h nodes v0 = Some roots0 /\
             sum_over (child_subtree_count h1) (roots0.*2)
             = sum_over (tree_size fuel h) (roots0.*2)).
  { intros v0 roots0 Hget0. split.
    - rewrite <- Hget0. symmetry. by apply get_nodes_by_vi_frame.
    - apply sum_over_ext. intros c Hc. apply Hsizes.
      apply list_elem_of_fmap in Hc as ([proj n0] & -> & Hc).
      apply get_nodes_by_vi_elem in Hget0 as [_ Hget0].
      apply Hget0 in Hc as [Hc _]. by apply reach_root. }
  destruct (Hsum v roots Hget) as [Hget0 Heq].
  assert (Hpos : 0 <= sum_over (tree_size fuel h) (roots.*2)).
  { clear. induction (roots.*2) as [|c cs IH]; simpl; [lia|].
    assert (H := tree_size_nonneg fuel h c). lia. }
  assert (Hmax : sum_over (tree_size fuel h) (roots.*2) <= INT_MAX).
  { apply (Hvis v roots); [|exact Hget0]. apply elem_of_app. right. left. }
  exists roots. split; [done|]. split; [lia|]. split; [lia|]. split; [lia|].
  intros vis m Hv Hbound Hm.
  destruct (get_maximum_vi_size_sums _ _ _ _ Hm v Hv) as (roots' & Hget' & Hle).
  rewrite Hget in Hget'. injection Hget' as <-.
  destruct (get_maximum_vi_size_attained _ _ _ _ Hm) as (v2 & roots2 & Hv2 & Hget2 & ->).
  destruct (Hsum v2 roots2 Hget2) as [Hget2' Heq2].
  assert (H2 := Hbound v2 roots2 Hv2 Hget2'). lia.
Qed.

Lemma example_vi_small (vis : list Operation) (v' : Operation)
      (roots : list (InstructionProjection * ptr)) :
  v' ∈ vis -> vis = [example_vi] ->
  get_nodes_by_vi example_heap example_nodes v' = Some roots ->
  sum_over (tree_size 5 example_heap) (roots.*2) <= INT_MAX.
Proof.
  intros Hv -> Hget. apply list_elem_of_singleton in Hv as ->.
  assert (Hroots : exists roots0,
             get_nodes_by_vi example_heap example_nodes example_vi = Some roots0 /\
             sum_over (tree_size 5 example_heap) (roots0.*2) = 6).
  { eexists. split; vm_compute; reflexivity. }
  destruct Hroots as (roots0 & Hget0 & Hsix).
  rewrite Hget in Hget0. injection Hget0 as <-. rewrite Hsix. by vm_compute.
Qed.

Lemma prepare_stack_offset_witness :
  let r := default (example_heap, empty_state)
                   (prepare 5 example_heap example_nodes [example_vi]
                            (Var_of "stack") empty_state) in
  exists roots,
    get_nodes_by_vi r.1 example_nodes example_vi = Some roots /\
    stack_offset r.2 = sum_over (child_subtree_count r.1) (roots.*2) /\
    stack_offset r.2 = sum_over (tree_size 5 example_heap) (roots.*2) /\
    0 <= stack_offset r.2 <= INT_MAX /\
    forall vis m,
      example_vi ∈ vis ->
      (forall v' roots', v' ∈ vis ->
                         get_nodes_by_vi example_heap example_nodes v' = Some roots' ->
                         sum_over (tree_size 5 example_heap) (roots'.*2) <= INT_MAX) ->
      get_maximum_vi_size r.1 example_nodes vis = Some m ->
      stack_offset r.2 <= m <= INT_MAX.
Proof.
  intros r.
  apply (prepare_stack_offset example_rank 5 example_nodes example_heap r.1
           [] example_vi (Var_of "stack") empty_state r.2
           example_heap_closed example_heap_ranked example_nodes_live
           example_nodes_small
           (fun v' roots Hv => example_vi_small [example_vi] v' roots Hv eq_refl)).
  vm_compute. reflexivity.
Defined.

(** *** Names of the emitter functions *)

Lemma string_app_inj_l (a x y : string) : a +:+ x = a +:+ y -> x = y.
Proof.
  induction a as [|c a IH]; [done|].
  rewrite !string_app_cons. intros [= H]. auto.
Qed.

Lemma name_of_inj c1 c2 : name_of c1 = name_of c2 -> c1 = c2.
Proof. intros H. apply string_app_inj_l in H. by apply (inj pretty) in H. Qed.

Lemma names_inv_bump st st' :
  func_decls st' = func_decls st -> counter st <= counter st' ->
  names_inv st -> names_inv st'.
Proof.
  intros Hf Hc [H1 H2]. split; rewrite Hf; [|exact H2].
  intros k e Hk. destruct (H1 k e Hk) as (c0 & Hc0 & Hname).
  exists c0. split; [lia|done].
Qed.

Lemma names_inv_insert st st' key n decl c :
  names_inv st -> 0 <= counter st -> func_decls st !! key = None ->
  counter st < c <= counter st' ->
  function_name decl = name_of c ->
  func_decls st' = <[key := (n, decl)]> (func_decls st) ->
  names_inv st'.
Proof.
  intros [H1 H2] Hpos Hnone Hc Hname Hf. split; rewrite Hf.
  - intros k e. destruct (decide (k = key)) as [->|Hne].
    + rewrite lookup_insert_eq. intros [= <-]. exists c.
      split; [lia|done].
    + rewrite lookup_insert_ne by done. intros Hk.
      destruct (H1 k e Hk) as (c0 & Hc0 & Hn0). exists c0. split; [lia|done].
  - intros k1 k2 e1 e2.
    destruct (decide (k1 = key)) as [->|Hne1], (decide (k2 = key)) as [->|Hne2];
      rewrite ?lookup_insert_eq, ?lookup_insert_ne by done; try done.
    + intros [= <-] Hk2 Heq. simpl in Heq.
      destruct (H1 k2 e2 Hk2) as (c0 & Hc0 & Hn0).
      rewrite Hname, Hn0 in Heq. apply name_of_inj in Heq. lia.
    + intros Hk1 [= <-] Heq. simpl in Heq.
      destruct (H1 k1 e1 Hk1) as (c0 & Hc0 & Hn0).
      rewrite Hname, Hn0 in Heq. apply name_of_inj in Heq. lia.
    + apply H2.
Qed.

Lemma expr_for_node_names fuel : forall (h : heap) node stack max st r st',
  names_inv st -> 0 <= counter st ->
  expr_for_node fuel h node stack max st = Some (r, st') ->
  names_inv st' /\ counter st <= counter st'.
Proof.
  induction fuel as [|fuel IH]; intros h node stack max st r st' Hinv Hpos Hrun;
    [discriminate|].
  simpl in Hrun.
  destruct (h !! node) as [n|] eqn:Hn; simpl in Hrun; [|discriminate].
  set (st0 := mkEmitState (func_decls st) (inserted st) (counter st + 1)
                          (stack_offset st)) in *.
  assert (Hinv0 : names_inv st0 /\ counter st <= counter st0).
  { split; [eapply names_inv_bump; [|
            |exact Hinv]; simpl; [done|lia]|simpl; lia]. }
  match type of Hrun with
  | context [foldlM ?f _ _] =>
    assert (Hloop : forall cs acc acc',
               names_inv acc.2 /\ counter st <= counter acc.2 ->
               foldlM f cs acc = Some acc' ->
               names_inv acc'.2 /\ counter st <= counter acc'.2)
  end.
  { induction cs as [|c cs IHcs]; intros acc acc' Hacc Hfold; simpl in Hfold.
    - by injection Hfold as <-.
    - destruct (expr_for_node fuel h c stack max acc.2) as [[rc stc]|] eqn:Hc;
        simpl in Hfold; [|discriminate].
      apply IH in Hc as [Hc1 Hc2]; [|apply Hacc|lia].
      eapply IHcs; [|exact Hfold]. simpl. split; [done|lia]. }
  match type of Hrun with
  | context [foldlM ?f ?l0 ?a0] =>
    destruct (foldlM f l0 a0) as [[[lv setup] st1]|] eqn:Hfold;
      simpl in Hrun; [|discriminate];
      specialize (Hloop l0 a0 _ Hinv0 Hfold)
  end.
  simpl in Hloop. destruct Hloop as [Hinv1 Hc1]. clear Hfold.
  destruct (fd n) eqn:Hfd; simpl in Hrun.
  2:{ injection Hrun as <- <-. split; [|simpl; lia].
      eapply names_inv_bump; [| |exact Hinv1]; simpl; [done|lia]. }
  destruct (get_hash (S fuel) h node) as [key|] eqn:Hkey; [|discriminate].
  simpl in Hrun.
  destruct (func_decls st1 !! key) as [e0|] eqn:He0; simpl in Hrun.
  - rewrite He0 in Hrun. simpl in Hrun. injection Hrun as <- <-.
    split; [|simpl; lia].
    eapply names_inv_bump; [| |exact Hinv1]; simpl; [done|lia].
  - rewrite lookup_insert_eq in Hrun. simpl in Hrun. injection Hrun as <- <-.
    split; [|simpl; lia].
    eapply (names_inv_insert st1 _ key n _ (counter st1 + 1 + 1));
      [exact Hinv1|lia|exact He0|simpl; lia|..].
    2: reflexivity. reflexivity.
Qed.

Lemma register_emitters_names fuel (h : heap) nodes vis stack : forall st st',
  names_inv st -> 0 <= counter st ->
  register_emitters fuel h nodes vis stack st = Some st' ->
  names_inv st' /\ counter st <= counter st'.
Proof.
  unfold register_emitters.
  induction vis as [|v vis IH]; intros st st' Hinv Hpos Hrun; simpl in Hrun.
  - injection Hrun as <-. split; [done|lia].
  - destruct (get_nodes_by_vi h nodes v) as [roots|]; simpl in Hrun; [|discriminate].
    assert (Hloop : forall rs s s', names_inv s /\ counter st <= counter s ->
               foldlM (fun st (p : InstructionProjection * ptr) =>
                         r ← expr_for_node fuel h p.2 stack
                                           (Var_of "MAX_SIZE_INSTR") st;
                         Some r.2) rs s = Some s' ->
               names_inv s' /\ counter st <= counter s').
    { induction rs as [|p rs IHrs]; intros s s' Hs Hfold; simpl in Hfold.
      - by injection Hfold as <-.
      - destruct (expr_for_node fuel h p.2 stack (Var_of "MAX_SIZE_INSTR") s)
          as [[r s1]|] eqn:Hcall; simpl in Hfold; [|discriminate].
        apply expr_for_node_names in Hcall as [Hc1 Hc2]; [|apply Hs|lia].
        eapply IHrs; [|exact Hfold]. split; [done|lia]. }
    match type of Hrun with
    | context [foldlM ?f roots ?s0] =>
      destruct (foldlM f roots s0) as [s1|] eqn:Hfold; simpl in Hrun; [|discriminate]
    end.
    apply Hloop in Hfold as [Hi1 Hc1].
    2:{ split; [eapply names_inv_bump; [| |exact Hinv]; simpl; [done|lia]
               |simpl; lia]. }
    apply IH in Hrun as [Hi2 Hc2]; [|done|lia]. split; [done|lia].
Qed.

(** X5.  The functions [prepare] records carry pairwise distinct names, each
    of the form [generated_name_<c>] with [c] at most the counter of the name
    storage, whenever that held for the table it started with (the empty
    table in particular). *)
Theorem emitter_names_distinct (fuel : nat) (h h' : heap) (nodes : list ptr)
        (vis : list Operation) (stack : Expr) (st st' : EmitState) :
  names_inv st -> 0 <= counter st ->
  prepare fuel h nodes vis stack st = Some (h', st') ->
  (forall k e, func_decls st' !! k = Some e ->
     exists c, 0 < c <= counter st' /\
               function_name e.2 = "generated_name_" +:+ pretty c) /\
  (forall k1 k2 e1 e2,
     func_decls st' !! k1 = Some e1 -> func_decls st' !! k2 = Some e2 ->
     function_name e1.2 = function_name e2.2 -> k1 = k2).
Proof.
  intros Hinv Hpos Hrun. unfold prepare in Hrun.
  destruct (calculate_costs fuel nodes h) as [h1|]; simpl in Hrun; [|discriminate].
  destruct (register_emitters fuel h1 nodes vis stack st) as [st1|] eqn:Hreg;
    simpl in Hrun; [|discriminate].
  injection Hrun as <- <-.
  apply register_emitters_names in Hreg as [Hi _]; done.
Qed.

Lemma empty_state_names : names_inv empty_state.
Proof. split; intros *; simpl; rewrite lookup_empty; discriminate. Qed.

Lemma emitter_names_distinct_witness :
  let st' := default empty_state
               ((fun r => r.2) <$> prepare 5 example_heap example_nodes [example_vi]
                                    (Var_of "stack") empty_state) in
  (forall k e, func_decls st' !! k = Some e ->
     exists c, 0 < c <= counter st' /\
               function_name e.2 = "generated_name_" +:+ pretty c) /\
  (forall k1 k2 e1 e2,
     func_decls st' !! k1 = Some e1 -> func_decls st' !! k2 = Some e2 ->
     function_name e1.2 = function_name e2.2 -> k1 = k2).
Proof.
  intros st'.
  refine (emitter_names_distinct 5 example_heap _ example_nodes [example_vi]
            (Var_of "stack") empty_state st' empty_state_names _ _).
  - simpl. lia.
  - vm_compute. reflexivity.
Defined.

(** *** The guard of a projection *)

(** X6.  The guard [get_expression_for_projection] builds is a single
    expression, the left-nested conjunction of one equality per select
    choice, in the order of the choices. *)
Theorem guard_of_conjunction (c : SelectChoice) (cs : list SelectChoice) :
  guard_of [] = [] /\
  guard_of (c :: cs)
  = [fold_left (fun acc c' => And acc (choice_eq c')) cs (choice_eq c)].
Proof.
  split; [reflexivity|].
  unfold guard_of. simpl. fold (choice_eq c).
  generalize (choice_eq c). induction cs as [|c' cs IH]; intros e; [done|].
  simpl. fold (choice_eq c'). apply IH.
Qed.

(** *** One block per projection *)

Lemma filter_split_perm {A} (P Q : A -> Prop) `{!forall x, Decision (P x)}
      `{!forall x, Decision (Q x)} (l : list A) :
  (forall x, P x -> Q x -> False) ->
  filter P l ++ filter Q l ≡ₚ filter (fun x => P x \/ Q x) l.
Proof.
  intros Hdisj. induction l as [|x l IH]; [done|].
  rewrite !filter_cons.
  destruct (decide (P x)) as [HP|HP], (decide (Q x)) as [HQ|HQ].
  - destruct (Hdisj x HP HQ).
  - rewrite decide_True by auto. simpl. by rewrite IH.
  - rewrite decide_True by auto. rewrite <- Permutation_middle. by rewrite IH.
  - rewrite decide_False by tauto. done.
Qed.

Lemma groups_perm {A} (key : A -> Z) (l : list A) (ks : list Z) :
  NoDup ks ->
  concat ((fun k => filter (fun x => key x = k) l) <$> ks)
  ≡ₚ filter (fun x => key x ∈ ks) l.
Proof.
  induction 1 as [|k ks Hk Hnd IH]; simpl.
  - induction l as [|x l IHl]; [done|]. rewrite filter_cons.
    rewrite decide_False by (intros H; inversion H). done.
  - rewrite IH, filter_split_perm by (by intros x <- Hin).
    erewrite list_filter_iff; [done|].
    intros x. rewrite elem_of_cons. done.
Qed.

Lemma proj_keys_spec (paths : list (InstructionProjection * ptr)) :
  NoDup (proj_keys paths) /\
  forall p, p ∈ paths -> addr (root_in_vi p.1) ∈ proj_keys paths.
Proof.
  unfold proj_keys. split.
  - rewrite merge_sort_Permutation. apply NoDup_remove_dups.
  - intros p Hp. rewrite merge_sort_Permutation, elem_of_remove_dups.
    apply (list_elem_of_fmap_2 (fun p : InstructionProjection * ptr =>
                                  addr (root_in_vi p.1))). done.
Qed.

Lemma decoder_for_key_mapM fuel (h : heap) fds walk paths key :
  decoder_for_key fuel h fds walk paths key
  = mapM (projection_expr fuel h fds walk) (equal_range key paths).
Proof.
  unfold decoder_for_key, projection_expr.
  assert (Hfold : forall l init,
             foldlM (fun body (p : InstructionProjection * ptr) =>
                       expr ← get_expression_for_projection
                                fuel h fds walk "stack_counter" p.1 p.2;
                       Some (body ++ [expr])) l init
             = es ← mapM (fun p : InstructionProjection * ptr =>
                            get_expression_for_projection
                              fuel h fds walk "stack_counter" p.1 p.2) l;
               Some (init ++ es)).
  { induction l as [|p l IH]; intros init; simpl; [by rewrite app_nil_r|].
    destruct (get_expression_for_projection fuel h fds walk "stack_counter" p.1 p.2)
      as [e|]; simpl; [|done].
    rewrite IH. destruct (mapM _ l); simpl; [|done]. by rewrite <- app_assoc. }
  case_bool_decide as Hlen.
  - destruct (equal_range key paths) as [|p [|p' l]]; try discriminate.
    simpl.
    destruct (get_expression_for_projection fuel h fds walk "stack_counter" p.1 p.2);
      done.
  - rewrite Hfold. destruct (mapM _ _); done.
Qed.

Lemma decoder_keys_loop fuel (h : heap) fds walk paths : forall keys init body,
  foldlM (fun body key =>
            es ← decoder_for_key fuel h fds walk paths key;
            Some (body ++ es)) keys init = Some body ->
  exists es, body = init ++ es /\
    mapM (projection_expr fuel h fds walk)
         (concat ((fun k => equal_range k paths) <$> keys)) = Some es.
Proof.
  induction keys as [|k keys IH]; intros init body Hrun; simpl in Hrun.
  - injection Hrun as <-. exists []. by rewrite app_nil_r.
  - rewrite decoder_for_key_mapM in Hrun.
    destruct (mapM _ (equal_range k paths)) as [es1|] eqn:H1; simpl in Hrun;
      [|discriminate].
    apply IH in Hrun as (es2 & -> & H2).
    exists (es1 ++ es2). split; [by rewrite app_assoc|].
    simpl. apply mapM_Some. apply Forall2_app; by apply mapM_Some.
Qed.

(** X7.  The decoder function of a verify-instruction is
    [void decoder_for_vi<id>()]; its body starts with the initialisation of
    [stack_counter] and then holds exactly one expression for each
    projection [get_nodes_by_vi] returned, grouped by key. *)
Theorem decoder_for_vi_body
        (fuel : nat) (h : heap) (nodes : list ptr)
        (fds : gmap string (SEGNode * FunctionDeclaration))
        (walk : InstructionProjection -> ptr -> list (Operation * ptr))
        (v : Operation) (decl : FunctionDeclaration) :
  decoder_for_vi fuel h nodes fds walk v = Some decl ->
  retType decl = Type_of "void" /\
  function_name decl = "decoder_for_vi" +:+ pretty (op_id v) /\
  args decl = [] /\
  exists paths es es',
    get_nodes_by_vi h nodes v = Some paths /\
    body decl = Assign (VarDecl (Var_of "stack_counter")) (Int 0) :: es /\
    mapM (projection_expr fuel h fds walk) paths = Some es' /\
    es ≡ₚ es'.
Proof.
  unfold decoder_for_vi. intros Hrun.
  destruct (get_nodes_by_vi h nodes v) as [paths|]; simpl in Hrun; [|discriminate].
  match type of Hrun with
  | context [foldlM ?f ?l ?i] =>
    destruct (foldlM f l i) as [body|] eqn:Hfold; simpl in Hrun; [|discriminate]
  end.
  injection Hrun as <-. simpl. do 3 (split; [done|]).
  apply decoder_keys_loop in Hfold as (es & -> & Hes).
  destruct (proj_keys_spec paths) as [Hnd Hcov].
  assert (Hperm : concat ((fun k => equal_range k paths) <$> proj_keys paths)
                  ≡ₚ paths).
  { unfold equal_range.
    rewrite (groups_perm (fun p : InstructionProjection * ptr =>
                            addr (root_in_vi p.1)) paths _ Hnd).
    clear -Hcov. revert Hcov. generalize (proj_keys paths). intros ks Hcov.
    induction paths as [|p paths IH]; [done|].
    rewrite filter_cons, decide_True by (apply Hcov; left).
    rewrite IH; [done|]. intros p' Hp'. apply Hcov. by right. }
  apply mapM_Some in Hes.
  destruct (Permutation_Forall2 Hperm Hes) as (es' & Hp' & Hes').
  exists paths, es, es'. split; [done|]. split; [done|].
  split; [by apply mapM_Some|done].
Qed.

(** *** Rewriting children *)

Lemma mapM_cons {A B} (f : A -> option B) x l :
  mapM f (x :: l) = y ← f x; k ← mapM f l; Some (y :: k).
Proof. reflexivity. Qed.

Lemma get_hash_iso_fuel fuel : forall (h : heap) a b,
  shape_iso h h a b -> get_hash fuel h a = get_hash fuel h b.
Proof.
  induction fuel as [|fuel IH]; intros h a b Hiso; [done|].
  rewrite !get_hash_S.
  inversion Hiso as [? ? na nb Ha Hb Hall]; subst. rewrite Ha, Hb. simpl.
  rewrite (Forall2_length _ _ _ Hall).
  assert (Hm : mapM (get_hash fuel h) (_nodes na) = mapM (get_hash fuel h) (_nodes nb)).
  { clear -IH Hall. induction Hall as [|x y xs ys Hxy Hall IHall]; simpl; [done|].
    by rewrite (IH h x y Hxy), IHall. }
  by rewrite Hm.
Qed.

(** X8.  [replace_all_nodes_by_id] only writes the children of the node it is
    called on, keeps their number, and leaves no child with the given [id]
    unless the replacement has it; when the replaced children have the shape
    of the replacement, the hash of every node of the graph stays what it
    was. *)
Theorem replace_all_nodes_by_id_spec (this new_target : ptr) (target_id : string)
        (h h' : heap) :
  replace_all_nodes_by_id this new_target target_id h = Some h' ->
  exists n n',
    h !! this = Some n /\ h' !! this = Some n' /\
    (forall p, p <> this -> h' !! p = h !! p) /\
    n' = set_nodes (_nodes n') n /\
    length (_nodes n') = length (_nodes n) /\
    (forall i c, _nodes n !! i = Some c ->
       _nodes n' !! i = Some c \/
       (_nodes n' !! i = Some new_target /\
        exists nc, h !! c = Some nc /\ id nc = target_id)) /\
    (forall c nc, c ∈ _nodes n' -> h' !! c = Some nc -> id nc = target_id ->
                  c = new_target) /\
    ((forall c nc, c ∈ _nodes n -> h !! c = Some nc -> id nc = target_id ->
                   shape_iso h h c new_target) ->
     forall fuel p, get_hash fuel h' p = get_hash fuel h p).
Proof.
  unfold replace_all_nodes_by_id. intros Hrun.
  destruct (h !! this) as [n|] eqn:Hn; simpl in Hrun; [|discriminate].
  injection Hrun as <-.
  set (f := fun node_ptr : ptr =>
              match h !! node_ptr with
              | Some c => if bool_decide (id c = target_id) then new_target else node_ptr
              | None => node_ptr
              end).
  exists n, (set_nodes (f <$> _nodes n) n).
  split; [done|]. split; [apply lookup_insert_eq|].
  split; [intros p Hp; by rewrite lookup_insert_ne|].
  split; [done|]. simpl. split; [apply length_fmap|].
  assert (Hid : forall c nc, <[this := set_nodes (f <$> _nodes n) n]> h !! c = Some nc ->
                             exists nc0, h !! c = Some nc0 /\ id nc0 = id nc).
  { intros c nc. destruct (decide (c = this)) as [->|Hne].
    - rewrite lookup_insert_eq. intros [= <-]. eauto.
    - rewrite lookup_insert_ne by done. eauto. }
  split.
  { intros i c Hi. rewrite list_lookup_fmap, Hi. simpl. unfold f.
    destruct (h !! c) as [nc|] eqn:Hc; [|by left].
    case_bool_decide; [right; eauto|by left]. }
  split.
  { intros c nc Hc Hnc Hidc. apply list_elem_of_fmap in Hc as (c0 & -> & Hc0).
    unfold f in *. destruct (h !! c0) as [nc0|] eqn:Hc0'.
    - case_bool_decide as Hid0; [done|].
      apply Hid in Hnc as (nc1 & Hnc1 & Hid1). congruence.
    - apply Hid in Hnc as (nc1 & Hnc1 & Hid1). congruence. }
  intros Hiso fuel. induction fuel as [|fuel IH]; intros p; [done|].
  rewrite !get_hash_S. destruct (decide (p = this)) as [->|Hne].
  - rewrite lookup_insert_eq, Hn. simpl. rewrite length_fmap.
    assert (Hm : forall cs, (forall c, c ∈ cs -> c ∈ _nodes n) ->
                 mapM (get_hash fuel (<[this := set_nodes (f <$> _nodes n) n]> h))
                      (f <$> cs)
                 = mapM (get_hash fuel h) cs).
    { induction cs as [|c cs IHcs]; intros Hsub; [done|].
      rewrite fmap_cons, !mapM_cons.
      rewrite IH, IHcs by (intros c' Hc'; apply Hsub; by right).
      assert (Hc : get_hash fuel h (f c) = get_hash fuel h c); [|by rewrite Hc].
      unfold f. destruct (h !! c) as [nc|] eqn:Hc; [|done].
      case_bool_decide as Hid0; [|done].
      symmetry. apply get_hash_iso_fuel. eapply Hiso; eauto. apply Hsub. left. }
    by rewrite Hm.
  - rewrite lookup_insert_ne by done.
    destruct (h !! p) as [np|]; simpl; [|done].
    assert (Hm : mapM (get_hash fuel (<[this := set_nodes (f <$> _nodes n) n]> h))
                      (_nodes np)
                 = mapM (get_hash fuel h) (_nodes np)).
    { induction (_nodes np) as [|c cs IHcs]; [done|].
      rewrite !mapM_cons. by rewrite IH, IHcs. }
    by rewrite Hm.
Qed.

(** X9.  [remove_node] drops from the node list every node that carries the
    [id] of the given node (the node itself and any other one), and keeps the
    others in their order. *)
Theorem remove_node_spec (node : ptr) (h : heap) (nodes nodes' : list ptr) :
  remove_node node h nodes = Some nodes' ->
  exists target, h !! node = Some target /\
    sublist nodes' nodes /\
    (forall p, p ∈ nodes' <->
               p ∈ nodes /\ exists n, h !! p = Some n /\ id n <> id target) /\
    (node ∉ nodes') /\
    remove_node node h nodes' = Some nodes'.
Proof.
  unfold remove_node. intros Hrun.
  destruct (h !! node) as [target|] eqn:Ht; simpl in *; [|discriminate].
  exists target. split; [done|].
  assert (Hloop : forall l init out,
             foldlM (fun kept p =>
                       n ← h !! p;
                       Some (if bool_decide (id n = id target)
                             then kept else kept ++ [p])) l init = Some out ->
             exists new, out = init ++ new /\ sublist new l /\
               (forall p, p ∈ new <->
                          p ∈ l /\ exists n, h !! p = Some n /\ id n <> id target) /\
               forall init',
                 foldlM (fun kept p =>
                           n ← h !! p;
                           Some (if bool_decide (id n = id target)
                                 then kept else kept ++ [p])) new init'
                 = Some (init' ++ new)).
  { induction l as [|p l IH]; intros init out Hfold; simpl in Hfold.
    - injection Hfold as <-. exists []. rewrite app_nil_r. split; [done|].
      split; [done|]. split; [|intros; simpl; by rewrite app_nil_r].
      intros p. split; [intros H; inversion H|intros [H _]; inversion H].
    - destruct (h !! p) as [n|] eqn:Hp; simpl in Hfold; [|discriminate].
      apply IH in Hfold as (new & -> & Hsub & Hmem & Hidem).
      case_bool_decide as Hid.
      + exists new. split; [done|]. split; [by apply sublist_cons|].
        split; [|done]. intros q. rewrite Hmem, elem_of_cons. split; [naive_solver|].
        intros [[->|Hq] (nq & Hnq & Hne)]; [congruence|eauto].
      + exists (p :: new). split; [by rewrite <- app_assoc|].
        split; [by apply sublist_skip|]. split.
        * intros q. rewrite !elem_of_cons, Hmem. split; [|naive_solver].
          intros [->|H]; [eauto|naive_solver].
        * intros init'. simpl. rewrite Hp. simpl.
          rewrite bool_decide_eq_false_2 by done. rewrite Hidem.
          by rewrite <- app_assoc. }
  apply Hloop in Hrun as (new & -> & Hsub & Hmem & Hidem). simpl.
  split; [done|]. split; [done|]. split; [|apply Hidem].
  intros Hin. apply Hmem in Hin as (_ & n & Hn & Hne). congruence.
Qed.

Lemma decoder_for_vi_body_witness :
  let decl := default (mkFunctionDeclaration (Id "") "" [] [])
                      (decoder_for_vi 5 example_costed example_nodes
                                      example_table example_walk example_vi) in
  retType decl = Type_of "void" /\
  function_name decl = "decoder_for_vi" +:+ pretty (op_id example_vi) /\
  args decl = [] /\
  exists paths es es',
    get_nodes_by_vi example_costed example_nodes example_vi = Some paths /\
    body decl = Assign (VarDecl (Var_of "stack_counter")) (Int 0) :: es /\
    mapM (projection_expr 5 example_costed example_table example_walk) paths
    = Some es' /\
    es ≡ₚ es'.
Proof.
  intros decl.
  apply (decoder_for_vi_body 5 example_costed example_nodes example_table
           example_walk example_vi decl).
  vm_compute. reflexivity.
Defined.

Lemma replace_all_nodes_by_id_spec_witness :
  let h' := default ∅ (replace_all_nodes_by_id 1 4 "b" example_heap) in
  exists n n',
    example_heap !! 1%positive = Some n /\ h' !! 1%positive = Some n' /\
    (forall p, p <> 1%positive -> h' !! p = example_heap !! p) /\
    n' = set_nodes (_nodes n') n /\
    length (_nodes n') = length (_nodes n) /\
    (forall i c, _nodes n !! i = Some c ->
       _nodes n' !! i = Some c \/
       (_nodes n' !! i = Some 4%positive /\
        exists nc, example_heap !! c = Some nc /\ id nc = "b")) /\
    (forall c nc, c ∈ _nodes n' -> h' !! c = Some nc -> id nc = "b" ->
                  c = 4%positive) /\
    ((forall c nc, c ∈ _nodes n -> example_heap !! c = Some nc -> id nc = "b" ->
                   shape_iso example_heap example_heap c 4) ->
     forall fuel p, get_hash fuel h' p = get_hash fuel example_heap p).
Proof.
  intros h'.
  apply (replace_all_nodes_by_id_spec 1 4 "b" example_heap h').
  vm_compute. reflexivity.
Defined.

Lemma remove_node_spec_witness :
  let nodes' := default [] (remove_node 2 example_heap example_nodes) in
  exists target, example_heap !! 2%positive = Some target /\
    sublist nodes' example_nodes /\
    (forall p, p ∈ nodes' <->
               p ∈ example_nodes /\
               exists n, example_heap !! p = Some n /\ id n <> id target) /\
    (2%positive ∉ nodes') /\
    remove_node 2 example_heap nodes' = Some nodes'.
Proof.
  intros nodes'.
  apply (remove_node_spec 2 example_heap example_nodes nodes').
  vm_compute. reflexivity.
Defined.

Lemma reachable_live (h : heap) nodes p :
  closed h -> (forall r, r ∈ nodes -> is_Some (h !! r)) ->
  reachable h nodes p -> is_Some (h !! p).
Proof.
  intros Hc Hr. induction 1 as [r Hin|p n c Hreach IH Hn Hcn]; [auto|].
  eapply Hc; eauto.
Qed.

Lemma reachable_rank (h : heap) rank nodes fuel p :
  ranked rank h -> (forall r, r ∈ nodes -> (rank r < fuel)%nat) ->
  reachable h nodes p -> (rank p < fuel)%nat.
Proof.
  intros Hr Hroots. induction 1 as [r Hin|p n c Hreach IH Hn Hcn]; [auto|].
  specialize (Hr p n c Hn Hcn). lia.
Qed.

(** In an [ordered] sequence every child of a node stands at a smaller
    index than the node. *)
Lemma ordered_before (h : heap) (order : list ptr) :
  ordered h order ->
  forall i p n c, order !! i = Some p -> h !! p = Some n -> c ∈ _nodes n ->
                  exists j, (j < i)%nat /\ order !! j = Some c.
Proof.
  induction 1 as [|out q n0 Hord IH Hq Hcs]; intros i p n c Hi Hp Hc;
    [by rewrite lookup_nil in Hi|].
  destruct (decide (i < length out)%nat) as [Hlt|Hge].
  - rewrite lookup_app_l in Hi by done.
    destruct (IH i p n c Hi Hp Hc) as (j & Hj & Hjc).
    exists j. split; [done|]. rewrite lookup_app_l by lia. done.
  - assert (Hlen := lookup_lt_Some _ _ _ Hi). rewrite length_app in Hlen.
    simpl in Hlen. assert (i = length out) as -> by lia.
    rewrite lookup_app_r in Hi by lia. rewrite Nat.sub_diag in Hi.
    injection Hi as <-. rewrite Hq in Hp. injection Hp as <-.
    apply Hcs in Hc. apply list_elem_of_lookup in Hc as [j Hj].
    exists j. split; [by apply lookup_lt_Some in Hj|].
    rewrite lookup_app_l by (by apply lookup_lt_Some in Hj). done.
Qed.

(** X10.  [print_semantics_emitter] prints, for the nodes of the graph in
    post-order and each node once, the table entry found under the hash of
    the node: the nodes are taken in the order [dfs_on_close] yields them,
    in which every child of a node stands before the node; an entry shared
    by several nodes of the graph is printed once for each of them, an entry
    no node of the graph hashes to is not printed. *)
Theorem print_semantics_emitter_spec (rank : ptr -> nat) (fuel : nat)
        (h : heap) (nodes : list ptr)
        (fds : gmap string (SEGNode * FunctionDeclaration)) :
  closed h -> ranked rank h ->
  (forall r, r ∈ nodes -> is_Some (h !! r) /\ (rank r < fuel)%nat) ->
  exists order out,
    print_semantics_emitter fuel h nodes fds = Some out /\
    dfs_on_close fuel h nodes = Some order /\
    ordered h order /\
    (forall i p n c, order !! i = Some p -> h !! p = Some n -> c ∈ _nodes n ->
                     exists j, (j < i)%nat /\ order !! j = Some c) /\
    NoDup order /\ (forall p, p ∈ order <-> reachable h nodes p) /\
    out = omap (emitter_of fuel h fds) order /\
    (forall e, e ∈ out <->
               exists p, reachable h nodes p /\ emitter_of fuel h fds p = Some e).
Proof.
  intros Hclosed Hranked Hroots.
  destruct (dfs_on_close_spec h rank fuel nodes Hclosed Hranked Hroots)
    as (order & Hdfs & Hnd & Hord & Hmem).
  unfold print_semantics_emitter. rewrite Hdfs. simpl.
  assert (Hloop : forall l init,
             (forall p, p ∈ l -> reachable h nodes p) ->
             foldlM (fun out node =>
                       key ← get_hash fuel h node;
                       match fds !! key with
                       | Some fd => Some (out ++ [fd])
                       | None => Some out
                       end) l init
             = Some (init ++ omap (emitter_of fuel h fds) l)).
  { induction l as [|p l IH]; intros init Hl; simpl; [by rewrite app_nil_r|].
    assert (Hp : reachable h nodes p) by (apply Hl; left).
    destruct (get_hash_total rank fuel h p Hclosed Hranked) as [key Hkey].
    { eapply reachable_live; eauto. intros r Hr. by apply Hroots. }
    { eapply reachable_rank; eauto. intros r Hr. by apply Hroots. }
    unfold emitter_of at 1. rewrite Hkey. simpl.
    destruct (fds !! key) as [fd|]; simpl.
    - rewrite IH by (intros q Hq; apply Hl; by right). by rewrite <- app_assoc.
    - apply IH. intros q Hq. apply Hl. by right. }
  exists order, (omap (emitter_of fuel h fds) order).
  split; [apply (Hloop order []); intros p; apply Hmem|].
  split; [done|]. split; [done|]. split; [by apply ordered_before|].
  split; [done|]. split; [done|]. split; [done|].
  intros e. rewrite list_elem_of_omap. split.
  - intros (p & Hp & He). exists p. split; [by apply Hmem|done].
  - intros (p & Hp & He). exists p. split; [by apply Hmem|done].
Qed.

(** *** Hash of a node after a link was added *)

Lemma get_hash_local (S : ptr -> Prop) (h h' : heap) fuel : forall x,
  (forall y n c, S y -> h !! y = Some n -> c ∈ _nodes n -> S c) ->
  (forall y, S y -> _nodes <$> h' !! y = _nodes <$> h !! y) ->
  S x -> get_hash fuel h' x = get_hash fuel h x.
Proof.
  induction fuel as [|fuel IH]; intros x Hcl Hsame Hx; [done|].
  rewrite !get_hash_S. assert (Hn := Hsame x Hx).
  destruct (h !! x) as [n|] eqn:Hhx, (h' !! x) as [n'|]; simpl in *;
    try discriminate; [|done].
  injection Hn as ->.
  assert (Hm : forall cs, (forall c, c ∈ cs -> c ∈ _nodes n) ->
                          mapM (get_hash fuel h') cs = mapM (get_hash fuel h) cs).
  { induction cs as [|c cs IHcs]; intros Hcs; [done|].
    rewrite !mapM_cons, IH, IHcs; [done|intros c' Hc'; apply Hcs; by right|done..|].
    eapply Hcl; [exact Hx|exact Hhx|]. apply Hcs. left. }
  by rewrite Hm.
Qed.

Lemma mapM_snoc {A B} (f : A -> option B) l x :
  mapM f (l ++ [x]) = ys ← mapM f l; y ← f x; Some (ys ++ [y]).
Proof.
  induction l as [|a l IH]; simpl.
  - destruct (f x); done.
  - destruct (f a); simpl; [|done]. fold (mapM f (l ++ [x])). fold (mapM f l).
    rewrite IH. destruct (mapM f l); simpl; [|done]. destruct (f x); done.
Qed.

Lemma cat_snoc hs s : cat (hs ++ [s]) = cat hs +:+ s.
Proof.
  induction hs as [|a hs IH]; simpl.
  - change (s +:+ "" = "" +:+ s). by rewrite string_app_nil_r.
  - change ((a +:+ cat (hs ++ [s])) = (a +:+ cat hs) +:+ s).
    by rewrite IH, string_app_assoc.
Qed.

Lemma add_parent_nodes (h : heap) (this parent : ptr) (h' : heap) :
  add_parent this parent h = Some h' ->
  exists n p q,
    h !! this = Some n /\ h !! parent = Some p /\ h !! q = None /\
    _nodes <$> h' !! parent = Some (_nodes p ++ [q]) /\
    _nodes <$> h' !! q = Some (_nodes n) /\
    forall y, y <> parent -> y <> q -> _nodes <$> h' !! y = _nodes <$> h !! y.
Proof.
  intros Hrun.
  destruct (add_parent_spec _ _ _ _ Hrun)
    as (n & p & q & Hn & Hp & Hq & Hqt & Hqp & _ & Hnp & Hnq & _).
  exists n, p, q. do 4 (split; [done|]). split; [by rewrite Hnq|].
  unfold add_parent, make_shared in Hrun. rewrite Hn, Hp in Hrun. simpl in Hrun.
  rewrite lookup_insert_eq in Hrun. simpl in Hrun.
  set (h1 := <[this := set_parents (_parents n ++ [parent]) n]> h) in *.
  destruct (<[fresh (dom h1) := set_parents (_parents n ++ [parent]) n]> h1 !! parent)
    as [p1|]; simpl in Hrun; [|discriminate].
  injection Hrun as <-.
  assert (Hq' : q = fresh (dom h1)).
  { assert (H := Hnq).
    destruct (decide (q = fresh (dom h1))) as [|Hne]; [done|exfalso].
    rewrite lookup_insert_ne, lookup_insert_ne in H by done.
    unfold h1 in H. rewrite lookup_insert_ne, Hq in H by done. done. }
  intros y Hy1 Hy2. rewrite lookup_insert_ne by done.
  rewrite lookup_insert_ne by (rewrite <- Hq'; done).
  unfold h1. destruct (decide (y = this)) as [->|Hne].
  - by rewrite lookup_insert_eq, Hn.
  - by rewrite lookup_insert_ne.
Qed.

Lemma add_child_nodes (h : heap) (this child : ptr) (h' : heap) :
  add_child this child h = Some h' ->
  exists n c q,
    h !! this = Some n /\ h !! child = Some c /\ h !! q = None /\
    _nodes <$> h' !! this = Some (_nodes n ++ [child]) /\
    forall y, y <> this -> y <> q -> _nodes <$> h' !! y = _nodes <$> h !! y.
Proof.
  intros Hrun.
  destruct (add_child_spec _ _ _ _ Hrun)
    as (n & c & q & Hn & Hc & Hq & Hqt & Hqc & Hnt & _ & Hnq & _).
  exists n, c, q. do 4 (split; [done|]).
  unfold add_child, make_shared in Hrun. rewrite Hn, Hc in Hrun. simpl in Hrun.
  rewrite lookup_insert_eq in Hrun. simpl in Hrun.
  set (h1 := <[this := set_nodes (_nodes n ++ [child]) n]> h) in *.
  destruct (<[fresh (dom h1) := set_nodes (_nodes n ++ [child]) n]> h1 !! child)
    as [c1|] eqn:Hc1; simpl in Hrun; [|discriminate].
  injection Hrun as <-.
  assert (Hq' : q = fresh (dom h1)).
  { assert (H := Hnq).
    destruct (decide (q = fresh (dom h1))) as [|Hne]; [done|exfalso].
    rewrite lookup_insert_ne, lookup_insert_ne in H by done.
    unfold h1 in H. rewrite lookup_insert_ne, Hq in H by done. done. }
  intros y Hy1 Hy2. destruct (decide (y = child)) as [->|Hne].
  - rewrite lookup_insert_eq. simpl.
    rewrite lookup_insert_ne in Hc1 by (rewrite <- Hq'; done).
    unfold h1 in Hc1. rewrite lookup_insert_ne in Hc1 by done.
    rewrite Hc in Hc1. injection Hc1 as <-. by rewrite Hc.
  - rewrite lookup_insert_ne by done.
    rewrite lookup_insert_ne by (rewrite <- Hq'; done).
    unfold h1. by rewrite lookup_insert_ne.
Qed.

(** X11.  After [add_parent] the hash of the parent is its old hash with the
    child count raised by one and the hash of the node appended (the copy
    that was linked hashes like the node), and the hash of the node itself
    has not changed. *)
Theorem add_parent_hash (rank : ptr -> nat) (fuel : nat) (h h' : heap)
        (this parent : ptr) (ht hp : string) :
  closed h -> ranked rank h -> (rank this < rank parent)%nat ->
  add_parent this parent h = Some h' ->
  get_hash (S fuel) h this = Some ht ->
  get_hash (S (S fuel)) h parent = Some hp ->
  exists p hs,
    h !! parent = Some p /\
    hp = pretty (length (_nodes p)) +:+ "|" +:+ hs /\
    get_hash (S (S fuel)) h' parent
    = Some (pretty (S (length (_nodes p))) +:+ "|" +:+ hs +:+ ht) /\
    get_hash (S fuel) h' this = Some ht.
Proof.
  intros Hclosed Hranked Hrank Hrun Ht Hp.
  destruct (add_parent_nodes _ _ _ _ Hrun)
    as (n & p & q & Hn & Hpn & Hq & Hnp & Hnq & Hother).
  set (S := fun y => is_Some (h !! y) /\ (rank y < rank parent)%nat).
  assert (Hcl : forall y ny c, S y -> h !! y = Some ny -> c ∈ _nodes ny -> S c).
  { intros y ny c [_ Hy] Hny Hc. split; [eapply Hclosed; eauto|].
    specialize (Hranked y ny c Hny Hc). lia. }
  assert (Hsame : forall y, S y -> _nodes <$> h' !! y = _nodes <$> h !! y).
  { intros y [[ny Hny] Hy]. apply Hother; [intros ->; lia|intros ->; congruence]. }
  assert (Hloc : forall f x, S x -> get_hash f h' x = get_hash f h x).
  { intros f x Hx. by apply (get_hash_local S). }
  assert (HSt : S this) by (split; [eauto|done]).
  rewrite get_hash_S, Hpn in Hp. simpl in Hp.
  destruct (mapM (get_hash (Datatypes.S fuel) h) (_nodes p)) as [hs|] eqn:Hhs;
    simpl in Hp; [|discriminate].
  injection Hp as <-. exists p, (cat hs). split; [done|]. split; [done|].
  split; [|by rewrite Hloc].
  rewrite get_hash_S.
  destruct (h' !! parent) as [p'|]; simpl in Hnp; [|discriminate].
  injection Hnp as Hnp. simpl. rewrite Hnp, length_app, mapM_snoc. simpl.
  assert (Hm : mapM (get_hash (Datatypes.S fuel) h') (_nodes p) = Some hs).
  { rewrite <- Hhs. clear Hhs.
    assert (Hsub : forall c, c ∈ _nodes p -> S c).
    { intros c Hc. split; [exact (Hclosed parent p c Hpn Hc)|].
      exact (Hranked parent p c Hpn Hc). }
    revert Hsub. generalize (_nodes p). intros cs Hsub.
    induction cs as [|c cs IH]; [done|].
    rewrite !mapM_cons, Hloc, IH; [done|intros c' Hc'; apply Hsub; by right|].
    apply Hsub. left. }
  rewrite Hm. simpl.
  assert (Hhq : get_hash (Datatypes.S fuel) h' q = Some ht).
  { rewrite <- Ht, !get_hash_S, Hn.
    destruct (h' !! q) as [nq|]; simpl in Hnq; [|discriminate].
    injection Hnq as Hnq. simpl. rewrite Hnq.
    assert (Hm' : mapM (get_hash fuel h') (_nodes n) = mapM (get_hash fuel h) (_nodes n)).
    { assert (Hsub : forall c, c ∈ _nodes n -> S c).
      { intros c Hc. eapply Hcl; eauto. }
      revert Hsub. generalize (_nodes n). intros cs Hsub.
      induction cs as [|c cs IH]; [done|].
      rewrite !mapM_cons, Hloc, IH; [done|intros c' Hc'; apply Hsub; by right|].
      apply Hsub. left. }
    by rewrite Hm'. }
  rewrite Hhq. simpl. rewrite cat_snoc, ?string_app_assoc.
  replace (length (_nodes p) + 1)%nat with (Datatypes.S (length (_nodes p))) by lia.
  done.
Qed.

(** X12.  After [add_child] the hash of the node is its old hash with the
    child count raised by one and the hash of the child appended, and the
    hash of the child has not changed. *)
Theorem add_child_hash (rank : ptr -> nat) (fuel : nat) (h h' : heap)
        (this child : ptr) (ht hc : string) :
  closed h -> ranked rank h -> (rank child < rank this)%nat ->
  add_child this child h = Some h' ->
  get_hash (S fuel) h this = Some ht ->
  get_hash fuel h child = Some hc ->
  exists n hs,
    h !! this = Some n /\
    ht = pretty (length (_nodes n)) +:+ "|" +:+ hs /\
    get_hash (S fuel) h' this
    = Some (pretty (S (length (_nodes n))) +:+ "|" +:+ hs +:+ hc) /\
    get_hash fuel h' child = Some hc.
Proof.
  intros Hclosed Hranked Hrank Hrun Ht Hc.
  destruct (add_child_nodes _ _ _ _ Hrun)
    as (n & c & q & Hn & Hcn & Hq & Hnt & Hother).
  set (S := fun y => is_Some (h !! y) /\ (rank y < rank this)%nat).
  assert (Hcl : forall y ny c, S y -> h !! y = Some ny -> c ∈ _nodes ny -> S c).
  { intros y ny c' [_ Hy] Hny Hc'. split; [eapply Hclosed; eauto|].
    specialize (Hranked y ny c' Hny Hc'). lia. }
  assert (Hsame : forall y, S y -> _nodes <$> h' !! y = _nodes <$> h !! y).
  { intros y [[ny Hny] Hy]. apply Hother; [intros ->; lia|intros ->; congruence]. }
  assert (Hloc : forall f x, S x -> get_hash f h' x = get_hash f h x).
  { intros f x Hx. by apply (get_hash_local S). }
  assert (HSc : S child) by (split; [eauto|done]).
  rewrite get_hash_S, Hn in Ht. simpl in Ht.
  destruct (mapM (get_hash fuel h) (_nodes n)) as [hs|] eqn:Hhs;
    simpl in Ht; [|discriminate].
  injection Ht as <-. exists n, (cat hs). split; [done|]. split; [done|].
  split; [|by rewrite Hloc].
  rewrite get_hash_S.
  destruct (h' !! this) as [n'|]; simpl in Hnt; [|discriminate].
  injection Hnt as Hnt. simpl. rewrite Hnt, length_app, mapM_snoc. simpl.
  assert (Hm : mapM (get_hash fuel h') (_nodes n) = Some hs).
  { rewrite <- Hhs. clear Hhs.
    assert (Hsub : forall c, c ∈ _nodes n -> S c).
    { intros c' Hc'. split; [exact (Hclosed this n c' Hn Hc')|].
      exact (Hranked this n c' Hn Hc'). }
    revert Hsub. generalize (_nodes n). intros cs Hsub.
    induction cs as [|c' cs IH]; [done|].
    rewrite !mapM_cons, Hloc, IH; [done|intros c'' Hc''; apply Hsub; by right|].
    apply Hsub. left. }
  rewrite Hm. simpl. rewrite Hloc, Hc by done. simpl.
  rewrite cat_snoc, ?string_app_assoc.
  replace (length (_nodes n) + 1)%nat with (Datatypes.S (length (_nodes n))) by lia.
  done.
Qed.

Lemma print_semantics_emitter_spec_witness :
  exists order out,
    print_semantics_emitter 5 example_heap example_nodes example_table = Some out /\
    dfs_on_close 5 example_heap example_nodes = Some order /\
    ordered example_heap order /\
    (forall i p n c, order !! i = Some p -> example_heap !! p = Some n ->
                     c ∈ _nodes n ->
                     exists j, (j < i)%nat /\ order !! j = Some c) /\
    NoDup order /\
    (forall p, p ∈ order <-> reachable example_heap example_nodes p) /\
    out = omap (emitter_of 5 example_heap example_table) order /\
    (forall e, e ∈ out <->
               exists p, reachable example_heap example_nodes p /\
                         emitter_of 5 example_heap example_table p = Some e).
Proof.
  exact (print_semantics_emitter_spec example_rank 5 example_heap example_nodes
           example_table example_heap_closed example_heap_ranked
           example_nodes_live).
Defined.

Lemma add_parent_hash_witness :
  let h' := default ∅ (add_parent 3 2 example_heap) in
  let ht := default "" (get_hash 4 example_heap 3) in
  let hp := default "" (get_hash 5 example_heap 2) in
  exists p hs,
    example_heap !! 2%positive = Some p /\
    hp = pretty (length (_nodes p)) +:+ "|" +:+ hs /\
    get_hash 5 h' 2
    = Some (pretty (S (length (_nodes p))) +:+ "|" +:+ hs +:+ ht) /\
    get_hash 4 h' 3 = Some ht.
Proof.
  intros h' ht hp.
  apply (add_parent_hash example_rank 3 example_heap h' 3 2 ht hp
           example_heap_closed example_heap_ranked).
  - simpl. lia.
  - vm_compute. reflexivity.
  - vm_compute. reflexivity.
  - vm_compute. reflexivity.
Defined.

Lemma add_child_hash_witness :
  let h' := default ∅ (add_child 2 3 example_heap) in
  let ht := default "" (get_hash 4 example_heap 2) in
  let hc := default "" (get_hash 3 example_heap 3) in
  exists n hs,
    example_heap !! 2%positive = Some n /\
    ht = pretty (length (_nodes n)) +:+ "|" +:+ hs /\
    get_hash 4 h' 2
    = Some (pretty (S (length (_nodes n))) +:+ "|" +:+ hs +:+ hc) /\
    get_hash 3 h' 3 = Some hc.
Proof.
  intros h' ht hc.
  apply (add_child_hash example_rank 3 example_heap h' 2 3 ht hc
           example_heap_closed example_heap_ranked).
  - simpl. lia.
  - vm_compute. reflexivity.
  - vm_compute. reflexivity.
  - vm_compute. reflexivity.
Defined.

(** ** Specialisation and the call tree *)

Lemma OpTree_ind' (P : OpTree -> Prop) :
  (forall op ts, Forall P ts -> P (OpNode op ts)) -> forall t, P t.
Proof.
  intros H. fix IH 1. intros [op ts]. apply H.
  induction ts as [|t ts IHts]; constructor; [apply IH|apply IHts].
Qed.

Lemma specialize_eq st node o ts :
  specialize st node (OpNode o ts)
  = n ← st.1.2 !! node;
    specialize_loop node ts 0
      (match st.1.1 !! id n with
       | None => (<[id n := o]> st.1.1, st.1.2, st.2)
       | Some _ => (st.1.1, <[node := set_specializeble false n]> st.1.2, st.2)
       end).
Proof.
  simpl. destruct (st.1.2 !! node) as [n|]; [|done]. simpl.
  generalize (match st.1.1 !! id n with
              | None => (<[id n := o]> st.1.1, st.1.2, st.2)
              | Some _ => (st.1.1, <[node := set_specializeble false n]> st.1.2, st.2)
              end).
  generalize 0%nat. induction ts as [|t ts IH]; intros c st0; [done|].
  simpl. destruct (st0.1.2 !! node) as [n0|]; [|done]. simpl.
  case_bool_decide; [done|]. destruct (_nodes n0 !! c) as [chi|]; [|done]. simpl.
  destruct (specialize st0 chi t) as [st1|]; [|done]. simpl. apply IH.
Qed.

Lemma set_specializeble_idemp b n :
  set_specializeble b (set_specializeble b n) = set_specializeble b n.
Proof. reflexivity. Qed.

Lemma spec_post_refl st : spec_post st st.
Proof.
  split; [done|]. split; [by left|]. split; [by left|].
  exists 0%nat. by rewrite app_nil_r.
Qed.

Lemma spec_post_trans st1 st2 st3 :
  spec_post st1 st2 -> spec_post st2 st3 -> spec_post st1 st3.
Proof.
  intros (Hs12 & Hk12 & Hc12 & k1 & He12) (Hs23 & Hk23 & Hc23 & k2 & He23).
  split; [by etrans|]. split; [|split].
  - intros k o Hk. destruct (Hk23 k o Hk) as [H2|(p & n & Hp & Hid)].
    + by apply Hk12.
    + right. destruct (Hc12 p) as [Heq|(n0 & Hn0 & Hn0' & _)].
      * exists p, n. by rewrite <- Heq.
      * exists p, n0. split; [done|]. rewrite Hn0' in Hp.
        injection Hp as <-. done.
  - intros p. destruct (Hc23 p) as [Heq3|(n2 & Hn2 & Hn2' & Hs2)];
      destruct (Hc12 p) as [Heq2|(n1 & Hn1 & Hn1' & Hs1)].
    + left. congruence.
    + right. exists n1. split; [done|]. split; [congruence|].
      destruct Hs1 as [o Ho]. exists o. by eapply lookup_weaken.
    + right. exists n2. split; [congruence|]. done.
    + right. exists n1. split; [done|]. rewrite Hn1' in Hn2.
      injection Hn2 as <-. done.
  - exists (k1 + k2)%nat. rewrite He23, He12, replicate_add, app_assoc. done.
Qed.

Lemma specialize_loop_gen node ts :
  Forall (fun t => forall st node st',
            specialize st node t = Some st' -> spec_post st st') ts ->
  forall c st st', specialize_loop node ts c st = Some st' -> spec_post st st'.
Proof.
  induction 1 as [|t ts Ht _ IHts]; intros c st0 st'; simpl.
  - intros [= <-]. apply spec_post_refl.
  - destruct (st0.1.2 !! node) as [n0|]; [|done]. simpl.
    case_bool_decide.
    + intros [= <-]. split; [done|]. split; [by left|]. split; [by left|].
      exists 1%nat. done.
    + destruct (_nodes n0 !! c) as [chi|]; [|done]. simpl.
      destruct (specialize st0 chi t) as [st2|] eqn:Hrec; [|done]. simpl.
      intros Hloop. eapply spec_post_trans; [by eapply Ht|by eapply IHts].
Qed.

Lemma specialize_post : forall op st node st',
  specialize st node op = Some st' -> spec_post st st'.
Proof.
  induction op as [o ts IH] using OpTree_ind'. intros st node st'.
  rewrite specialize_eq. destruct (st.1.2 !! node) as [n|] eqn:Hn; [|done].
  simpl. intros Hloop.
  set (st1 := match st.1.1 !! id n with
              | None => (<[id n := o]> st.1.1, st.1.2, st.2)
              | Some _ => (st.1.1, <[node := set_specializeble false n]> st.1.2, st.2)
              end) in *.
  assert (H1 : spec_post st st1).
  { subst st1. destruct (st.1.1 !! id n) as [o'|] eqn:Hid; simpl.
    - split; [done|]. split; [by left|]. split.
      + intros p. simpl. destruct (decide (p = node)) as [->|Hne].
        * right. exists n. rewrite lookup_insert_eq. split; [done|].
          split; [done|]. eauto.
        * left. by rewrite lookup_insert_ne.
      + exists 0%nat. by rewrite app_nil_r.
    - split; [by apply insert_subseteq|]. split.
      + intros k o'. simpl. destruct (decide (k = id n)) as [->|Hne].
        * intros _. right. eauto.
        * rewrite lookup_insert_ne by done. by left.
      + split; [by left|]. exists 0%nat. by rewrite app_nil_r. }
  eapply spec_post_trans; [exact H1|]. by eapply specialize_loop_gen.
Qed.

Lemma specialize_loop_post node ts c st st' :
  specialize_loop node ts c st = Some st' -> spec_post st st'.
Proof.
  apply specialize_loop_gen. apply Forall_forall. intros t _.
  apply specialize_post.
Qed.

Lemma spec_post_same_graph st st' : spec_post st st' -> same_graph st.1.2 st'.1.2.
Proof.
  intros (_ & _ & Hc & _) p. destruct (Hc p) as [->|(n & -> & -> & _)]; done.
Qed.

(** X13.  [specialize] never changes the entry [specs] has for an id: the
    operation entered first stays.  After the call the id of the node has
    an entry (the given operation when it had none).  A cell of the graph is
    either as before, or differs in [specializeble] alone, which is then
    false, and the id of that node has an entry; this is the case for the
    node itself when its id had an entry before the call.  The child lists
    stay, and [std::cerr] gets nothing but lines [not isomorphic]. *)
Theorem specialize_first_wins (specs : gmap string Operation) (h : heap)
        (cerr : list string) (node : ptr) (op : OpTree)
        (specs' : gmap string Operation) (h' : heap) (cerr' : list string) :
  specialize (specs, h, cerr) node op = Some (specs', h', cerr') ->
  specs ⊆ specs' /\
  (forall k o, specs' !! k = Some o ->
     specs !! k = Some o \/ exists p n, h !! p = Some n /\ id n = k) /\
  (forall p, h' !! p = h !! p \/
     (exists n, h !! p = Some n /\ h' !! p = Some (set_specializeble false n) /\
                is_Some (specs' !! id n))) /\
  (exists n, h !! node = Some n /\
     (specs !! id n = None -> specs' !! id n = Some (op_of op)) /\
     (is_Some (specs !! id n) -> h' !! node = Some (set_specializeble false n))) /\
  same_graph h h' /\
  exists k, cerr' = cerr ++ replicate k ("not isomorphic" +:+ endl).
Proof.
  intros Hrun. pose proof (specialize_post _ _ _ _ Hrun) as Hpost.
  pose proof (spec_post_same_graph _ _ Hpost) as Hsg.
  destruct Hpost as (Hsub & Hkeys & Hcells & Hcerr). simpl in *.
  split; [done|]. split; [done|]. split; [done|]. split; [|done].
  destruct op as [o ts]. rewrite specialize_eq in Hrun. simpl in Hrun.
  destruct (h !! node) as [n|] eqn:Hn; [|done]. simpl in Hrun.
  exists n. split; [done|]. split.
  - intros Hnone. rewrite Hnone in Hrun.
    apply specialize_loop_post in Hrun as (Hs & _). simpl in Hs.
    eapply lookup_weaken; [|exact Hs]. by rewrite lookup_insert_eq.
  - intros [o' Ho']. rewrite Ho' in Hrun.
    apply specialize_loop_post in Hrun as (_ & _ & Hc & _). simpl in Hc.
    destruct (Hc node) as [Heq|(n1 & Hn1 & Hn1' & _)].
    + by rewrite Heq, lookup_insert_eq.
    + rewrite lookup_insert_eq in Hn1. injection Hn1 as <-. done.
Qed.

(** X14.  [print_SEGNode_tree] returns only for an operation without
    operands, with the call [apply_operation( stack_name )]; for an
    operation that has an operand the first round of the loop ends the
    program, through [unreachable()] when the node has a child and through
    the access to its first child when it has none. *)
Theorem print_SEGNode_tree_leaf_only (h : heap) (node : ptr)
        (stack_name : string) (op : OpTree) :
  (operands_of op = [] -> is_Some (h !! node) ->
   print_SEGNode_tree h node stack_name op
   = Some (FunctionCall "apply_operation" [Var_of stack_name])) /\
  (operands_of op <> [] -> print_SEGNode_tree h node stack_name op = None).
Proof.
  destruct op as [o [|child rest]]; simpl; split; try done.
  - intros _ [n ->]. done.
  - intros _. destruct (h !! node) as [n|]; [|done]. simpl.
    destruct (_nodes n) as [|c cs]; done.
Qed.

Lemma specialize_first_wins_witness :
  let op := OpNode (example_op 201)
                   [OpNode (example_op 1) [OpNode (example_op 2) []];
                    OpNode (example_op 3) [];
                    OpNode (example_op 4) []] in
  let specs : gmap string Operation := {[ "c" := example_vi ]} in
  let r := default (specs, example_heap, [])
                   (specialize (specs, example_heap, []) 1 op) in
  specs ⊆ r.1.1 /\
  (forall k o, r.1.1 !! k = Some o ->
     specs !! k = Some o \/ exists p n, example_heap !! p = Some n /\ id n = k) /\
  (forall p, r.1.2 !! p = example_heap !! p \/
     (exists n, example_heap !! p = Some n /\
                r.1.2 !! p = Some (set_specializeble false n) /\
                is_Some (r.1.1 !! id n))) /\
  (exists n, example_heap !! 1%positive = Some n /\
     (specs !! id n = None -> r.1.1 !! id n = Some (op_of op)) /\
     (is_Some (specs !! id n) ->
      r.1.2 !! 1%positive = Some (set_specializeble false n))) /\
  same_graph example_heap r.1.2 /\
  exists k, r.2 = [] ++ replicate k ("not isomorphic" +:+ endl).
Proof.
  intros op specs r.
  apply (specialize_first_wins specs example_heap [] 1 op r.1.1 r.1.2 r.2).
  vm_compute. reflexivity.
Defined.

End SEGGraphFacts.

Module BuilderFacts.
Import DecodeAST Builder SEGFacts SEGGraphFacts.

Lemma taken_iff args s :
  candidate_name_is_taken args s = true <-> s ∈ arg_names args.
Proof.
  unfold candidate_name_is_taken, arg_names.
  induction args as [|a args IH]; simpl.
  - split; [done|]. intros H. inversion H.
  - rewrite orb_true_iff, IH.
    destruct a as [| | |?|v| | | | | | | | | | |]; simpl;
      try (split; [intros [?|?]; [done|done]|by right]).
    destruct v as [| | |name ? ? ?| | | | | | | | | | | |]; simpl;
      try (split; [intros [?|?]; [done|done]|by right]).
    rewrite bool_decide_eq_true, elem_of_cons. split; intros [?|?]; auto.
Qed.

Lemma next_free_spec arg_prefix args fuel : forall c (l : list string),
  (forall k, c <= k -> arg_prefix +:+ pretty k ∈ arg_names args ->
             arg_prefix +:+ pretty k ∈ l) ->
  (length l < fuel)%nat ->
  exists c', next_free fuel arg_prefix args c = Some c' /\
    c <= c' <= c + Z.of_nat (length l) /\
    ((arg_prefix +:+ pretty c') ∉ arg_names args) /\
    forall k, c <= k < c' -> arg_prefix +:+ pretty k ∈ arg_names args.
Proof.
  induction fuel as [|fuel IH]; intros c l Hl Hfuel; [lia|]. simpl.
  destruct (candidate_name_is_taken args (arg_prefix +:+ pretty c)) eqn:Ht.
  - apply taken_iff in Ht.
    set (l' := filter (fun s => s <> arg_prefix +:+ pretty c) l).
    assert (Hin : arg_prefix +:+ pretty c ∈ l) by (apply Hl; [lia|done]).
    assert (Hlen : (length l' < length l)%nat).
    { subst l'. clear -Hin. induction l as [|x l IH]; [inversion Hin|].
      rewrite filter_cons. destruct (decide (x <> arg_prefix +:+ pretty c)) as [Hx|Hx].
      - simpl. apply elem_of_cons in Hin as [Hin|Hin]; [by destruct Hx|].
        specialize (IH Hin). lia.
      - simpl. pose proof (length_filter (fun s => s <> arg_prefix +:+ pretty c) l).
        lia. }
    destruct (IH (c + 1) l') as (c' & Hrun & Hc' & Hfree & Hbetween); [|lia|].
    { intros k Hk Hkin. apply list_elem_of_filter. split; [|apply Hl; [lia|done]].
      intros Heq. apply string_app_inj_l in Heq. apply (inj pretty) in Heq. lia. }
    exists c'. split; [done|]. split; [lia|]. split; [done|].
    intros k Hk. destruct (decide (k = c)) as [->|Hne]; [done|].
    apply Hbetween. lia.
  - exists c. split; [done|]. split; [lia|]. split; [|intros k Hk; lia].
    intros Hin. apply taken_iff in Hin. congruence.
Qed.

Lemma omap_length {A B} (f : A -> option B) (l : list A) :
  (length (omap f l) <= length l)%nat.
Proof.
  induction l as [|a l IH]; [simpl; lia|].
  change (omap f (a :: l))
    with (match f a with Some y => y :: omap f l | None => omap f l end).
  destruct (f a); simpl length; lia.
Qed.

Lemma arg_names_length args : (length (arg_names args) <= length args)%nat.
Proof. apply omap_length. Qed.

Lemma arg_names_snoc args name t s p :
  arg_names (args ++ [VarDecl (Var name t s p)]) = arg_names args ++ [name].
Proof. unfold arg_names. by rewrite omap_app. Qed.

(** X15.  [get_new_arg] comes to an end after at most as many rounds as the
    builder has arguments; the counter only goes up, by no more than that
    number; the name it returns is the prefix followed by the final counter,
    is the name of no argument the builder had, every candidate it skipped
    was the name of one, and the new argument is put after the others, so
    names that were distinct stay distinct. *)
Theorem get_new_arg_fresh (arg_prefix : string) (t : Expr)
        (b : FunctionDeclarationBuilder) (extra : nat) :
  exists c,
    let new_arg := Var (arg_prefix +:+ pretty c) t false false in
    get_new_arg (S (length (_args b)) + extra) arg_prefix t b
    = Some (new_arg,
            mkFunctionDeclarationBuilder (_args b ++ [VarDecl new_arg]) c) /\
    arg_suffix_counter b <= c <= arg_suffix_counter b + Z.of_nat (length (_args b)) /\
    ((arg_prefix +:+ pretty c) ∉ arg_names (_args b)) /\
    (forall k, arg_suffix_counter b <= k < c ->
               arg_prefix +:+ pretty k ∈ arg_names (_args b)) /\
    (NoDup (arg_names (_args b)) ->
     NoDup (arg_names (_args b ++ [VarDecl new_arg]))).
Proof.
  destruct (next_free_spec arg_prefix (_args b) (S (length (_args b)) + extra)
                           (arg_suffix_counter b) (arg_names (_args b)))
    as (c & Hrun & Hc & Hfree & Hbetween); [done| |].
  { pose proof (arg_names_length (_args b)). lia. }
  exists c. cbv zeta. unfold get_new_arg. rewrite Hrun. simpl.
  split; [done|]. split.
  { pose proof (arg_names_length (_args b)). lia. }
  split; [done|]. split; [done|].
  intros Hnd. rewrite arg_names_snoc. apply NoDup_app. split; [done|].
  split; [|apply NoDup_singleton].
  intros x Hx ->%list_elem_of_singleton. done.
Qed.

End BuilderFacts.

Module AccessorsFacts.
Import Memory MemoryFacts.

(** X16.  [parse] accepts a size exactly when it is 32 or 64 after the cast to
    [uint32_t]; the record it returns then has the layout of that size and
    eight values, so every accessor passes its [check], and the accessors
    return the chunks of the input at the offsets 0, 1, 2, 8, 12, 16, 16 + P
    and 16 + 2P. *)
Theorem parse_accessors (V : Type) (call : V) (extract : V -> Z -> Z -> V)
        (size : Z) :
  let P := u32 size in
  match parse call extract size with
  | Some parsed =>
    (P = 32 \/ P = 64) /\
    layout parsed = Layout_of P /\ length (vals parsed) = e_num /\
    Accessors.used parsed = Some (extract call 0 1) /\
    Accessors.mode parsed = Some (extract call 1 1) /\
    Accessors.reserved parsed = Some (extract call 2 6) /\
    Accessors.id parsed = Some (extract call 8 4) /\
    Accessors.size parsed = Some (extract call 12 4) /\
    Accessors.addr parsed = Some (extract call 16 P) /\
    Accessors.value parsed = Some (extract call (16 + P) P) /\
    Accessors.timestamp parsed = Some (extract call (16 + 2 * P) 64)
  | None => P <> 32 /\ P <> 64
  end.
Proof.
  intros P. unfold parse, make. fold P.
  destruct (decide (P = 32 \/ P = 64)) as [HP|HP].
  - rewrite bool_decide_eq_true_2 by done. simpl. split; [done|].
    destruct HP as [-> | ->]; repeat split.
  - rewrite bool_decide_eq_false_2 by done. simpl. tauto.
Qed.

Lemma as_tuple_from_reads (V : Type) (parsed : Parsed V) (I : nat) :
  Accessors.as_tuple_from I parsed
  = reverse (Accessors.read_at parsed <$> seq 0 (S I)).
Proof.
  induction I as [|I IH]; [done|].
  rewrite (seq_S (S I)), fmap_app, reverse_app, <- IH. done.
Qed.

Lemma reads_in_range (V : Type) (parsed : Parsed V) (n : nat) :
  (n <= length (vals parsed))%nat ->
  Accessors.read_at parsed <$> seq 0 n = Accessors.InRange <$> take n (vals parsed).
Proof.
  induction n as [|n IH]; intros Hn; [done|].
  destruct (lookup_lt_is_Some_2 (vals parsed) n) as [v Hv]; [lia|].
  rewrite seq_S, fmap_app, IH by lia. rewrite (take_S_r _ _ _ Hv), fmap_app.
  simpl. unfold Accessors.read_at. by rewrite Hv.
Qed.

(** X17.  [as_tuple< I >] has [I + 1] components, read at the indices [I]
    down to [0]: they are the values of the vector at these indices when [I]
    is an index of the vector, and otherwise the first component is read
    past the end of the vector.  [as_tuple()] passes [e_num], one past the
    last index its own [check] allows: whenever the [check] passes, the
    tuple has nine components, the first one read at index 8, past the end,
    followed by the eight values from the last to the first. *)
Theorem as_tuple_out_of_range (V : Type) (parsed : Parsed V) (I : nat) :
  length (Accessors.as_tuple_from I parsed) = S I /\
  (forall i, (i <= I)%nat ->
             Accessors.as_tuple_from I parsed !! i
             = Some (Accessors.read_at parsed (I - i))) /\
  ((I < length (vals parsed))%nat ->
   Accessors.as_tuple_from I parsed
   = Accessors.InRange <$> reverse (take (S I) (vals parsed))) /\
  ((length (vals parsed) <= I)%nat ->
   Accessors.as_tuple_from I parsed !! 0%nat = Some (Accessors.PastEnd I)) /\
  Accessors.as_tuple parsed
  = if bool_decide (length (vals parsed) = e_num)
    then Some (Accessors.PastEnd e_num
                 :: (Accessors.InRange <$> reverse (vals parsed)))
    else None.
Proof.
  split; [|split; [|split; [|split]]].
  - rewrite as_tuple_from_reads, length_reverse, length_fmap, length_seq. done.
  - revert parsed. induction I as [|I IH]; intros parsed i Hi.
    + assert (i = 0)%nat as -> by lia. done.
    + destruct i as [|i]; [done|]. simpl. apply IH. lia.
  - intros HI. rewrite as_tuple_from_reads, reads_in_range by lia.
    by rewrite fmap_reverse.
  - intros HI. destruct I; simpl; unfold Accessors.read_at;
      rewrite lookup_ge_None_2 by lia; done.
  - unfold Accessors.as_tuple.
    destruct (decide (length (vals parsed) = e_num)) as [Hlen|Hlen].
    + rewrite !bool_decide_eq_true_2 by done. f_equal.
      unfold e_num in *. change (Accessors.as_tuple_from 8 parsed)
        with (Accessors.read_at parsed 8 :: Accessors.as_tuple_from 7 parsed).
      rewrite as_tuple_from_reads, reads_in_range by lia.
      rewrite <- Hlen at 2. rewrite firstn_all, fmap_reverse.
      unfold Accessors.read_at. rewrite lookup_ge_None_2 by lia. done.
    + rewrite !bool_decide_eq_false_2 by done. done.
Qed.

(** *** The packed record fits the size of the layout *)

Lemma insertBits_bits out thing from sz N :
  0 <= from -> 0 <= sz -> from + sz <= N ->
  (forall i, N <= i -> Z.testbit out i = false) ->
  forall i, N <= i -> Z.testbit (insertBits thing from sz out) i = false.
Proof.
  intros Hf Hs HN Hout i Hi. rewrite testbit_insertBits by lia.
  destruct (Z.leb_spec from i), (Z.ltb_spec i (from + sz)); simpl; try lia;
    apply Hout; lia.
Qed.

Lemma insertBits_nonneg out thing from sz :
  0 <= out -> 0 <= from -> 0 <= sz -> 0 <= insertBits thing from sz out.
Proof.
  intros Ho Hf Hs. unfold insertBits. apply Z.lor_nonneg. split.
  - apply Z.land_nonneg. by left.
  - apply Z.shiftl_nonneg. apply Z.land_nonneg. right.
    rewrite Z.ones_equiv. assert (0 < 2 ^ sz) by (apply Z.pow_pos_nonneg; lia). lia.
Qed.

Lemma bits_bound x N :
  0 <= x -> 0 <= N -> (forall i, N <= i -> Z.testbit x i = false) -> x < 2 ^ N.
Proof.
  intros Hx HN Hbits. destruct (Z.eq_dec x 0) as [->|Hne].
  - apply Z.pow_pos_nonneg; lia.
  - apply Z.log2_lt_pow2; [lia|].
    destruct (Z.lt_ge_cases (Z.log2 x) N) as [|Hge]; [done|].
    specialize (Hbits (Z.log2 x) Hge). rewrite Z.bit_log2 in Hbits by lia. done.
Qed.

(** X18.  For a pointer size of 32 or 64, the bit-string [construct] packs
    any record of eight values into is non-negative and has no bit set at or
    above [size P]: the packed record fits the width the layout reports. *)
Theorem construct_fits_size (P : Z) (v0 v1 v2 v3 v4 v5 v6 v7 : Z) :
  P = 32 \/ P = 64 ->
  exists bits,
    construct_bits (mkParsed (Layout_of P) [v0; v1; v2; v3; v4; v5; v6; v7])
    = Some bits /\
    0 <= bits < 2 ^ size P /\ size P = 80 + 2 * P.
Proof.
  intros HP.
  destruct HP as [-> | ->]; run_layout; (eexists; split; [reflexivity|]);
    (split; [|reflexivity]); (split;
    [repeat (apply insertBits_nonneg; [|lia|lia]); lia
    |apply bits_bound; [repeat (apply insertBits_nonneg; [|lia|lia]); lia
                       |vm_compute; discriminate|];
     vm_compute size;
     repeat (apply insertBits_bits; [lia|lia|lia|]); intros i Hi; apply Z.bits_0]).
Qed.

Lemma construct_fits_size_witness :
  exists bits,
    construct_bits (mkParsed (Layout_of 64) [1; 0; 0; 3; 4; 0xDEAD; 0xBEEF; 7])
    = Some bits /\
    0 <= bits < 2 ^ size 64 /\ size 64 = 80 + 2 * 64.
Proof.
  exact (construct_fits_size 64 1 0 0 3 4 0xDEAD 0xBEEF 7 (or_intror eq_refl)).
Defined.

End AccessorsFacts.

Module CostFacts.
Import Cost SEGFacts.

Lemma entries_spec (m : gmap N N) :
  StronglySorted (fun a b : N * N => (a.1 < b.1)%N) (entries m) /\
  forall k v, (k, v) ∈ entries m <-> m !! k = Some v.
Proof.
  unfold entries.
  assert (Hperm := merge_sort_Permutation key_le (map_to_list m)).
  assert (Hnd : NoDup (merge_sort key_le (map_to_list m)).*1).
  { rewrite Hperm. apply NoDup_fst_map_to_list. }
  assert (Hs : StronglySorted key_le (merge_sort key_le (map_to_list m))).
  { apply StronglySorted_merge_sort.
    - intros a b c. unfold key_le. lia.
    - intros a b. unfold key_le. lia. }
  split.
  - revert Hnd Hs. generalize (merge_sort key_le (map_to_list m)).
    unfold key_le.
    induction l as [|a l IH]; intros Hnd Hs; [constructor|].
    apply StronglySorted_inv in Hs as [Hs Ha].
    rewrite fmap_cons in Hnd. apply NoDup_cons in Hnd as [Hna Hnd].
    constructor; [auto|].
    rewrite Forall_forall in *. intros b Hb.
    assert (a.1 <> b.1).
    { intros Heq. apply Hna. rewrite Heq. by apply list_elem_of_fmap_2. }
    specialize (Ha b Hb). lia.
  - intros k v. rewrite Hperm. apply elem_of_map_to_list.
Qed.

Lemma diff_nil_l o : diff [] o = (fun o : N * N => (o.1, 0%N, o.2)) <$> o.
Proof. reflexivity. Qed.

Lemma diff_nil_r s : diff s [] = (fun s : N * N => (s.1, s.2, 0%N)) <$> s.
Proof. destruct s; reflexivity. Qed.

Lemma diff_cons_cons s s' o o' :
  diff (s :: s') (o :: o')
  = if (s.1 =? o.1)%N then (s.1, s.2, o.2) :: diff s' o'
    else if (s.1 <? o.1)%N then (s.1, s.2, 0%N) :: diff s' (o :: o')
         else (o.1, 0%N, o.2) :: diff (s :: s') o'.
Proof. reflexivity. Qed.

Lemma sorted_keys_inv a l :
  sorted_keys (a :: l) ->
  sorted_keys l /\ (forall k, k ∈ l.*1 -> (a.1 < k)%N).
Proof.
  intros H. apply StronglySorted_inv in H as [Hs Ha]. split; [done|].
  intros k Hk. apply list_elem_of_fmap in Hk as (b & -> & Hb).
  rewrite Forall_forall in Ha. auto.
Qed.

Lemma sorted_keys_fmap l : sorted_keys l -> StronglySorted N.lt (l.*1).
Proof. apply StronglySorted_fmap. auto. Qed.

Lemma elem_of_keys (l : list (N * N)) k v : (k, v) ∈ l -> k ∈ l.*1.
Proof. intros H. by apply (list_elem_of_fmap_2 fst) in H. Qed.

Lemma diff_spec n : forall s o,
  (length s + length o <= n)%nat -> sorted_keys s -> sorted_keys o -> diff_ok s o.
Proof.
  induction n as [|n IH]; intros s o Hlen Hs Ho.
  { destruct s, o; simpl in Hlen; try lia. repeat split.
    - constructor.
    - intros H; inversion H.
    - intros [H|H]; inversion H.
    - inversion H.
    - inversion H. }
  destruct s as [|s0 s'].
  { unfold diff_ok. rewrite diff_nil_l.
    rewrite <- !list_fmap_compose.
    split; [by apply sorted_keys_fmap|]. split.
    - intros k. split; [by right|]. intros [H|H]; [inversion H|done].
    - intros k a b H. apply list_elem_of_fmap in H as ([k' b'] & [= -> -> ->] & H).
      split; [right; split; [done|intros H'; inversion H']|by left]. }
  destruct o as [|o0 o'].
  { unfold diff_ok. rewrite diff_nil_r.
    rewrite <- !list_fmap_compose.
    split; [by apply sorted_keys_fmap|]. split.
    - intros k. split; [by left|]. intros [H|H]; [done|inversion H].
    - intros k a b H. apply list_elem_of_fmap in H as ([k' a'] & [= -> -> ->] & H).
      split; [by left|right; split; [done|intros H'; inversion H']]. }
  unfold diff_ok. rewrite diff_cons_cons.
  destruct (sorted_keys_inv _ _ Hs) as [Hs' Hs0].
  destruct (sorted_keys_inv _ _ Ho) as [Ho' Ho0].
  simpl in Hlen.
  destruct (N.eqb_spec s0.1 o0.1) as [Heq|Hne].
  - destruct (IH s' o') as (HA & HB & HC); [lia|done|done|].
    rewrite !fmap_cons. simpl. split; [|split].
    + constructor; [done|]. apply Forall_forall. intros k Hk.
      apply HB in Hk as [Hk|Hk]; [auto|]. rewrite Heq. auto.
    + intros k. rewrite !elem_of_cons, HB. rewrite Heq. tauto.
    + intros k a b H. apply elem_of_cons in H as [[= -> -> ->]|H].
      * split; left; [|rewrite Heq]; destruct s0, o0; left.
      * destruct (HC k a b H) as [H1 H2].
        assert (Hk : k ∈ (diff s' o').*1.*1).
        { apply (list_elem_of_fmap_2 fst) in H.
          by apply (list_elem_of_fmap_2 fst) in H. }
        apply HB in Hk.
        assert (Hgt : (s0.1 < k)%N).
        { destruct Hk as [Hk|Hk]; [auto|rewrite Heq; auto]. }
        split.
        -- destruct H1 as [H1|[-> H1]]; [left; by right|right].
           split; [done|]. rewrite elem_of_cons. intros [->|?]; [lia|done].
        -- destruct H2 as [H2|[-> H2]]; [left; by right|right].
           split; [done|]. rewrite elem_of_cons. intros [->|?]; [lia|done].
  - destruct (N.ltb_spec s0.1 o0.1) as [Hlt|Hge].
    + destruct (IH s' (o0 :: o')) as (HA & HB & HC); [simpl; lia|done|done|].
      rewrite !fmap_cons. simpl. split; [|split].
      * constructor; [done|]. apply Forall_forall. intros k Hk.
        apply HB in Hk as [Hk|Hk]; [auto|].
        rewrite fmap_cons in Hk. apply elem_of_cons in Hk as [->|Hk]; [done|].
        specialize (Ho0 k Hk). lia.
      * intros k. rewrite !elem_of_cons, HB, fmap_cons, elem_of_cons. tauto.
      * intros k a b H. apply elem_of_cons in H as [[= -> -> ->]|H].
        -- split; [left; destruct s0; left|right]. split; [done|].
           rewrite elem_of_cons. intros [Hk|Hk]; [lia|].
           specialize (Ho0 _ Hk). lia.
        -- destruct (HC k a b H) as [H1 H2]. split; [|done].
           assert (Hk : k ∈ (diff s' (o0 :: o')).*1.*1).
           { apply (list_elem_of_fmap_2 fst) in H.
             by apply (list_elem_of_fmap_2 fst) in H. }
           apply HB in Hk.
           assert (Hgt : (s0.1 < k)%N).
           { destruct Hk as [Hk|Hk]; [auto|].
             rewrite fmap_cons in Hk. apply elem_of_cons in Hk as [->|Hk]; [done|].
             specialize (Ho0 k Hk). lia. }
           destruct H1 as [H1|[-> H1]]; [left; by right|right].
           split; [done|]. rewrite elem_of_cons. intros [->|?]; [lia|done].
    + assert (Hlt : (o0.1 < s0.1)%N) by lia.
      destruct (IH (s0 :: s') o') as (HA & HB & HC); [simpl; lia|done|done|].
      rewrite !fmap_cons. simpl. split; [|split].
      * constructor; [done|]. apply Forall_forall. intros k Hk.
        apply HB in Hk as [Hk|Hk]; [|auto].
        rewrite fmap_cons in Hk. apply elem_of_cons in Hk as [->|Hk]; [done|].
        specialize (Hs0 k Hk). lia.
      * intros k. rewrite !elem_of_cons, HB, fmap_cons, elem_of_cons. tauto.
      * intros k a b H. apply elem_of_cons in H as [[= -> -> ->]|H].
        -- split; [right|left; destruct o0; left]. split; [done|].
           rewrite elem_of_cons. intros [Hk|Hk]; [lia|].
           specialize (Hs0 _ Hk). lia.
        -- destruct (HC k a b H) as [H1 H2]. split; [done|].
           assert (Hk : k ∈ (diff (s0 :: s') o').*1.*1).
           { apply (list_elem_of_fmap_2 fst) in H.
             by apply (list_elem_of_fmap_2 fst) in H. }
           apply HB in Hk.
           assert (Hgt : (o0.1 < k)%N).
           { destruct Hk as [Hk|Hk]; [|auto].
             rewrite fmap_cons in Hk. apply elem_of_cons in Hk as [->|Hk]; [done|].
             specialize (Hs0 k Hk). lia. }
           destruct H2 as [H2|[-> H2]]; [left; by right|right].
           split; [done|]. rewrite elem_of_cons. intros [->|?]; [lia|done].
Qed.

Lemma entries_count (m : gmap N N) k a :
  ((k, a) ∈ entries m \/ (a = 0%N /\ k ∉ (entries m).*1)) -> a = count_of m k.
Proof.
  destruct (entries_spec m) as [_ Hm]. unfold count_of. intros [H|[-> H]].
  - apply Hm in H. by rewrite H.
  - destruct (m !! k) as [v|] eqn:Hk; [|done].
    exfalso. apply H. apply Hm in Hk. by apply elem_of_keys in Hk.
Qed.

Lemma entries_dom (m : gmap N N) k : k ∈ (entries m).*1 <-> k ∈ dom m.
Proof.
  destruct (entries_spec m) as [_ Hm]. rewrite elem_of_dom. split.
  - intros H. apply list_elem_of_fmap in H as ([k' v] & -> & H). apply Hm in H. eauto.
  - intros [v Hv]. apply Hm in Hv. by apply elem_of_keys in Hv.
Qed.

Lemma diff_calls (self other : gmap N N) :
  let calls := diff (entries self) (entries other) in
  StronglySorted N.lt (calls.*1.*1) /\
  (forall k, k ∈ calls.*1.*1 <-> k ∈ dom self ∪ dom other) /\
  (forall k a b, (k, a, b) ∈ calls ->
                 a = count_of self k /\ b = count_of other k).
Proof.
  intros calls. subst calls.
  destruct (diff_spec _ (entries self) (entries other) (le_n _)
              (proj1 (entries_spec self)) (proj1 (entries_spec other)))
    as (HA & HB & HC).
  split; [done|]. split.
  - intros k. rewrite HB, elem_of_union, !entries_dom. done.
  - intros k a b H. destruct (HC k a b H) as [H1 H2].
    split; by apply entries_count.
Qed.

Lemma sorted_NoDup (l : list N) : StronglySorted N.lt l -> NoDup l.
Proof.
  induction 1 as [|x l Hs IH Hx]; constructor; [|done].
  intros Hin. rewrite Forall_forall in Hx. specialize (Hx x Hin). lia.
Qed.

(** X19.  The walk of [RawNodesCounter_::Diff] over two maps calls the
    callback once for every key of either map, so as often as there are such
    keys, in increasing order of the
    keys, with the count of the key in the first and in the second map, a
    missing key counting as zero. *)
Theorem diff_merges (self other : gmap N N) :
  let calls := diff (entries self) (entries other) in
  StronglySorted N.lt (calls.*1.*1) /\
  (forall k, k ∈ calls.*1.*1 <-> k ∈ dom self ∪ dom other) /\
  (forall k a b, (k, a, b) ∈ calls ->
                 a = count_of self k /\ b = count_of other k) /\
  length calls = size (dom self ∪ dom other).
Proof.
  intros calls. destruct (diff_calls self other) as (HA & HB & HC).
  fold calls in HA, HB, HC. do 3 (split; [done|]).
  rewrite <- (length_fmap fst calls), <- (length_fmap fst (calls.*1)).
  rewrite <- (size_list_to_set (C := gset N) (calls.*1.*1))
    by (by apply sorted_NoDup).
  f_equal. apply set_eq. intros k. rewrite elem_of_list_to_set. apply HB.
Qed.

(** *** What the report shows between two snapshots *)

Lemma string_app_eq_nil (a b : string) : a +:+ b = "" <-> a = "" /\ b = "".
Proof.
  split; [|intros [-> ->]; done].
  destruct a; [rewrite string_app_nil_l; done|].
  rewrite string_app_cons. discriminate.
Qed.

Lemma log_empty f what orig updated : log f what orig updated = "" <-> orig = updated.
Proof.
  unfold log. destruct (N.eqb_spec orig updated) as [->|Hne]; [done|].
  split; [|done]. rewrite string_app_cons. discriminate.
Qed.

Lemma logs_empty f (calls : list (N * N * N)) : forall acc,
  fold_left (fun os t => os +:+ log f t.1.1 t.1.2 t.2) calls acc = "" <->
  acc = "" /\ forall k a b, (k, a, b) ∈ calls -> a = b.
Proof.
  induction calls as [|[[k a] b] calls IH]; intros acc; simpl.
  - split; [intros ->; split; [done|intros ??? H; inversion H]|by intros [-> _]].
  - rewrite IH, string_app_eq_nil, log_empty. split.
    + intros [[-> ->] H]. split; [done|]. intros k' a' b' Hin.
      apply elem_of_cons in Hin as [[= -> -> ->]|Hin]; eauto.
    + intros [-> H]. split; [split; [done|]|].
      * apply (H k a b). left.
      * intros k' a' b' Hin. apply (H k' a' b'). by right.
Qed.

Lemma diff_equal_counts (m1 m2 : gmap N N) :
  (forall k a b, (k, a, b) ∈ diff (entries m1) (entries m2) -> a = b) <->
  (forall k, count_of m1 k = count_of m2 k).
Proof.
  destruct (diff_calls m1 m2) as (_ & HB & HC). split.
  - intros H k. destruct (decide (k ∈ dom m1 ∪ dom m2)) as [Hk|Hk].
    + apply HB in Hk. apply list_elem_of_fmap in Hk as ([k' a] & -> & Hk).
      apply list_elem_of_fmap in Hk as ([[k'' a'] b] & [= <- <-] & Hk).
      destruct (HC _ _ _ Hk) as [-> ->]. symmetry. apply eq_sym. eapply H. exact Hk.
    + apply not_elem_of_union in Hk as [H1 H2].
      apply not_elem_of_dom in H1, H2. unfold count_of. by rewrite H1, H2.
  - intros H k a b Hin. destruct (HC _ _ _ Hin) as [-> ->]. apply H.
Qed.

(** X20.  The difference [Printer::Diff] prints between two counters is
    empty exactly when they hold the same count for every opcode and every
    LLVM opcode, an opcode missing from a counter counting as zero; in
    particular a counter does not differ from itself. *)
Theorem report_diff_empty (node_name llvm_name : N -> string)
        (self other : RawNodesCounter) :
  (Printer_Diff node_name llvm_name self other = "" <->
   (forall k, count_of (nodes self) k = count_of (nodes other) k) /\
   (forall k, count_of (llvm_ops self) k = count_of (llvm_ops other) k)) /\
  Printer_Diff node_name llvm_name self self = "".
Proof.
  assert (H : forall a b,
             Printer_Diff node_name llvm_name a b = "" <->
             (forall k, count_of (nodes a) k = count_of (nodes b) k) /\
             (forall k, count_of (llvm_ops a) k = count_of (llvm_ops b) k)).
  { intros a b. unfold Printer_Diff, Diff. simpl.
    rewrite string_app_eq_nil, !logs_empty, !diff_equal_counts. tauto. }
  split; [apply H|]. apply H. done.
Qed.

(** *** Counting *)

Lemma count_of_bump key m k :
  count_of (bump key m) k
  = if decide (k = key) then u64 (count_of m key + 1) else count_of m k.
Proof.
  unfold bump, count_of at 1. case_decide as Hk.
  - subst. by rewrite lookup_insert_eq.
  - by rewrite lookup_insert_ne.
Qed.

Lemma Process_loop (codes : list N) (k : N) : forall c,
  let c' := fold_left (fun c op_code => Process op_code c) codes c in
  let n := length (filter (fun op_code => op_code = k) codes) in
  count_of (nodes c') k
  = (if decide (n = 0%nat) then count_of (nodes c) k
     else u64 (count_of (nodes c) k + N.of_nat n)) /\
  (k ∈ dom (nodes c') <-> k ∈ dom (nodes c) \/ k ∈ codes) /\
  llvm_ops c' = llvm_ops c.
Proof.
  induction codes as [|op codes IH]; intros c; simpl.
  - split; [done|]. split; [|done]. split; [by left|].
    intros [H|H]; [done|inversion H].
  - destruct (IH (Process op c)) as (H1 & H2 & H3). clear IH.
    split; [|split].
    + rewrite H1. simpl. rewrite count_of_bump, filter_cons.
      destruct (decide (op = k)) as [->|Hne].
      * destruct (decide (k = k)) as [_|?]; [|done]. simpl length.
        destruct (decide (S (length (filter (fun op_code => op_code = k) codes))
                          = 0%nat)) as [?|_]; [done|].
        destruct (decide (length (filter (fun op_code => op_code = k) codes) = 0%nat))
          as [Hn|Hn].
        -- rewrite Hn. done.
        -- unfold u64. rewrite N.Div0.add_mod_idemp_l by done. f_equal. lia.
      * destruct (decide (k = op)) as [?|_]; [congruence|]. done.
    + rewrite H2. simpl. unfold bump. rewrite dom_insert, elem_of_union,
        elem_of_singleton, elem_of_cons. naive_solver.
    + by rewrite H3.
Qed.

(** X21.  A fresh counter that [Process] has seen a sequence of operations
    with holds, for every opcode, the number of operations with that opcode
    (modulo 2^64), has an entry exactly for the opcodes it has seen, and no
    LLVM count. *)
Theorem Process_counts (codes : list N) (k : N) :
  let c := fold_left (fun c op_code => Process op_code c) codes
                     (mkRawNodesCounter ∅ ∅) in
  count_of (nodes c) k
  = u64 (N.of_nat (length (filter (fun op_code => op_code = k) codes))) /\
  (k ∈ dom (nodes c) <-> k ∈ codes) /\
  llvm_ops c = ∅.
Proof.
  intros c. subst c.
  destruct (Process_loop codes k (mkRawNodesCounter ∅ ∅)) as (H1 & H2 & H3).
  split; [|split; [|done]].
  - rewrite H1. simpl. unfold count_of. rewrite lookup_empty. simpl.
    case_decide as Hn; [by rewrite Hn|]. f_equal.
  - rewrite H2. simpl. rewrite dom_empty, elem_of_empty. tauto.
Qed.

End CostFacts.

Module WithHistoryFacts.
Import Passes WithHistory SEGFacts.

(** X22.  [Passes::run] applies the passes one after the other in the order
    of the list, so running a pipeline is running a first part of it and
    then the rest on the result; the empty pipeline gives the circuit
    back. *)
Theorem run_composes (Circuit : Type)
        (run_pass : NamedPass -> Circuit -> Circuit)
        (ps qs : list NamedPass) (circuit : Circuit) :
  run run_pass [] circuit = circuit /\
  run run_pass ps circuit = fold_left (fun c p => run_pass p c) ps circuit /\
  run run_pass (ps ++ qs) circuit = run run_pass qs (run run_pass ps circuit).
Proof.
  assert (H : forall l c, run run_pass l c = fold_left (fun c p => run_pass p c) l c).
  { intros [|p l] c; reflexivity. }
  split; [done|]. split; [apply H|].
  rewrite !H. apply fold_left_app.
Qed.

Lemma history_loop {Circuit Counter : Type}
      (next : NamedPass -> Circuit -> Circuit) (collect : Circuit -> Counter)
      (passes : list NamedPass) : forall history circuit,
  history <> [] ->
  fold_left (fun st p => run_pass next collect p st) passes (history, circuit)
  = (history ++ zip (passes.*1) (collect <$> tail (stages next passes circuit)),
     fold_left (fun c p => next p c) passes circuit).
Proof.
  induction passes as [|p passes IH]; intros history circuit Hne; simpl.
  - by rewrite app_nil_r.
  - unfold run_pass at 2. simpl.
    rewrite bool_decide_eq_false_2 by (destruct history; simpl; [done|lia]).
    unfold make_snapshot at 1. rewrite IH by (by destruct history).
    f_equal. rewrite <- app_assoc. f_equal.
    destruct passes; reflexivity.
Qed.

Lemma report_diffs_prefix {Counter : Type} (Diff : Counter -> Counter -> string)
      (l : list (Snapshot (Counter := Counter))) : forall prev ss,
  exists more, report_diffs Diff prev l ss = ss +:+ more.
Proof.
  induction l as [|[name def] l IH]; intros prev ss; simpl.
  - exists "". by rewrite string_app_nil_r.
  - destruct (IH def (ss +:+ name +:+ ":" +:+ endl +:+ Diff prev def)) as [more ->].
    eexists. rewrite ?string_app_assoc. reflexivity.
Qed.

(** X23.  A pipeline run under [WithHistory] computes the same circuit as
    without it, and leaves one snapshot for the input, named [start],
    followed by one snapshot per pass, in order, named after the pass and
    taken of the circuit that pass returned; the report then begins with the
    counts of the input.  When no pass runs, the history stays empty and the
    report is [empty history]. *)
Theorem history_of_run (Circuit Counter : Type)
        (next : NamedPass -> Circuit -> Circuit) (collect : Circuit -> Counter)
        (Print : Counter -> string) (Diff : Counter -> Counter -> string)
        (passes : list NamedPass) (circuit : Circuit) :
  let r := run (run_pass next collect) passes ([], circuit) in
  r.2 = run next passes circuit /\
  match passes with
  | [] => r.1 = [] /\ report Print Diff r.1 = "empty history"
  | _ :: _ =>
    r.1 = zip ("start" :: passes.*1) (collect <$> stages next passes circuit) /\
    exists more,
      report Print Diff r.1
      = "start:" +:+ endl +:+ Print (collect circuit) +:+ more
  end.
Proof.
  intros r. subst r. destruct passes as [|p passes]; [done|].
  unfold run.
  change (run_pass next collect p ([], circuit))
    with ([("start", collect circuit); (p.1, collect (next p circuit))],
          next p circuit).
  rewrite history_loop by done. simpl fst. simpl snd.
  split; [done|]. split.
  { change (stages next (p :: passes) circuit)
      with (circuit :: stages next passes (next p circuit)).
    simpl. do 2 f_equal. destruct passes; reflexivity. }
  unfold report. cbv zeta.
  match goal with
  | |- context [report_diffs ?D ?prev ?l ?ss] =>
    destruct (report_diffs_prefix D l prev ss) as [more ->]
  end.
  eexists. rewrite ?string_app_assoc. reflexivity.
Qed.

End WithHistoryFacts.

Module CmdParserFacts.
Import CmdParser SEGFacts CostFacts.

Lemma take_while_loop_spec cmds c toks : forall m,
  exists vs r,
    toks = vs ++ r /\ Forall (fun v => matches_any cmds v = false) vs /\
    take_while_loop cmds c toks m
    = mkParser (match vs with
                | [] => m
                | _ => <[primary (opt c) :=
                           default [] (m !! primary (opt c)) ++ vs]> m
                end) r.
Proof.
  induction toks as [|t toks IH]; intros m; simpl.
  - exists [], []. done.
  - destruct (matches_any cmds t) eqn:Ht; simpl.
    + exists [], (t :: toks). done.
    + destruct (IH (<[primary (opt c) :=
                        default [] (m !! primary (opt c)) ++ [t]]> m))
        as (vs & r & -> & Hvs & ->).
      exists (t :: vs), r. split; [done|]. split; [by constructor|].
      f_equal. destruct vs as [|v vs]; [done|].
      rewrite lookup_insert_eq. simpl. rewrite insert_insert_eq.
      by rewrite <- app_assoc.
Qed.

Lemma take_n_loop_spec cmds c n : forall p p',
  take_n_loop cmds c n p = Ok p' ->
  exists vs,
    rest p = vs ++ rest p' /\ length vs = n /\
    Forall (fun v => matches_any cmds v = false) vs /\
    parsed p' = match vs with
                | [] => parsed p
                | _ => <[primary (opt c) :=
                           default [] (parsed p !! primary (opt c)) ++ vs]>
                         (parsed p)
                end.
Proof.
  induction n as [|n IH]; intros p p' Hrun; simpl in Hrun.
  - injection Hrun as <-. exists []. done.
  - unfold peek in Hrun. destruct (rest p) as [|t r] eqn:Hr; [discriminate|].
    simpl in Hrun. destruct (matches_any cmds t) eqn:Ht; [discriminate|].
    apply IH in Hrun as (vs & Hrest & Hlen & Hvs & Hp).
    unfold account, advance in Hrest, Hp. simpl in Hrest, Hp. rewrite Hr in Hrest.
    simpl in Hrest. exists (t :: vs). split; [by rewrite Hrest|].
    split; [simpl; lia|]. split; [by constructor|].
    rewrite Hp. destruct vs as [|v vs]; [done|].
    rewrite lookup_insert_eq. simpl. rewrite insert_insert_eq.
    by rewrite <- app_assoc.
Qed.

Lemma parse_vals_spec cmds c p p' t r :
  rest p = t :: r ->
  parse_vals cmds c p = Ok p' ->
  exists vs,
    r = vs ++ rest p' /\ parsed p !! primary (opt c) = None /\
    values_ok cmds (c, t, vs) /\
    parsed p' = if recorded (c, t, vs)
                then <[primary (opt c) := vs]> (parsed p) else parsed p.
Proof.
  intros Hr. unfold parse_vals, present.
  case_bool_decide as Hpres; [discriminate|].
  assert (Hnone : parsed p !! primary (opt c) = None).
  { destruct (parsed p !! primary (opt c)) eqn:E; [|done]. destruct Hpres. eauto. }
  unfold values_ok, recorded. simpl.
  destruct (Z.eqb_spec (arity c) 0) as [Ha|Ha].
  - intros [= <-]. exists []. simpl. rewrite Hr. simpl.
    rewrite bool_decide_eq_true_2 by done. simpl.
    split; [done|]. split; [done|]. split; [|done].
    split; [constructor|]. split; [done|lia].
  - destruct (Z.ltb_spec (arity c) 0) as [Hneg|Hpos].
    + intros [= <-]. unfold take_while, advance. simpl. rewrite Hr. simpl.
      destruct (take_while_loop_spec cmds c r (parsed p)) as (vs & r' & -> & Hvs & ->).
      exists vs. simpl. split; [done|]. split; [done|].
      split; [split; [done|split; [done|lia]]|].
      rewrite bool_decide_eq_false_2 by done. simpl.
      destruct vs as [|v vs]; simpl; [done|]. by rewrite Hnone.
    + unfold take_n. intros Hrun.
      apply take_n_loop_spec in Hrun as (vs & Hrest & Hlen & Hvs & Hp).
      unfold advance in Hrest, Hp. simpl in Hrest, Hp. rewrite Hr in Hrest.
      simpl in Hrest. exists vs. split; [done|]. split; [done|].
      split; [split; [done|split; [done|intros _; lia]]|].
      rewrite bool_decide_eq_false_2 by done. simpl. rewrite Hp.
      destruct vs as [|v vs]; simpl; [done|]. by rewrite Hnone.
Qed.

Lemma match_on_spec cmds hs : forall p p' t r,
  rest p = t :: r ->
  match_on cmds hs p = Ok p' ->
  exists c, c ∈ hs /\ matches (opt c) t = true /\ parse_vals cmds c p = Ok p'.
Proof.
  induction hs as [|H Ts IH]; intros p p' t r Hr Hrun; simpl in Hrun;
    unfold peek in Hrun; rewrite Hr in Hrun; simpl in Hrun; [discriminate|].
  destruct (matches (opt H) t) eqn:Hm.
  - exists H. split; [left|done].
  - destruct (IH p p' t r Hr Hrun) as (c & Hc & Hmc & Hpv).
    exists c. split; [by right|done].
Qed.

Lemma table_of_step segs m (c : Cmd) t vs :
  table_of segs m -> m !! primary (opt c) = None ->
  table_of (segs ++ [(c, t, vs)])
           (if recorded (c, t, vs) then <[primary (opt c) := vs]> m else m).
Proof.
  intros Htab Hnone k vals.
  destruct (recorded (c, t, vs)) eqn:Hrec.
  - destruct (decide (k = primary (opt c))) as [->|Hne].
    + rewrite lookup_insert_eq. split.
      * intros [= <-]. exists (c, t, vs). split; [|done].
        apply elem_of_app. right. left.
      * intros (s & Hs & Hr & Hk & <-). apply elem_of_app in Hs as [Hs|Hs].
        -- assert (Hsome : m !! primary (opt c) = Some s.2).
           { apply Htab. exists s. done. }
           congruence.
        -- apply list_elem_of_singleton in Hs as ->. done.
    + rewrite lookup_insert_ne by done. rewrite (Htab k vals). split.
      * intros (s & Hs & H'). exists s. split; [|done]. apply elem_of_app. by left.
      * intros (s & Hs & Hr & Hk & Hv). apply elem_of_app in Hs as [Hs|Hs].
        -- exists s. done.
        -- apply list_elem_of_singleton in Hs as ->. simpl in Hk. congruence.
  - rewrite (Htab k vals). split.
    + intros (s & Hs & H'). exists s. split; [|done]. apply elem_of_app. by left.
    + intros (s & Hs & Hr & Hk & Hv). apply elem_of_app in Hs as [Hs|Hs].
      * exists s. done.
      * apply list_elem_of_singleton in Hs as ->. congruence.
Qed.

Lemma flat_app segs1 segs2 : flat (segs1 ++ segs2) = flat segs1 ++ flat segs2.
Proof. unfold flat. apply flat_map_app. Qed.

Lemma match_opt_spec cmds fuel : forall p segs,
  (length (rest p) < fuel)%nat ->
  Forall (seg_ok cmds) segs -> table_of segs (parsed p) ->
  exists res, match_opt fuel cmds p = Some res /\
    match res with
    | Exit _ => True
    | Ok p' =>
      rest p' = [] /\
      exists new, new <> [] /\ rest p = flat new /\
        Forall (seg_ok cmds) (segs ++ new) /\ table_of (segs ++ new) (parsed p')
    end.
Proof.
  induction fuel as [|fuel IH]; intros p segs Hfuel Hok Htab; [lia|].
  simpl. unfold peek at 1. destruct (rest p) as [|t r] eqn:Hr; simpl.
  { eexists. split; [done|]. done. }
  destruct (starts_with_dash t) eqn:Hdash; [|eexists; split; done].
  destruct (match_on cmds cmds p) as [p1|msg] eqn:Hmatch; [|eexists; split; done].
  destruct (match_on_spec _ _ _ _ _ _ Hr Hmatch) as (c & Hc & Hmc & Hpv).
  destruct (parse_vals_spec _ _ _ _ _ _ Hr Hpv) as (vs & Hrest & Hnone & Hvals & Hp1).
  assert (Hok1 : Forall (seg_ok cmds) (segs ++ [(c, t, vs)])).
  { apply Forall_app. split; [done|]. constructor; [|constructor]. done. }
  assert (Htab1 : table_of (segs ++ [(c, t, vs)]) (parsed p1)).
  { rewrite Hp1. by apply table_of_step. }
  unfold eof. case_bool_decide as Heof.
  - eexists. split; [done|]. split; [done|].
    exists [(c, t, vs)]. split; [done|]. split; [|done].
    unfold flat. simpl. rewrite app_nil_r, Hrest, Heof, app_nil_r. done.
  - destruct (IH p1 (segs ++ [(c, t, vs)])) as (res & Hrun & Hres); [|done|done|].
    { simpl in Hfuel. rewrite Hrest in Hfuel. rewrite length_app in Hfuel. lia. }
    exists res. split; [done|]. destruct res as [p2|]; [|done].
    destruct Hres as (Hend & new & Hne & Hflat & Hok2 & Htab2).
    split; [done|]. exists ((c, t, vs) :: new). split; [done|].
    rewrite <- app_assoc in Hok2, Htab2. simpl in Hok2, Htab2.
    split; [|done]. unfold flat in *. simpl. rewrite Hrest, Hflat. done.
Qed.

(** X24.  [parse_argv] always comes to an end; when it returns, every token
    was used, and the command line is a sequence of options, each named by
    a token that starts with a dash and matches it, followed by its values:
    none for arity 0, as many as the arity says for a positive arity, and
    tokens that match no option in any case.  The map [parsed] then has, for
    the primary name of each of these options, the values taken, except that
    an option of negative arity that got no value leaves no entry. *)
Theorem parse_argv_segments (cmds : list Cmd) (argv : list string) :
  exists res, parse_argv cmds argv = Some res /\
    match res with
    | Exit _ => True
    | Ok p =>
      rest p = [] /\
      exists segs : list segment,
        segs <> [] /\
        tail argv = flat_map (fun s : segment => s.1.2 :: s.2) segs /\
        Forall (fun s : segment =>
                  s.1.1 ∈ cmds /\ starts_with_dash s.1.2 = true /\
                  matches (opt s.1.1) s.1.2 = true /\ values_ok cmds s) segs /\
        forall k vals,
          parsed p !! k = Some vals <->
          exists s, s ∈ segs /\ recorded s = true /\
                    primary (opt s.1.1) = k /\ s.2 = vals
    end.
Proof.
  unfold parse_argv.
  destruct (match_opt_spec cmds (S (length (tail argv)))
                           (mkParser ∅ (tail argv)) [])
    as (res & Hrun & Hres); [simpl; lia|constructor| |].
  { intros k vals. simpl. rewrite lookup_empty. split; [done|].
    intros (s & Hs & _). inversion Hs. }
  exists res. split; [done|]. destruct res as [p|]; [|done].
  destruct Hres as (Hend & new & Hne & Hflat & Hok & Htab).
  split; [done|]. exists new. done.
Qed.

(** *** The ways [parse_argv] stops the process *)

Lemma match_on_first cmds hs p t r :
  rest p = t :: r ->
  match_on cmds hs p
  = match first_match hs t with
    | Some c => parse_vals cmds c p
    | None => Exit ("Unrecognized option " +:+ t)
    end.
Proof.
  intros Hr. induction hs as [|H Ts IH]; simpl; unfold peek; rewrite Hr; simpl;
    [done|].
  destruct (matches (opt H) t); [done|]. exact IH.
Qed.

Lemma first_match_any cmds t :
  matches_any cmds t = bool_decide (is_Some (first_match cmds t)).
Proof.
  induction cmds as [|H Ts IH]; simpl; [done|].
  destruct (matches (opt H) t); [done|exact IH].
Qed.

(** The values [vs] taken for the option [c], added to the map [m]. *)
Lemma take_while_loop_stop cmds c vs r : forall m,
  Forall (fun v => matches_any cmds v = false) vs ->
  (r = [] \/ exists t' r', r = t' :: r' /\ matches_any cmds t' = true) ->
  take_while_loop cmds c (vs ++ r) m
  = mkParser (match vs with
              | [] => m
              | _ => <[primary (opt c) :=
                         default [] (m !! primary (opt c)) ++ vs]> m
              end) r.
Proof.
  induction vs as [|v vs IH]; intros m Hvs Hr; simpl.
  - destruct Hr as [->|(t' & r' & -> & Ht')]; simpl; [done|]. by rewrite Ht'.
  - apply Forall_cons in Hvs as [Hv Hvs]. rewrite Hv. simpl.
    rewrite IH by done. f_equal. destruct vs as [|v' vs]; [done|].
    rewrite lookup_insert_eq. simpl. rewrite insert_insert_eq.
    by rewrite <- app_assoc.
Qed.

Lemma take_n_loop_ok cmds c vs r : forall m,
  Forall (fun v => matches_any cmds v = false) vs ->
  take_n_loop cmds c (length vs) (mkParser m (vs ++ r))
  = Ok (mkParser (match vs with
                  | [] => m
                  | _ => <[primary (opt c) :=
                             default [] (m !! primary (opt c)) ++ vs]> m
                  end) r).
Proof.
  induction vs as [|v vs IH]; intros m Hvs; simpl; [done|].
  apply Forall_cons in Hvs as [Hv Hvs]. unfold peek. simpl. rewrite Hv.
  unfold account, advance. simpl. rewrite IH by done. do 2 f_equal.
  destruct vs as [|v' vs]; [done|].
  rewrite lookup_insert_eq. simpl. rewrite insert_insert_eq.
  by rewrite <- app_assoc.
Qed.

Lemma take_n_loop_short cmds c vs : forall n m,
  Forall (fun v => matches_any cmds v = false) vs ->
  (length vs < n)%nat ->
  take_n_loop cmds c n (mkParser m vs) = Exit "Out of bonds read".
Proof.
  induction vs as [|v vs IH]; intros n m Hvs Hn; (destruct n as [|n]; [simpl in Hn; lia|]).
  - done.
  - apply Forall_cons in Hvs as [Hv Hvs]. simpl. unfold peek. simpl. rewrite Hv.
    unfold account, advance. simpl. apply IH; [done|]. simpl in Hn. lia.
Qed.

Lemma take_n_loop_matched cmds c vs t' r : forall n m,
  Forall (fun v => matches_any cmds v = false) vs ->
  matches_any cmds t' = true ->
  (length vs < n)%nat ->
  take_n_loop cmds c n (mkParser m (vs ++ t' :: r))
  = Exit (to_string c +:+ " expected " +:+ pretty (Z.of_nat (n - length vs))
            +:+ " more args, instead matched" +:+ t').
Proof.
  induction vs as [|v vs IH]; intros n m Hvs Ht' Hn;
    (destruct n as [|n]; [simpl in Hn; lia|]).
  - simpl. unfold peek. simpl. by rewrite Ht'.
  - apply Forall_cons in Hvs as [Hv Hvs].
    change (take_n_loop cmds c (S n) (mkParser m ((v :: vs) ++ t' :: r)))
      with (obind (peek (mkParser m (v :: vs ++ t' :: r))) (fun t =>
              if matches_any cmds t
              then fail (to_string c +:+ " expected " +:+ pretty (Z.of_nat (S n))
                           +:+ " more args, instead matched" +:+ t)
              else take_n_loop cmds c n
                     (account c t (advance (mkParser m (v :: vs ++ t' :: r)))))).
    unfold peek. simpl rest. cbv beta iota. unfold obind. rewrite Hv.
    unfold account, advance. simpl parsed. simpl rest. simpl tail.
    rewrite IH by (done || simpl in Hn; lia). done.
Qed.

(** What [parse_vals] does with an option followed by values it accepts,
    when the values end where the command line ends or where the next option
    stands. *)
Lemma parse_vals_ok cmds c t vs r m :
  m !! primary (opt c) = None ->
  values_ok cmds (c, t, vs) ->
  (int8 (arity c) <= 0 \/ arity c < 0 ->
   r = [] \/ exists t' r', r = t' :: r' /\ matches_any cmds t' = true) ->
  (0 < arity c -> int8 (arity c) <= 0 -> vs = []) ->
  parse_vals cmds c (mkParser m (t :: vs ++ r))
  = Ok (mkParser (if recorded (c, t, vs) then <[primary (opt c) := vs]> m else m) r).
Proof.
  intros Hnone (Hvs & Hzero & Hpos) Hr Hwrap. simpl in Hvs, Hzero, Hpos.
  unfold parse_vals, present, recorded. simpl.
  rewrite bool_decide_eq_false_2 by (rewrite Hnone; intros [? ?]; discriminate).
  destruct (Z.eqb_spec (arity c) 0) as [Ha|Ha].
  - rewrite Hzero by done. rewrite bool_decide_eq_true_2 by done. done.
  - rewrite bool_decide_eq_false_2 by done. simpl.
    destruct (Z.ltb_spec (arity c) 0) as [Hneg|Hge].
    + unfold take_while, advance. simpl.
      rewrite take_while_loop_stop by (done || apply Hr; by right).
      f_equal. destruct vs as [|v vs]; simpl; [done|]. by rewrite Hnone.
    + unfold take_n, advance. simpl.
      assert (Hlen := Hpos ltac:(lia)).
      destruct (Z.le_gt_cases (int8 (arity c)) 0) as [Hle|Hgt].
      * rewrite (Hwrap ltac:(lia) Hle). simpl.
        replace (Z.to_nat (int8 (arity c))) with 0%nat by lia. done.
      * replace (Z.to_nat (int8 (arity c))) with (length vs) by lia.
        rewrite take_n_loop_ok by done. do 2 f_equal.
        destruct vs as [|v vs]; simpl; [done|]. by rewrite Hnone.
Qed.

(** X25.  The ways [parse_argv] stops the process, [match_on] handing a
    token to the first option that matches it: without any argument; with a
    first token that does not start with a dash; with an option no command
    matches; with an option named again after it left an entry in [parsed]
    (it has arity 0, or it took a value); with an option of positive arity
    followed, up to the end of the command line, by fewer values than the
    arity asks for; and with such an option followed by fewer values and
    then by a token that matches an option.  An option of negative arity
    that took no value leaves no entry, so naming it twice in a row is
    accepted. *)
Theorem parse_argv_failures (cmds : list Cmd) (prog : string) :
  parse_argv cmds [] = Some (Exit "Out of bonds read") /\
  parse_argv cmds [prog] = Some (Exit "Out of bonds read") /\
  (forall t ts, starts_with_dash t = false ->
     parse_argv cmds (prog :: t :: ts) = Some (Exit ("Could not match opt " +:+ t))) /\
  (forall t ts, starts_with_dash t = true -> matches_any cmds t = false ->
     parse_argv cmds (prog :: t :: ts) = Some (Exit ("Unrecognized option " +:+ t))) /\
  (forall c t vs t' ts,
     starts_with_dash t = true -> starts_with_dash t' = true ->
     first_match cmds t = Some c -> first_match cmds t' = Some c ->
     values_ok cmds (c, t, vs) -> recorded (c, t, vs) = true ->
     parse_argv cmds (prog :: t :: vs ++ t' :: ts)
     = Some (Exit (to_string c +:+ " is present more than once"))) /\
  (forall c t vs,
     starts_with_dash t = true -> first_match cmds t = Some c ->
     0 < arity c -> Forall (fun v => matches_any cmds v = false) vs ->
     Z.of_nat (length vs) < int8 (arity c) ->
     parse_argv cmds (prog :: t :: vs) = Some (Exit "Out of bonds read")) /\
  (forall c t vs t' ts,
     starts_with_dash t = true -> first_match cmds t = Some c ->
     0 < arity c -> Forall (fun v => matches_any cmds v = false) vs ->
     Z.of_nat (length vs) < int8 (arity c) -> matches_any cmds t' = true ->
     parse_argv cmds (prog :: t :: vs ++ t' :: ts)
     = Some (Exit (to_string c +:+ " expected "
                     +:+ pretty (int8 (arity c) - Z.of_nat (length vs))
                     +:+ " more args, instead matched" +:+ t'))) /\
  (forall c t t',
     starts_with_dash t = true -> starts_with_dash t' = true ->
     first_match cmds t = Some c -> first_match cmds t' = Some c ->
     arity c < 0 ->
     parse_argv cmds [prog; t; t'] = Some (Ok (mkParser ∅ []))).
Proof.
  assert (Hround : forall fuel t r m,
             starts_with_dash t = true ->
             match_opt (S fuel) cmds (mkParser m (t :: r))
             = match match first_match cmds t with
                     | Some c => parse_vals cmds c (mkParser m (t :: r))
                     | None => Exit ("Unrecognized option " +:+ t)
                     end with
               | Exit msg => Some (Exit msg)
               | Ok p => if eof p then Some (Ok p) else match_opt fuel cmds p
               end).
  { intros fuel t r m Hd. simpl. rewrite Hd.
    by rewrite (match_on_first cmds cmds _ t r). }
  assert (Hfresh : forall c t r,
             parse_vals cmds c (mkParser ∅ (t :: r))
             = let p := advance (mkParser ∅ (t :: r)) in
               if arity c =? 0 then Ok (account_none c p)
               else if arity c <? 0 then Ok (take_while cmds c p)
               else take_n cmds c (int8 (arity c)) p).
  { intros c t r. unfold parse_vals, present. simpl.
    rewrite bool_decide_eq_false_2
      by (rewrite lookup_empty; intros [? ?]; discriminate). done. }
  split; [done|]. split; [done|]. split; [|split; [|split; [|split; [|split]]]].
  - intros t ts Hd. unfold parse_argv. simpl. unfold peek. simpl. by rewrite Hd.
  - intros t ts Hd Hm. unfold parse_argv. simpl tail. rewrite Hround by done.
    rewrite first_match_any in Hm. apply bool_decide_eq_false in Hm.
    destruct (first_match cmds t); [destruct Hm; eauto|done].
  - intros c t vs t' ts Hd Hd' Hc Hc' Hvals Hrec. unfold parse_argv. simpl tail.
    rewrite Hround, Hc by done.
    assert (Hany : matches_any cmds t' = true)
      by (rewrite first_match_any, Hc'; apply bool_decide_eq_true_2; eauto).
    rewrite parse_vals_ok; [|apply lookup_empty|done|right; eauto|].
    2:{ intros Hpos Hle. destruct Hvals as (_ & _ & Hlen). simpl in Hlen.
        specialize (Hlen Hpos). destruct vs; [done|simpl in Hlen; lia]. }
    rewrite Hrec. unfold eof. simpl rest.
    rewrite bool_decide_eq_false_2 by done.
    simpl length. rewrite Hround, Hc' by done.
    unfold parse_vals, present. simpl parsed.
    rewrite bool_decide_eq_true_2; [done|]. rewrite lookup_insert_eq. eauto.
  - intros c t vs Hd Hc Hpos Hvs Hlen. unfold parse_argv. simpl tail.
    rewrite Hround, Hc, Hfresh by done. cbv zeta.
    destruct (Z.eqb_spec (arity c) 0); [lia|].
    destruct (Z.ltb_spec (arity c) 0); [lia|].
    unfold take_n, advance. simpl.
    rewrite take_n_loop_short; [done|done|lia].
  - intros c t vs t' ts Hd Hc Hpos Hvs Hlen Ht'. unfold parse_argv. simpl tail.
    rewrite Hround, Hc, Hfresh by done. cbv zeta.
    destruct (Z.eqb_spec (arity c) 0); [lia|].
    destruct (Z.ltb_spec (arity c) 0); [lia|].
    unfold take_n, advance. simpl parsed. simpl rest. simpl tail.
    rewrite take_n_loop_matched by (done || lia).
    replace (Z.of_nat (Z.to_nat (int8 (arity c)) - length vs))
      with (int8 (arity c) - Z.of_nat (length vs)) by lia.
    done.
  - intros c t t' Hd Hd' Hc Hc' Hneg. unfold parse_argv. simpl tail.
    assert (Hany : matches_any cmds t' = true)
      by (rewrite first_match_any, Hc'; apply bool_decide_eq_true_2; eauto).
    assert (Hstep : forall r,
               r = [] \/ (exists t0 r0, r = t0 :: r0 /\ matches_any cmds t0 = true) ->
               parse_vals cmds c (mkParser ∅ (t :: r)) = Ok (mkParser ∅ r)).
    { intros r Hr. rewrite (parse_vals_ok cmds c t [] r ∅).
      - unfold recorded. simpl. rewrite bool_decide_eq_false_2 by lia. done.
      - apply lookup_empty.
      - split; [constructor|]. simpl. split; [done|lia].
      - intros _. exact Hr.
      - done. }
    rewrite Hround, Hc by done. rewrite Hstep by (right; eauto).
    unfold eof. simpl rest. rewrite bool_decide_eq_false_2 by done.
    simpl length. rewrite Hround, Hc' by done.
    assert (Hstep' : parse_vals cmds c (mkParser ∅ [t']) = Ok (mkParser ∅ [])).
    { rewrite (parse_vals_ok cmds c t' [] [] ∅).
      - unfold recorded. simpl. rewrite bool_decide_eq_false_2 by lia. done.
      - apply lookup_empty.
      - split; [constructor|]. simpl. split; [done|lia].
      - intros _. by left.
      - done. }
    rewrite Hstep'. done.
Qed.

Lemma parse_argv_failures_witness :
  parse_argv example_cmds ["prog"; "--help"; "-h"]
  = Some (Exit "[ --help ] is present more than once") /\
  parse_argv example_cmds ["prog"; "--many"; "a"; "--many"; "b"]
  = Some (Exit "[ --many ] is present more than once") /\
  parse_argv example_cmds ["prog"; "--pair"; "a"]
  = Some (Exit "Out of bonds read") /\
  parse_argv example_cmds ["prog"; "--pair"; "a"; "--help"]
  = Some (Exit "[ --pair ] expected 1 more args, instead matched--help") /\
  parse_argv example_cmds ["prog"; "--many"; "--many"]
  = Some (Ok (mkParser ∅ [])).
Proof.
  destruct (parse_argv_failures example_cmds "prog")
    as (_ & _ & _ & _ & Hdup & Hshort & Hmatched & Hmany).
  split; [|split; [|split; [|split]]].
  - apply (Hdup flag_cmd "--help" [] "-h" []); try reflexivity.
    split; [constructor|]. split; [done|]. simpl. lia.
  - apply (Hdup many_cmd "--many" ["a"] "--many" ["b"]); try reflexivity.
    split; [repeat constructor|]. split; simpl; intros; lia.
  - apply (Hshort pair_cmd "--pair" ["a"]); try reflexivity.
    repeat constructor.
  - apply (Hmatched pair_cmd "--pair" ["a"] "--help" []); try reflexivity.
    repeat constructor.
  - apply (Hmany many_cmd "--many" "--many"); reflexivity.
Defined.

Lemma is_one_valid_spec c m :
  (length (is_one_valid c m).2 <= 1)%nat /\
  ((is_one_valid c m).1 = true <-> (is_one_valid c m).2 = []) /\
  ((is_one_valid c m).1 = true <-> opt_fine m c) /\
  (forall y, y ∈ (is_one_valid c m).2 -> y.1 = primary (opt c)).
Proof.
  unfold is_one_valid, opt_fine, present.
  destruct (m !! primary (opt c)) as [vals|] eqn:Hm.
  - rewrite bool_decide_eq_true_2 by eauto. simpl.
    destruct (validate c) as [v|] eqn:Hv.
    + destruct (v vals) as [msg|] eqn:Hmsg; simpl.
      * split; [lia|]. split; [done|]. split.
        -- split; [done|]. intros [_ H]. specialize (H v vals eq_refl eq_refl).
           congruence.
        -- intros y ->%list_elem_of_singleton. done.
      * split; [lia|]. split; [done|]. split.
        -- split; [|done]. intros _. split; [eauto|].
           intros v' vals' [= <-] [= <-]. done.
        -- intros y Hy. inversion Hy.
    + simpl. split; [lia|]. split; [done|]. split.
      * split; [|done]. intros _. split; [eauto|]. intros v' vals' [=].
      * intros y Hy. inversion Hy.
  - rewrite bool_decide_eq_false_2 by (intros [? ?]; discriminate). simpl.
    destruct (required (opt c)) eqn:Hreq; simpl.
    + split; [lia|]. split; [done|]. split.
      * split; [done|]. intros [H _]. destruct (H eq_refl). discriminate.
      * intros y ->%list_elem_of_singleton. done.
    + split; [lia|]. split; [done|]. split.
      * split; [|done]. intros _. split; [done|]. intros v' vals' _ [=].
      * intros y Hy. inversion Hy.
Qed.

Lemma is_valid_cons H Ts m :
  Ts <> [] ->
  is_valid (H :: Ts) m
  = if (is_one_valid H m).1
    then ((is_valid Ts m).1, (is_one_valid H m).2 ++ (is_valid Ts m).2)
    else (false, (is_one_valid H m).2).
Proof. destruct Ts; [done|]. reflexivity. Qed.

(** X26.  [validate] stops at the first option that is not in order: the
    result is valid exactly when every option is in order, which is when
    [yield] is not called; otherwise [yield] is called once, with the
    primary name of the first option (in the order of the template
    arguments) that is not in order, and the options after it are not
    looked at.  The map of the parser is handed over unchanged. *)
Theorem validate_first_failure (cmds : list Cmd) (p : Parser) :
  pc_parsed (validate_all cmds p).1 = parsed p /\
  (pc_is_valid (validate_all cmds p).1 = true <->
   Forall (opt_fine (parsed p)) cmds) /\
  (pc_is_valid (validate_all cmds p).1 = true <-> (validate_all cmds p).2 = []) /\
  (length (validate_all cmds p).2 <= 1)%nat /\
  (forall y, y ∈ (validate_all cmds p).2 ->
     exists pre c post,
       cmds = pre ++ c :: post /\ Forall (opt_fine (parsed p)) pre /\
       ~ opt_fine (parsed p) c /\ y.1 = primary (opt c) /\
       (validate_all cmds p).2 = (is_one_valid c (parsed p)).2).
Proof.
  unfold validate_all. simpl. split; [done|]. generalize (parsed p). intros m.
  induction cmds as [|H Ts IH].
  - simpl. split; [done|]. split; [done|]. split; [lia|]. intros y Hy. inversion Hy.
  - destruct (is_one_valid_spec H m) as (Hlen & Hnil & Hfine & Hkey).
    destruct (decide (Ts = [])) as [->|Hne].
    + simpl. split.
      { rewrite Hfine. split; [intros ?; constructor; [done|constructor]|]. by intros ?%Forall_inv. }
      split; [done|]. split; [done|].
      intros y Hy. exists [], H, []. split; [done|]. split; [constructor|].
      split; [|split; [by apply Hkey|done]].
      rewrite <- Hfine. intros Ht. apply Hnil in Ht. rewrite Ht in Hy. inversion Hy.
    + rewrite is_valid_cons by done.
      destruct IH as (IHfine & IHnil & IHlen & IHy).
      destruct (is_one_valid H m).1 eqn:Hcur; simpl.
      * assert (Hn : (is_one_valid H m).2 = []) by (by apply Hnil).
        rewrite Hn. simpl. split.
        { rewrite IHfine. split; [constructor; [by apply Hfine|done]|].
          by intros ?%Forall_inv_tail. }
        split; [done|]. split; [done|].
        intros y Hy. destruct (IHy y Hy) as (pre & c & post & -> & Hpre & Hc & Hk & Hy2).
        exists (H :: pre), c, post. split; [done|].
        split; [constructor; [by apply Hfine|done]|]. done.
      * split.
        { split; [done|]. intros HF%Forall_inv. apply Hfine in HF. congruence. }
        split.
        { split; [done|]. intros Hn. apply Hnil in Hn. congruence. }
        split; [done|].
        intros y Hy. exists [], H, Ts. split; [done|]. split; [constructor|].
        split; [|split; [by apply Hkey|done]].
        rewrite <- Hfine. congruence.
Qed.

Lemma HasAllowed_loop (allowed : gset string) (tokens : list string) :
  forall ss : string,
  fold_left (fun ss token =>
               if bool_decide (token ∈ allowed) then ss
               else ss +:+ token +:+ " is not allowed." +:+ nl) tokens ss
  = ss +:+ SEG.cat (not_allowed <$> filter (fun t => t ∉ allowed) tokens).
Proof.
  unfold SEG.cat. induction tokens as [|t tokens IH]; intros ss; simpl.
  - by rewrite string_app_nil_r.
  - rewrite IH. rewrite filter_cons. case_bool_decide as Ht.
    + rewrite decide_False by (intros Hn; by apply Hn). done.
    + rewrite decide_True by done. simpl. unfold not_allowed.
      by rewrite ?string_app_assoc.
Qed.

(** X27.  [HasAllowed::validate] returns no message exactly when every token
    is one of the allowed ones; otherwise the message has one line for each
    token that is not, in the order of the tokens, a token that comes twice
    being named twice. *)
Theorem HasAllowed_validate_spec (allowed : gset string) (tokens : list string) :
  (HasAllowed_validate allowed tokens = None <->
   Forall (fun t => t ∈ allowed) tokens) /\
  (forall str, HasAllowed_validate allowed tokens = Some str ->
     str = SEG.cat (not_allowed <$> filter (fun t => t ∉ allowed) tokens) /\
     exists t, t ∈ tokens /\ t ∉ allowed).
Proof.
  unfold HasAllowed_validate. cbv zeta. rewrite HasAllowed_loop. rewrite string_app_nil_l.
  unfold SEG.cat.
  destruct (filter (fun t => t ∉ allowed) tokens) as [|t ts] eqn:Hf.
  - simpl. split; [|done]. split; [|done]. intros _.
    apply Forall_forall. intros t Ht.
    destruct (decide (t ∈ allowed)) as [|Hn]; [done|].
    assert (Hin : t ∈ filter (fun t => t ∉ allowed) tokens)
      by (apply list_elem_of_filter; done).
    rewrite Hf in Hin. inversion Hin.
  - assert (Hin : t ∈ filter (fun t => t ∉ allowed) tokens)
      by (rewrite Hf; left).
    apply list_elem_of_filter in Hin as [Hn Hin].
    rewrite bool_decide_eq_false_2.
    + split.
      * split; [done|]. intros HF. rewrite Forall_forall in HF. destruct Hn. eauto.
      * intros str [= <-]. split; [done|]. eauto.
    + simpl. unfold not_allowed. intros Hnil.
      apply string_app_eq_nil in Hnil as [Hnil _].
      apply string_app_eq_nil in Hnil as [_ Hnil].
      discriminate.
Qed.

Lemma tokenize_go_out str : forall token out,
  tokenize_go str token out = out ++ tokenize_go str token [].
Proof.
  induction str as [|ch str IH]; intros token out; simpl.
  - case_bool_decide; [by rewrite app_nil_r|done].
  - case_bool_decide; [|apply IH].
    rewrite IH. rewrite (IH _ (if bool_decide (token = "") then [] else [] ++ [token])).
    rewrite app_assoc. f_equal. case_bool_decide; [by rewrite app_nil_r|done].
Qed.

Lemma has_space_app a b : has_space (a +:+ b) = has_space a || has_space b.
Proof.
  induction a as [|ch a IH]; simpl; [done|]. rewrite IH. by rewrite orb_assoc.
Qed.

Lemma tokenize_go_tokens str : forall token out,
  has_space token = false -> Forall is_token out ->
  Forall is_token (tokenize_go str token out).
Proof.
  induction str as [|ch str IH]; intros token out Htok Hout; simpl.
  - case_bool_decide; [done|]. apply Forall_app. split; [done|].
    constructor; [done|constructor].
  - case_bool_decide as Hch.
    + apply IH; [done|]. case_bool_decide; [done|]. apply Forall_app.
      split; [done|]. constructor; [done|constructor].
    + apply IH; [|done]. rewrite has_space_app, Htok. simpl.
      rewrite bool_decide_eq_false_2 by done. done.
Qed.

Lemma tokenize_go_app s1 s2 : forall token,
  tokenize_go (s1 +:+ " " +:+ s2) token []
  = tokenize_go s1 token [] ++ tokenize_go s2 "" [].
Proof.
  induction s1 as [|ch s1 IH]; intros token; simpl.
  - rewrite tokenize_go_out. done.
  - case_bool_decide as Hch; [|apply IH].
    set (out := if bool_decide (token = "") then [] else [] ++ [token]).
    rewrite (tokenize_go_out _ _ out), IH, (tokenize_go_out s1 _ out).
    by rewrite app_assoc.
Qed.

Lemma tokenize_go_word t : forall token,
  has_space t = false -> token +:+ t <> "" ->
  tokenize_go t token [] = [token +:+ t].
Proof.
  induction t as [|ch t IH]; intros token Ht Hne; simpl in *.
  - rewrite string_app_nil_r in *. by rewrite bool_decide_eq_false_2.
  - apply orb_false_iff in Ht as [Hch Ht]. rewrite Hch.
    rewrite IH; [|done|].
    + by rewrite string_app_assoc.
    + rewrite string_app_assoc. done.
Qed.

(** X28.  [tokenize] cuts at the spaces and drops the empty pieces: no token
    it returns is empty or has a space in it; the tokens of two strings
    written with a space in between are the tokens of the first followed by
    the tokens of the second; and it gives back any list of tokens written
    with single spaces in between. *)
Theorem tokenize_unwords (str s1 s2 : string) (toks : list string) :
  Forall is_token (tokenize str) /\
  tokenize (s1 +:+ " " +:+ s2) = tokenize s1 ++ tokenize s2 /\
  (Forall is_token toks -> tokenize (unwords toks) = toks).
Proof.
  split; [|split].
  - apply tokenize_go_tokens; [done|constructor].
  - apply tokenize_go_app.
  - induction toks as [|t toks IH]; intros Htoks; [done|].
    apply Forall_cons in Htoks as [[Hne Hsp] Htoks].
    assert (Hword : tokenize t = [t]).
    { unfold tokenize. rewrite tokenize_go_word; rewrite ?string_app_nil_l; done. }
    destruct toks as [|t' toks]; [done|].
    change (unwords (t :: t' :: toks)) with (t +:+ " " +:+ unwords (t' :: toks)).
    unfold tokenize in *. rewrite tokenize_go_app, Hword, IH by done. done.
Qed.

End CmdParserFacts.
